(** * adeptRL: experience caches, V-trace returns and the learner container

    A shallow embedding of the bookkeeping code of the repository:

    - [ImpalaLearner]    : [adept/learner/impala.py], the static method
                           [_vtrace_returns];
    - [ACRollout]        : [adept/expcaches/rollout.py];
    - [ExperienceReplay] : [adept/expcaches/replay.py];
    - [Learner]          : [adept/container/workerlearner.py], the part of
                           [Learner.__init__] that fixes the batch count;
    - [WorkerLearner], [Worker] : [gpu_id] and the process groups of
                           [Worker.__init__], same file.

    Tensors of floats are modelled over the real numbers: [torch.exp] is
    [exp], [clamp(max=c)] is [Rmin _ c], and the element-wise operations
    are the field operations.  Rounding is therefore outside the model.
    Python integers are [Z]; Python exceptions are the constructors of
    [exn], returned through [result]. *)

From Stdlib Require Import Reals Lra ZArith List.
From stdpp Require Import gmap strings list pretty.

(** ** Exceptions and results *)

Inductive exn : Type :=
| NotImplementedError
| RuntimeError
| KeyError (msg : string)
| ValueError
| IndexError
| ZeroDivisionError.

Inductive result (A : Type) : Type :=
| Ok (a : A)
| Raise (e : exn).

Arguments Ok {A} a.
Arguments Raise {A} e.

Definition bind {A B : Type} (r : result A) (k : A → result B) : result B :=
  match r with
  | Ok a => k a
  | Raise e => Raise e
  end.

Declare Scope result_scope.
Delimit Scope result_scope with result.
Notation "'let*' x ':=' r 'in' k" := (bind r (fun x => k))
  (at level 10, x pattern, r at level 100, k at level 200) : result_scope.

(** ** [adept/learner/impala.py] *)

Module ImpalaLearner.

Local Open Scope R_scope.

(** Python's [!=] on floats is decided in the model by equality of reals. *)
#[export] Instance R_eq_dec : EqDecision R := Req_dec_T.

(** A tensor of shape [batch]. *)
Abbreviation row := (list R).
(** A tensor of shape [seq, batch]. *)
Abbreviation mat := (list (list R)).
(** A tensor of shape [seq, batch, #actions]. *)
Abbreviation cube := (list (list (list R))).

(** [log_prob_diffs] has two or three dimensions; the tests [dim() == 3]
    of the code are the matches on this type. *)
Inductive tensor : Type :=
| T2 (m : mat)
| T3 (c : cube).

Definition tensor_map (f : R → R) (t : tensor) : tensor :=
  match t with
  | T2 m => T2 (map (map f) m)
  | T3 c => T3 (map (map (map f)) c)
  end.

(** Element-wise operations on tensors of equal shape. *)
Definition row_add : row → row → row := zip_with Rplus.
Definition row_sub : row → row → row := zip_with Rminus.
Definition row_mul : row → row → row := zip_with Rmult.
Definition mat_add : mat → mat → mat := zip_with row_add.
Definition mat_sub : mat → mat → mat := zip_with row_sub.
Definition mat_mul : mat → mat → mat := zip_with row_mul.

(** [x.clamp(max=c)] on one entry. *)
Definition clamp_max (c x : R) : R := Rmin x c.

(** [t.clamp(max=c)]. *)
Definition clamp (c : R) (t : tensor) : tensor := tensor_map (clamp_max c) t.

(** [t.mean(-1)] on the last axis. *)
Definition sum (l : row) : R := fold_right Rplus 0 l.
Definition mean (l : row) : R := sum l / INR (length l).

(** [importance = torch.exp(log_prob_diffs)]. *)
Definition importance (log_prob_diffs : tensor) : tensor :=
  tensor_map exp log_prob_diffs.

(** [clamped_importance_value]: the clamp, then the mean over the actions
    when there are three dimensions. *)
Definition clamped_importance_value
    (log_prob_diffs : tensor) (minimum_importance_value : R) : mat :=
  match clamp minimum_importance_value (importance log_prob_diffs) with
  | T2 m => m
  | T3 c => map (map mean) c
  end.

(** [clamped_importance_pg = importance.clamp(max=minimum_importance_policy)]. *)
Definition clamped_importance_pg
    (log_prob_diffs : tensor) (minimum_importance_policy : R) : tensor :=
  clamp minimum_importance_policy (importance log_prob_diffs).

(** [torch.cat((xs[1:], estimated_value.unsqueeze(0)))]. *)
Definition shift_cat (xs : mat) (estimated_value : row) : mat :=
  tail xs ++ [estimated_value].

(** [diff_value_per_step]. *)
Definition diff_value_per_step
    (clamped : mat) (discount_terminal_mask rewards values : mat)
    (estimated_value : row) : mat :=
  let values_t_plus_1 := shift_cat values estimated_value in
  mat_mul clamped
    (mat_sub (mat_add rewards (mat_mul discount_terminal_mask values_t_plus_1))
             values).

(** [nstep_v] starts as the Python float [0.0] and is a tensor of shape
    [batch] after the first iteration; a float broadcasts over a row. *)
Inductive nstep : Type :=
| Scalar (x : R)
| Row (r : row).

Definition row_mul_nstep (r : row) (n : nstep) : row :=
  match n with
  | Scalar x => map (fun y => y * x) r
  | Row l => row_mul r l
  end.

(** One iteration of the loop over [reversed(range(seq))]. *)
Definition vtrace_step (diff mask clamped : mat)
    (st : nstep * list row) (i : nat) : nstep * list row :=
  let nstep_v :=
    row_add (nth i diff [])
            (row_mul_nstep (row_mul (nth i mask []) (nth i clamped [])) (fst st)) in
  (Row nstep_v, snd st ++ [nstep_v]).

Definition vtrace_loop (diff mask clamped : mat) : nstep * list row :=
  fold_left (vtrace_step diff mask clamped)
            (rev (seq 0 (length diff))) (Scalar 0, []).

(** [torch.stack] refuses an empty list. *)
Definition stack (rows : list row) : result mat :=
  match rows with
  | [] => Raise RuntimeError
  | _ => Ok rows
  end.

(** [advantage.unsqueeze(-1)] followed by the broadcast product with a
    tensor of three dimensions, or the plain product with one of two. *)
Definition weight_advantage (clamped_pg : tensor) (advantage : mat) : tensor :=
  match clamped_pg with
  | T2 m => T2 (mat_mul m advantage)
  | T3 c => T3 (zip_with (zip_with (fun acts a => map (fun w => w * a) acts))
                         c advantage)
  end.

Local Open Scope result_scope.

(** The body of [_vtrace_returns], on arguments of the shapes of
    [well_shaped] below.  On other shapes torch broadcasts or raises
    [RuntimeError] in the arithmetic of lines 129 to 131, before the test
    on the clamps; the element-wise operations of the model do neither, so
    the properties are stated for well-shaped arguments. *)
Definition _vtrace_returns
    (log_prob_diffs : tensor) (discount_terminal_mask rewards values : mat)
    (estimated_value : row)
    (minimum_importance_value minimum_importance_policy : R)
  : result (mat * tensor * tensor) :=
  let importance := importance log_prob_diffs in
  let clamped_importance_value :=
    clamped_importance_value log_prob_diffs minimum_importance_value in
  let diff_value_per_step :=
    diff_value_per_step clamped_importance_value discount_terminal_mask
                        rewards values estimated_value in
  if bool_decide (minimum_importance_policy ≠ 1 ∨ minimum_importance_value ≠ 1)
  then Raise NotImplementedError
  else
    let vs_minus_v_xs :=
      snd (vtrace_loop diff_value_per_step discount_terminal_mask
                       clamped_importance_value) in
    let* vs_minus_v_xs := stack (rev vs_minus_v_xs) in
    let v_s := mat_add values vs_minus_v_xs in
    let clamped_importance_pg :=
      clamped_importance_pg log_prob_diffs minimum_importance_policy in
    let v_s_tp1 := shift_cat v_s estimated_value in
    let advantage :=
      mat_sub (mat_add rewards (mat_mul discount_terminal_mask v_s_tp1)) values in
    let weighted_advantage := weight_advantage clamped_importance_pg advantage in
    Ok (v_s, weighted_advantage, importance).

(** The shapes the docstring asks for: [seq, batch] for the mask, the
    rewards and the values, [batch] for the bootstrap value, and
    [seq, batch] or [seq, batch, #actions] for the log-probability
    differences.  Other shapes make torch broadcast or raise and are not
    modelled. *)
Definition mat_shape (T B : nat) (m : mat) : Prop :=
  length m = T ∧ Forall (fun r => length r = B) m.

Definition tensor_shape (T B : nat) (t : tensor) : Prop :=
  match t with
  | T2 m => mat_shape T B m
  | T3 c =>
      length c = T ∧
      Forall (fun r => length r = B ∧ Forall (fun acts => acts ≠ []) r) c
  end.

Record well_shaped (T B : nat) (log_prob_diffs : tensor)
    (discount_terminal_mask rewards values : mat) (estimated_value : row)
  : Prop := {
  ws_diffs : tensor_shape T B log_prob_diffs;
  ws_mask : mat_shape T B discount_terminal_mask;
  ws_rewards : mat_shape T B rewards;
  ws_values : mat_shape T B values;
  ws_estimated : length estimated_value = B
}.

(** *** The recursion behind the loop *)

(** What [nstep_v] holds when the loop has produced [l], latest first in
    time order. *)
Definition acc_of (l : list row) : nstep :=
  match l with [] => Scalar 0 | r :: _ => Row r end.

(** [vs_minus_v_xs] forward in time, by recursion on the rollout instead of
    the loop over reversed indexes. *)
Fixpoint backward (diff mask clamped : mat) : list row :=
  match diff, mask, clamped with
  | d :: ds, m :: ms, c :: cs =>
      let rest := backward ds ms cs in
      row_add d (row_mul_nstep (row_mul m c) (acc_of rest)) :: rest
  | _, _, _ => []
  end.

(** The value targets [v_s] with the loop replaced by its recursion. *)
Definition v_s_of (clamped mask rewards values : mat) (est : row) : mat :=
  mat_add values
    (backward (diff_value_per_step clamped mask rewards values est) mask clamped).

(** The advantage computed from the value targets. *)
Definition advantage_of (v_s mask rewards values : mat) (est : row) : mat :=
  mat_sub (mat_add rewards (mat_mul mask (shift_cat v_s est))) values.

(** Standard n-step bootstrapped returns, as the specification words them:
    [G[t] = reward[t] + discount_mask[t] * G[t+1]], with the bootstrap
    value after the last step. *)
Fixpoint nstep_td_returns (rewards mask : mat) (bootstrap : row) : mat :=
  match rewards, mask with
  | r :: rs, m :: ms =>
      let rest := nstep_td_returns rs ms bootstrap in
      row_add r (row_mul m (hd bootstrap rest)) :: rest
  | _, _ => []
  end.

(** A relation between the entries of two tensors of the same shape. *)
Definition tensor_Forall2 (P : R → R → Prop) (a b : tensor) : Prop :=
  match a, b with
  | T2 x, T2 y => Forall2 (Forall2 P) x y
  | T3 x, T3 y => Forall2 (Forall2 (Forall2 P)) x y
  | _, _ => False
  end.

(** A property of every entry of a tensor. *)
Definition tensor_Forall (P : R → Prop) (t : tensor) : Prop :=
  match t with
  | T2 m => Forall (Forall P) m
  | T3 c => Forall (Forall (Forall P)) c
  end.

(** A property of every entry of the slice at the last time step. *)
Definition final_step_Forall (P : R → Prop) (t : tensor) : Prop :=
  match t with
  | T2 m => match last m with Some r => Forall P r | None => True end
  | T3 c => match last c with Some r => Forall (Forall P) r | None => True end
  end.

End ImpalaLearner.

(** ** [adept/expcaches/rollout.py] *)

Module ACRollout.

Section rollout.
(** The values stored in the cache (observations, reward vectors, terminal
    vectors, actor outputs) are opaque to it. *)
Context {V : Type}.

(** The object is a [dict] from field name to list, with two attributes. *)
Record t : Type := mk {
  fields : gmap string (list V);
  nb_rollout : Z;
  reward_normalizer : V → V
}.

Definition set_fields (f : gmap string (list V)) (self : t) : t :=
  mk f (nb_rollout self) (reward_normalizer self).

(** [assert type(nb_rollout == int)] holds for every argument: the type of
    a boolean is a class, and a class is true. *)
Definition __init__ (nb_rollout : Z) (reward_normalizer : V → V) : t :=
  mk (<["entropies" := []]> (<["log_probs" := []]> (<["values" := []]>
       (<["terminals" := []]> (<["rewards" := []]> (<["states" := []]> ∅))))))
     nb_rollout reward_normalizer.

(** [self[k].append(v)]; the subscript raises [KeyError] on a missing key. *)
Definition append (k : string) (v : V) (self : t) : t * result unit :=
  match fields self !! k with
  | Some l => (set_fields (<[k := l ++ [v]]> (fields self)) self, Ok ())
  | None => (self, Raise (KeyError k))
  end.

(** Sequencing of two mutations: an exception stops the method and leaves
    the mutations made so far. *)
Definition andthen (f g : t → t * result unit) (self : t) : t * result unit :=
  match f self with
  | (self', Ok _) => g self'
  | (self', Raise e) => (self', Raise e)
  end.

(** [experience.items()] in iteration order. *)
Fixpoint write_forward (actions : V) (experience : list (string * V))
    (self : t) : t * result unit :=
  match experience with
  | [] => (self, Ok ())
  | (k, v) :: rest =>
      match fields self !! k with
      | None => (self, Raise (KeyError ("Incompatible rollout key: " +:+ k)))
      | Some _ => andthen (append k v) (write_forward actions rest) self
      end
  end.

Definition write_env (obs rewards terminals infos : V) (self : t)
  : t * result unit :=
  let rewards := reward_normalizer self rewards in
  andthen (append "states" obs)
    (andthen (append "rewards" rewards) (append "terminals" terminals)) self.

(** The named tuple built from the dictionary: the snapshot holds the
    lists themselves. *)
Definition read (self : t) : gmap string (list V) := fields self.

Definition clear (self : t) : t :=
  set_fields ((λ _, []) <$> fields self) self.

Definition __len__ (self : t) : result Z :=
  match fields self !! "rewards" with
  | Some l => Ok (Z.of_nat (length l))
  | None => Raise (KeyError "rewards")
  end.

Definition is_ready (self : t) : result bool :=
  match __len__ self with
  | Ok n => Ok (bool_decide (n = nb_rollout self))
  | Raise e => Raise e
  end.

(** Consecutive [write_env] calls, one per entry of [steps]. *)
Fixpoint write_envs (steps : list (V * V * V * V)) (self : t) : t * result unit :=
  match steps with
  | [] => (self, Ok ())
  | (obs, rewards, terminals, infos) :: rest =>
      andthen (write_env obs rewards terminals infos) (write_envs rest) self
  end.

(** The states an object goes through: construction, then any calls.  A
    call that raises leaves its object behind, too. *)
Inductive reachable : t → Prop :=
| reach_init n f : reachable (__init__ n f)
| reach_write_env self obs rewards terminals infos :
    reachable self →
    reachable (fst (write_env obs rewards terminals infos self))
| reach_write_forward self actions experience :
    reachable self →
    reachable (fst (write_forward actions experience self))
| reach_clear self : reachable self → reachable (clear self).

End rollout.

Arguments t V : clear implicits.

End ACRollout.

(** ** [adept/expcaches/replay.py] *)

Module ExperienceReplay.

Local Open Scope Z_scope.

Section replay.
(** One cell of an array: the entries of one environment at one index. *)
Context {C : Type}.
(** What [np.empty] leaves in a cell. *)
Variable uninit : C.
(** [1 - x] on a cell of terminal flags. *)
Variable one_minus : C → C.
(** The raw output of numpy's global generator, draw by draw. *)
Variable raw : nat → Z.
(** The check [collections.namedtuple] makes on its field names. *)
Variable namedtuple_accepts : list string → bool.
(** The text Python prints for the shape of a value, and for the shape and
    dtype of an array. *)
Variable shape_repr : list C → string.
Variable array_repr : list (list C) → string.

(** An array of shape [rows, nb_env, ...]. *)
Abbreviation array := (list (list C)).

(** A field of a sampled batch: windows of shape [batch, seq, ...] or
    single entries of shape [batch, ...]. *)
Inductive field : Type :=
| Windows (w : list (list C))
| Singles (s : list C).

Abbreviation rollout := (gmap string field).

(** The attributes of the object, with the two pieces of process state its
    methods touch: the position in numpy's generator and standard output. *)
Record t : Type := mk {
  arrays : gmap string array;
  nb_env : Z;
  max_len : Z;
  batch_size : Z;
  rollout_len : Z;
  min_length : Z;
  _cached_rollout : list rollout;
  max_cache : Z;
  _current_index : Z;
  _num_inserted : Z;
  np_random : nat;
  stdout : list string
}.

Definition set_arrays (a : gmap string array) (s : t) : t :=
  mk a (nb_env s) (max_len s) (batch_size s) (rollout_len s) (min_length s)
     (_cached_rollout s) (max_cache s) (_current_index s) (_num_inserted s)
     (np_random s) (stdout s).
Definition set_cached (c : list rollout) (s : t) : t :=
  mk (arrays s) (nb_env s) (max_len s) (batch_size s) (rollout_len s)
     (min_length s) c (max_cache s) (_current_index s) (_num_inserted s)
     (np_random s) (stdout s).
Definition set_cursor (i n : Z) (s : t) : t :=
  mk (arrays s) (nb_env s) (max_len s) (batch_size s) (rollout_len s)
     (min_length s) (_cached_rollout s) (max_cache s) i n
     (np_random s) (stdout s).
Definition set_np_random (p : nat) (s : t) : t :=
  mk (arrays s) (nb_env s) (max_len s) (batch_size s) (rollout_len s)
     (min_length s) (_cached_rollout s) (max_cache s) (_current_index s)
     (_num_inserted s) p (stdout s).
Definition set_stdout (o : list string) (s : t) : t :=
  mk (arrays s) (nb_env s) (max_len s) (batch_size s) (rollout_len s)
     (min_length s) (_cached_rollout s) (max_cache s) (_current_index s)
     (_num_inserted s) (np_random s) o.

(** A method is a function of the state that returns the state it leaves
    and a value or an exception. *)
Definition M (A : Type) : Type := t → t * result A.

#[local] Instance M_ret : MRet M := λ A a self, (self, Ok a).
#[local] Instance M_bind : MBind M := λ A B k m self,
  match m self with
  | (self', Ok a) => k a self'
  | (self', Raise e) => (self', Raise e)
  end.

Definition get : M t := λ self, (self, Ok self).
Definition modify (f : t → t) : M unit := λ self, (f self, Ok ()).
Definition raise {A : Type} (e : exn) : M A := λ self, (self, Raise e).
Definition lift {A : Type} (r : result A) : M A := λ self, (self, r).
Definition print (line : string) : M unit :=
  modify (λ self, set_stdout (stdout self ++ [line]) self).

Fixpoint for_each {A : Type} (body : A → M unit) (l : list A) : M unit :=
  match l with
  | [] => mret ()
  | a :: rest => body a ;; for_each body rest
  end.

Fixpoint traverse {A B : Type} (f : A → result B) (l : list A) : result (list B) :=
  match l with
  | [] => Ok []
  | a :: rest =>
      match f a with
      | Ok b => match traverse f rest with
                | Ok bs => Ok (b :: bs)
                | Raise e => Raise e
                end
      | Raise e => Raise e
      end
  end.


(** ** numpy *)

(** [np.empty((rows, cols) + ...)].  A negative dimension is refused.
    numpy also refuses sizes beyond what it can address or allocate
    ([ValueError], [MemoryError]); the model has no such limit, so its
    arrays are those of sizes numpy can make. *)
Definition np_empty (rows cols : Z) : result array :=
  if decide (rows < 0 ∨ cols < 0) then Raise ValueError
  else Ok (replicate (Z.to_nat rows) (replicate (Z.to_nat cols) uninit)).

(** An index into a sequence of length [n]: negative indices count from the
    end. *)
Definition index (n : nat) (i : Z) : result nat :=
  if decide (0 ≤ i < Z.of_nat n) then Ok (Z.to_nat i)
  else if decide (- Z.of_nat n ≤ i < 0) then Ok (Z.to_nat (i + Z.of_nat n))
  else Raise IndexError.

(** [xs[i]]. *)
Definition getitem {A : Type} (xs : list A) (i : Z) : result A :=
  match index (length xs) i with
  | Ok n => match xs !! n with Some x => Ok x | None => Raise IndexError end
  | Raise e => Raise e
  end.

(** The row of [width] entries numpy assigns from the value [v]: [v]
    itself when it has [width] entries, its one entry repeated when it has
    one, and [ValueError] (could not broadcast) otherwise.  The entries of
    [v] are taken to have the shape and dtype of the entries of the
    array. *)
Definition broadcast_to (width : nat) (v : list C) : result (list C) :=
  if decide (length v = width) then Ok v
  else match v with
       | [x] => Ok (replicate width x)
       | _ => Raise ValueError
       end.

(** [xs[i] = v] on an array: the index is resolved first, then [v] is
    broadcast to the row. *)
Definition setitem (xs : array) (i : Z) (v : list C) : result array :=
  match index (length xs) i with
  | Ok n =>
      match xs !! n with
      | Some row =>
          match broadcast_to (length row) v with
          | Ok row' => Ok (<[n := row']> xs)
          | Raise e => Raise e
          end
      | None => Raise IndexError
      end
  | Raise e => Raise e
  end.

(** [a // b] and [a % b] on integers. *)
Definition floordiv (a b : Z) : result Z :=
  if decide (b = 0) then Raise ZeroDivisionError else Ok (a `div` b).
Definition pymod (a b : Z) : result Z :=
  if decide (b = 0) then Raise ZeroDivisionError else Ok (a `mod` b).

(** [np.arange(lo, hi)]. *)
Definition arange (lo hi : Z) : list Z :=
  map (λ i, lo + Z.of_nat i) (seq 0 (Z.to_nat (hi - lo))).

(** [np.random.randint(low, high, size=size)]: an empty array when the
    size is 0, before the bounds are looked at; [ValueError] when
    [low >= high] or the size is negative; else [size] draws, each reduced
    into [[low, high)]. *)
Definition randint (low high size : Z) : M (list Z) := λ self,
  if decide (size = 0) then (self, Ok [])
  else if decide (high ≤ low) then (self, Raise ValueError)
  else if decide (size < 0) then (self, Raise ValueError)
  else
    let n := Z.to_nat size in
    (set_np_random (np_random self + n)%nat self,
     Ok (map (λ i, low + raw (np_random self + i)%nat `mod` (high - low))
             (seq 0 n))).

(** ** The methods *)

Definition __len__ (self : t) : Z := Z.min (_num_inserted self) (max_len self).

Definition is_ready (self : t) : bool :=
  bool_decide (min_length self < _num_inserted self).

(** The constructor; [reward_normalizer] and [keys] are stored or dropped
    and never used.  The thread it starts runs [_cache_loop_step] below. *)
Definition __init__ (nb_env batch_size rollout_len max_len : Z) : result t :=
  match np_empty max_len nb_env with
  | Raise e => Raise e
  | Ok rewards =>
      match np_empty max_len nb_env with
      | Raise e => Raise e
      | Ok terminals =>
          match floordiv max_len nb_env with
          | Raise e => Raise e
          | Ok max_len' =>
              Ok (mk (<["terminals" := terminals]> (<["rewards" := rewards]> ∅))
                     nb_env max_len' batch_size rollout_len 100 [] 5 0 0
                     0%nat [])
          end
      end
  end.

(** [if k not in self: print(...); self[k] = np.empty(...)]. *)
Definition ensure_array (k line : string) : M unit :=
  self ← get;
  match arrays self !! k with
  | Some _ => mret ()
  | None =>
      print line;;
      a ← lift (np_empty (max_len self) (nb_env self));
      modify (λ self, set_arrays (<[k := a]> (arrays self)) self)
  end.

(** [self[k][self._current_index] = v]. *)
Definition store (k : string) (v : list C) : M unit :=
  self ← get;
  match arrays self !! k with
  | None => raise (KeyError k)
  | Some a =>
      a' ← lift (setitem a (_current_index self) v);
      modify (λ self, set_arrays (<[k := a']> (arrays self)) self)
  end.

Definition write_forward (kwargs : list (string * list C)) : M unit :=
  for_each (λ kv,
    ensure_array kv.1 (kv.1 +:+ " " +:+ shape_repr kv.2);;
    store kv.1 kv.2) kwargs.

Definition write_env (obs : list (string * list C))
    (rewards terminals : list C) (infos : list C) : M unit :=
  for_each (λ kv,
    let self_key := "obs-" +:+ kv.1 in
    ensure_array self_key (kv.1 +:+ " " +:+ shape_repr kv.2);;
    store self_key kv.2) obs;;
  store "rewards" rewards;;
  store "terminals" (map one_minus terminals);;
  self ← get;
  i ← lift (pymod (_current_index self + 1) (max_len self));
  modify (set_cursor i (_num_inserted self + 1)).

Definition clear : M unit := mret ().

(** Lines 102 to 106 of [_read]: the start, end and flat indexes. *)
Definition sample_indexes : M (list Z * list Z * list Z) :=
  self ← get;
  let max_ind := __len__ self - 2 - rollout_len self in
  start_indexes ← randint 0 max_ind (batch_size self);
  let end_indexes := map (λ s, s + rollout_len self) start_indexes in
  let flat_indexes := concat (zip_with arange start_indexes end_indexes) in
  mret (start_indexes, end_indexes, flat_indexes).

(** [take], on an array: the rows at [flat_indexes], reshaped to
    [batch, seq, nb_env, ...], and for each sample the column of its
    worker.  The branches for dictionaries and tensors are not taken for
    the arrays the cache holds. *)
Definition take (values : array) (flat_indexes worker_inds : list Z)
  : M (list (list C)) :=
  print ("values " +:+ array_repr values);;
  self ← get;
  sliced_v ← lift (traverse (getitem values) flat_indexes);
  match sliced_v with
  | [] => raise IndexError
  | _ =>
      let seq_len := Z.to_nat (rollout_len self) in
      lift (traverse (λ bw : nat * Z,
              traverse (λ row, getitem row bw.2)
                       (take seq_len (drop (bw.1 * seq_len) sliced_v)))
              (zip (seq 0 (Z.to_nat (batch_size self))) worker_inds))
  end.

Definition take_single (values : array) (inds worker_inds : list Z)
  : M (list C) :=
  self ← get;
  sliced_v ← lift (traverse (getitem values) inds);
  match sliced_v with
  | [] => raise IndexError
  | _ =>
      lift (traverse (λ bw : nat * Z,
              match sliced_v !! bw.1 with
              | Some row => getitem row bw.2
              | None => Raise IndexError
              end)
              (zip (seq 0 (Z.to_nat (batch_size self))) worker_inds))
  end.

(** The dictionary comprehension over [self.items()]. *)
Fixpoint take_items (items : list (string * array))
    (flat_indexes env_ind : list Z) : M rollout :=
  match items with
  | [] => mret ∅
  | (k, v) :: rest =>
      w ← take v flat_indexes env_ind;
      r ← take_items rest flat_indexes env_ind;
      mret (<[k := Windows w]> r)
  end.

Definition lookup_array (k : string) : M array :=
  self ← get;
  match arrays self !! k with
  | Some a => mret a
  | None => raise (KeyError k)
  end.

Definition _read : M rollout :=
  ixs ← sample_indexes;
  let '(start_indexes, end_indexes, flat_indexes) := ixs in
  self ← get;
  env_ind ← randint 0 (nb_env self) (batch_size self);
  rollout ← take_items (map_to_list (arrays self)) flat_indexes env_ind;
  obs ← lookup_array "obs";
  last_obs ← take_single obs (map (λ e, e + 1) end_indexes) env_ind;
  let rollout := <["last_obs" := Singles last_obs]> rollout in
  internals ← lookup_array "internals";
  last_internals ← take_single internals (map (λ e, e + 1) end_indexes) env_ind;
  let rollout := <["last_internals" := Singles last_internals]> rollout in
  if namedtuple_accepts (map fst (map_to_list rollout)) then mret rollout
  else raise ValueError.

(** [self._cached_rollout.pop(0)]. *)
Definition pop_cached : M rollout :=
  self ← get;
  match _cached_rollout self with
  | [] => raise IndexError
  | r :: rest => modify (set_cached rest);; mret r
  end.

Definition read : M rollout :=
  self ← get;
  if decide (1 < Z.of_nat (length (_cached_rollout self))) then pop_cached
  else print "Cache miss";; _read.

(** One turn of the second loop of [_cache_loop], which the background
    thread runs once the cache is ready.  Turns of the thread and calls of
    the methods are taken one at a time. *)
Definition _cache_loop_step : M unit :=
  self ← get;
  if decide (Z.of_nat (length (_cached_rollout self)) < max_cache self) then
    r ← _read;
    modify (λ self, set_cached (_cached_rollout self ++ [r]) self)
  else mret ().

(** Consecutive [write_env] calls, one per entry of [calls]. *)
Fixpoint write_envs
    (calls : list (list (string * list C) * list C * list C * list C))
  : M unit :=
  match calls with
  | [] => mret ()
  | (obs, rewards, terminals, infos) :: rest =>
      write_env obs rewards terminals infos;; write_envs rest
  end.

(** The counters of the buffer. *)
Definition counters (self : t) : Z * Z * Z * Z :=
  (max_len self, nb_env self, _current_index self, _num_inserted self).

(** What the constructor leaves and the writes keep when the capacity
    [max_len // nb_env] is positive: the cursor is inside the capacity, the
    two arrays of the constructor exist, no array is shorter than the
    capacity and every row has one entry per environment. *)
Definition capacity_ok (self : t) : Prop :=
  0 < max_len self ∧ 0 ≤ nb_env self ∧
  0 ≤ _current_index self < max_len self ∧
  is_Some (arrays self !! "rewards") ∧ is_Some (arrays self !! "terminals") ∧
  map_Forall (λ _ a, max_len self ≤ Z.of_nat (length a)) (arrays self) ∧
  map_Forall (λ _ a, Forall (λ row, length row = Z.to_nat (nb_env self)) a)
             (arrays self).

(** A value with one entry per environment of the buffer. *)
Definition per_env (self : t) (v : list C) : Prop :=
  length v = Z.to_nat (nb_env self).

(** The arguments of a [write_env] call hold one entry per environment:
    each observation, the rewards and the terminals. *)
Definition env_call_ok (self : t)
    (call : list (string * list C) * list C * list C * list C) : Prop :=
  Forall (λ kv, per_env self kv.2) call.1.1.1 ∧
  per_env self call.1.1.2 ∧ per_env self call.1.2.

(** What a step that writes into the arrays of a buffer of [n] environments
    keeps: it raises nothing, the counters stay, and so does every
    array. *)
Definition keeps (n : Z) (m : M unit) : Prop :=
  ∀ self, capacity_ok self → nb_env self = n →
    ∃ self', m self = (self', Ok ()) ∧ capacity_ok self' ∧
      counters self' = counters self ∧
      (∀ k, is_Some (arrays self !! k) → is_Some (arrays self' !! k)).

End replay.

Arguments t C : clear implicits.
Arguments M C A : clear implicits.
Arguments field C : clear implicits.

End ExperienceReplay.

(** ** [adept/container/workerlearner.py] *)

Module Learner.

Local Open Scope Z_scope.

(** The entries of [args] the batch count depends on.  A path that is not
    given is the empty string, which Python takes for false. *)
Record Args : Type := mk_args {
  args_nb_env : Z;
  args_nb_learn_batch : Z;
  args_load_network : string;
  args_load_optim : string
}.

Inductive level : Type := INFO | WARNING.

(** A process group is known by the ranks of its members. *)
Abbreviation group := (list Z).

Record t : Type := mk {
  batch_size : Z;
  nb_learn_batch : Z;
  nb_env : Z;
  nb_worker : Z;
  worker_exps : nat;
  groups : gmap Z group;
  rank : Z;
  logger : list (level * string)
}.

(** The two loops that create one group per pair of a learner and a worker
    and keep, by worker rank, the groups of this learner. *)
Definition new_groups (rank : Z) (learner_ranks worker_ranks : list Z)
  : gmap Z group :=
  fold_left (λ groups learner_rank,
    fold_left (λ groups worker_rank,
      let g := [learner_rank; worker_rank] in
      if decide (learner_rank = rank) then <[worker_rank := g]> groups
      else groups) worker_ranks groups) learner_ranks ∅.

Definition log_if (cond : bool) (l : level) (msg : string)
    (logger : list (level * string)) : list (level * string) :=
  if cond then logger ++ [(l, msg)] else logger.

Definition reduce_message (nb_worker : Z) : string :=
  "More learn batches than workers, reducing learn batches to "
  +:+ pretty nb_worker.

(** [Learner.__init__], for the attributes above.  The network, the
    optimizer, the environment and the caches are built by collaborators
    and do not enter the batch count; [worker_exps] is the length of the
    list of worker caches. *)
Definition __init__ (args : Args) (logger : list (level * string))
    (rank : Z) (learner_ranks worker_ranks : list Z) : t :=
  let groups := new_groups rank learner_ranks worker_ranks in
  let worker_exps := Z.to_nat (args_nb_learn_batch args) in
  let batch_size := args_nb_env args * args_nb_learn_batch args in
  let nb_learn_batch := args_nb_learn_batch args in
  let nb_worker := Z.of_nat (size groups) in
  let logger :=
    log_if (bool_decide (args_load_network args ≠ "")) INFO
      ("Reloaded network from " +:+ args_load_network args) logger in
  let logger :=
    log_if (bool_decide (args_load_optim args ≠ "")) INFO
      ("Reloaded optimizer from " +:+ args_load_optim args) logger in
  if decide (nb_worker < nb_learn_batch) then
    mk batch_size nb_worker (args_nb_env args) nb_worker worker_exps groups
       rank (logger ++ [(WARNING, reduce_message nb_worker)])
  else
    mk batch_size nb_learn_batch (args_nb_env args) nb_worker worker_exps
       groups rank logger.

(** The warnings among the records of a logger. *)
Definition warnings (logger : list (level * string)) : list string :=
  omap (λ r, match r.1 with WARNING => Some r.2 | INFO => None end) logger.

End Learner.

(** ** A run of the replay cache

    Two environments, batches of three windows of two steps, room for ten
    steps.  Each step writes an observation and an internal state through
    [write_forward] and then the step itself through [write_env]; after
    101 steps the cache is ready and the background loop takes one turn. *)

Module ReplayRun.

Import ExperienceReplay.
Local Open Scope Z_scope.

Definition raw (i : nat) : Z := 2 ^ Z.of_nat i.
Definition accepts (names : list string) : bool := true.
Definition no_repr {A : Type} (x : A) : string := "".

(** What [__init__ 2 3 2 20] returns. *)
Definition fresh : t Z :=
  mk (<["terminals" := replicate 20 [0; 0]]>
        (<["rewards" := replicate 20 [0; 0]]> ∅))
     2 10 3 2 100 [] 5 0 0 0%nat [].

Definition step (s : t Z) (i : nat) : t Z :=
  let s1 :=
    (write_forward 0 no_repr
       [("obs", [Z.of_nat i; 10 + Z.of_nat i]); ("internals", [0; 0])] s).1 in
  (write_env 0 (λ x, 1 - x) no_repr [] [1; 0] [0; 0] [] s1).1.

Definition filled : t Z := fold_left step (seq 0 101) fresh.

(** The state after one turn of the background loop: one batch is queued. *)
Definition queued : t Z := (_cache_loop_step raw accepts no_repr filled).1.

(** Buffers written through [write_env] alone, 101 times and 3 times. *)
Definition env_call : list (string * list Z) * list Z * list Z * list Z :=
  ([("x", [5; 6])], [1; 0], [0; 1], []).
Definition env_filled : t Z :=
  (write_envs 0 (λ x, 1 - x) no_repr (replicate 101 env_call) fresh).1.
Definition env_short : t Z :=
  (write_envs 0 (λ x, 1 - x) no_repr (replicate 3 env_call) fresh).1.

End ReplayRun.

(** ** Invariants of the rollout cache *)

Module ACRolloutInv.

Import ACRollout.

Section inv.
Context {V : Type}.

(** The three fields [write_env] appends to hold the same number of
    entries. *)
Definition env_aligned (self : t V) : Prop :=
  ∃ ls lr lt,
    fields self !! "states" = Some ls ∧ fields self !! "rewards" = Some lr ∧
    fields self !! "terminals" = Some lt ∧
    length ls = length lr ∧ length lr = length lt.

(** The states of a cache whose [write_forward] calls leave the fields of
    [write_env] alone, as the actors of the repository do. *)
Inductive collecting : t V → Prop :=
| collect_init n f : collecting (__init__ n f)
| collect_write_env self obs rewards terminals infos :
    collecting self →
    collecting (write_env obs rewards terminals infos self).1
| collect_write_forward self actions experience :
    collecting self →
    Forall (λ kv : string * V,
              kv.1 ≠ "states" ∧ kv.1 ≠ "rewards" ∧ kv.1 ≠ "terminals")
           experience →
    collecting (write_forward actions experience self).1
| collect_clear self : collecting self → collecting (clear self).

End inv.

End ACRolloutInv.

(** ** Frames and invariants of the replay cache *)

Module ReplayInv.

Import ExperienceReplay.
Local Open Scope Z_scope.

Section inv.
Context {C : Type}.
Variable uninit : C.
Variable one_minus : C → C.
Variable raw : nat → Z.
Variable namedtuple_accepts : list string → bool.
Variable shape_repr : list C → string.
Variable array_repr : list (list C) → string.

(** What the constructor fixes. *)
Definition config (self : t C) : Z * Z * Z * Z * Z * Z :=
  (nb_env self, max_len self, batch_size self, rollout_len self,
   min_length self, max_cache self).

(** What a step leaves alone when it only touches the arrays and standard
    output. *)
Definition array_frame (s s' : t C) : Prop :=
  config s' = config s ∧ counters s' = counters s ∧
  _cached_rollout s' = _cached_rollout s ∧ np_random s' = np_random s.

(** The array under a key is left alone. *)
Definition key_frame (k : string) (s s' : t C) : Prop :=
  arrays s' !! k = arrays s !! k.

(** What a step leaves alone when it only draws numbers and prints. *)
Definition sample_frame (s s' : t C) : Prop :=
  config s' = config s ∧ counters s' = counters s ∧
  _cached_rollout s' = _cached_rollout s ∧ arrays s' = arrays s.

(** What every step of [write_env] keeps, with the counters left out. *)
Definition fixed_frame (s s' : t C) : Prop :=
  config s' = config s ∧ _cached_rollout s' = _cached_rollout s ∧
  np_random s' = np_random s.

(** No array is removed. *)
Definition keys_kept (s s' : t C) : Prop :=
  ∀ k, is_Some (arrays s !! k) → is_Some (arrays s' !! k).

(** The step raises from the state [s]. *)
Definition raises {A : Type} (m : M C A) (s : t C) : Prop :=
  ∃ e, (m s).2 = Raise e.

(** A relation between the state before a step and the state after it,
    whether the step returns or raises. *)
Definition always {A : Type} (R : t C → t C → Prop) (m : M C A) : Prop :=
  ∀ s, R s (m s).1.

(** The states of a cache: the constructor, then calls of the methods and
    turns of the background loop, one at a time. *)
Inductive reachable : t C → Prop :=
| reach_init nb batch seq_len raw_max_len s :
    __init__ uninit nb batch seq_len raw_max_len = Ok s → reachable s
| reach_write_env s obs rewards terminals infos :
    reachable s →
    reachable (write_env uninit one_minus shape_repr obs rewards terminals infos s).1
| reach_write_forward s kwargs :
    reachable s → reachable (write_forward uninit shape_repr kwargs s).1
| reach_clear s : reachable s → reachable (clear s).1
| reach_read s :
    reachable s → reachable (read raw namedtuple_accepts array_repr s).1
| reach_cache_loop s :
    reachable s →
    reachable (_cache_loop_step raw namedtuple_accepts array_repr s).1.

(** The states of a cache that is only written through [write_env]. *)
Inductive env_fed : t C → Prop :=
| fed_init nb batch seq_len raw_max_len s :
    __init__ uninit nb batch seq_len raw_max_len = Ok s → env_fed s
| fed_write_env s obs rewards terminals infos :
    env_fed s →
    env_fed (write_env uninit one_minus shape_repr obs rewards terminals infos s).1.

End inv.

End ReplayInv.

(** ** [adept/container/workerlearner.py]: devices and the groups of a worker *)

Module WorkerLearner.

Local Open Scope Z_scope.

(** [gpu_id(local_rank, gpu_ids)]; a subscript out of range raises
    [IndexError], and [%] takes the sign of the divisor. *)
Definition gpu_id {A : Type} (local_rank : Z) (gpu_ids : list A) : result A :=
  let device_count := Z.of_nat (length gpu_ids) in
  if decide (local_rank = 0) then ExperienceReplay.getitem gpu_ids 0
  else if decide (device_count = 1) then ExperienceReplay.getitem gpu_ids 0
  else
    let gpu_idx := local_rank `mod` (device_count - 1) + 1 in
    ExperienceReplay.getitem gpu_ids gpu_idx.

End WorkerLearner.

Module Worker.

Local Open Scope Z_scope.

(** The loops of [Worker.__init__] that create the groups: the same pairs
    in the same order as in the learner, kept by learner rank when the
    worker of the pair is this process. *)
Definition new_groups (rank : Z) (learner_ranks worker_ranks : list Z)
  : gmap Z Learner.group :=
  fold_left (λ groups learner_rank,
    fold_left (λ groups worker_rank,
      let g := [learner_rank; worker_rank] in
      if decide (worker_rank = rank) then <[learner_rank := g]> groups
      else groups) worker_ranks groups) learner_ranks ∅.

End Worker.

(** * Properties *)

(** ** V-trace returns *)

Section vtrace.
Import ImpalaLearner.
Local Open Scope R_scope.

(** *** The loop computes the recursion *)

Lemma backward_drop (diff mask cl : mat) (k : nat) :
  length mask = length diff → length cl = length diff →
  (k < length diff)%nat →
  backward (drop k diff) (drop k mask) (drop k cl) =
  row_add (nth k diff [])
    (row_mul_nstep (row_mul (nth k mask []) (nth k cl []))
       (acc_of (backward (drop (S k) diff) (drop (S k) mask) (drop (S k) cl))))
  :: backward (drop (S k) diff) (drop (S k) mask) (drop (S k) cl).
Proof.
  intros Hm Hc Hk.
  destruct (lookup_lt_is_Some_2 diff k Hk) as [d Hd].
  destruct (lookup_lt_is_Some_2 mask k ltac:(lia)) as [m Hmk].
  destruct (lookup_lt_is_Some_2 cl k ltac:(lia)) as [c Hck].
  rewrite (drop_S _ _ _ Hd), (drop_S _ _ _ Hmk), (drop_S _ _ _ Hck).
  rewrite !nth_lookup, Hd, Hmk, Hck. reflexivity.
Qed.

Lemma vtrace_loop_from (diff mask cl : mat) (j k : nat) :
  length mask = length diff → length cl = length diff →
  (k + j = length diff)%nat →
  fold_left (vtrace_step diff mask cl) (rev (seq k j)) (Scalar 0, []) =
  (acc_of (backward (drop k diff) (drop k mask) (drop k cl)),
   rev (backward (drop k diff) (drop k mask) (drop k cl))).
Proof.
  intros Hm Hc. revert k. induction j as [|j IH]; intros k Hk.
  - simpl. rewrite !drop_ge by lia. reflexivity.
  - simpl. rewrite fold_left_app, IH by lia. simpl.
    rewrite (backward_drop diff mask cl k) by lia.
    unfold vtrace_step. simpl. reflexivity.
Qed.

Lemma vtrace_loop_backward (diff mask cl : mat) :
  length mask = length diff → length cl = length diff →
  rev (snd (vtrace_loop diff mask cl)) = backward diff mask cl.
Proof.
  intros Hm Hc. unfold vtrace_loop.
  rewrite (vtrace_loop_from diff mask cl (length diff) 0) by (lia || assumption).
  simpl. rewrite !drop_0. apply rev_involutive.
Qed.

(** *** Shapes *)

Section shapes.
Context (B : nat).

Lemma mat_shape_nil (m : mat) : mat_shape 0 B m → m = [].
Proof. intros [Hl _]. by destruct m. Qed.

Lemma mat_shape_cons_inv (T : nat) (m : mat) :
  mat_shape (S T) B m →
  ∃ r m', m = r :: m' ∧ length r = B ∧ mat_shape T B m'.
Proof.
  intros [Hl Hf]. destruct m as [|r m']; [done|].
  apply Forall_cons in Hf as [Hr Hf]. exists r, m'.
  repeat split; auto.
Qed.

Lemma mat_shape_cons (T : nat) (r : row) (m : mat) :
  length r = B → mat_shape T B m → mat_shape (S T) B (r :: m).
Proof.
  intros Hr [Hl Hf]. split; [simpl; lia|]. by constructor.
Qed.

Lemma length_hd_shape (T : nat) (m : mat) (est : row) :
  mat_shape T B m → length est = B → length (hd est m) = B.
Proof.
  intros [_ Hf] He. destruct m as [|r m]; [done|].
  by apply Forall_cons in Hf as [? _].
Qed.

Lemma length_row_op (f : R → R → R) (a b : row) :
  length a = B → length b = B → length (zip_with f a b) = B.
Proof. intros Ha Hb. rewrite length_zip_with. lia. Qed.

Lemma length_row_mul_nstep (r : row) (n : nstep) :
  length r = B → (∀ l, n = Row l → length l = B) →
  length (row_mul_nstep r n) = B.
Proof.
  intros Hr Hn. destruct n as [x|l]; simpl.
  - by rewrite length_map.
  - apply length_row_op; auto.
Qed.

Lemma mat_shape_op (f : R → R → R) (T : nat) (a b : mat) :
  mat_shape T B a → mat_shape T B b →
  mat_shape T B (zip_with (zip_with f) a b).
Proof.
  revert a b. induction T as [|T IH]; intros a b Ha Hb.
  - apply mat_shape_nil in Ha as ->. split; [done|constructor].
  - apply mat_shape_cons_inv in Ha as (ra & a' & -> & Hra & Ha).
    apply mat_shape_cons_inv in Hb as (rb & b' & -> & Hrb & Hb).
    simpl. apply mat_shape_cons; [by apply length_row_op | by apply IH].
Qed.

End shapes.

Ltac shape_inv :=
  repeat match goal with
  | H : mat_shape 0 _ ?m |- _ => apply mat_shape_nil in H; subst m
  | H : mat_shape (S _) _ ?m |- _ =>
      let r := fresh "r" in let m' := fresh "m" in
      let Hr := fresh "Hr" in
      apply mat_shape_cons_inv in H as (r & m' & -> & Hr & H)
  end.

(** Row algebra *)
Ltac row_induction B :=
  induction B as [|B IHB]; intros;
  repeat match goal with
  | H : length ?l = 0%nat |- _ => apply nil_length_inv in H; subst l
  | H : length ?l = S _ |- _ =>
      destruct l; [discriminate H|]; simpl in H; apply eq_add_S in H
  | H : Forall _ (_ :: _) |- _ => apply Forall_cons in H as [? H]
  end;
  subst; simpl; [reflexivity | f_equal; [lra | eauto]].

Lemma row_final_step (B : nat) : ∀ V c r m est : row,
  length V = B → length c = B → length r = B → length m = B → length est = B →
  row_add V
    (row_add (row_mul c (row_sub (row_add r (row_mul m est)) V))
             (row_mul_nstep (row_mul m c) (Scalar 0))) =
  row_add V (row_mul c (row_sub (row_add r (row_mul m est)) V)).
Proof. unfold row_add, row_mul, row_sub. row_induction B. Qed.

Lemma row_unit_weight (B : nat) : ∀ V c r m est : row,
  length V = B → length c = B → length r = B → length m = B → length est = B →
  Forall (λ w, w = 1) c →
  row_add V (row_mul c (row_sub (row_add r (row_mul m est)) V)) =
  row_add r (row_mul m est).
Proof. unfold row_add, row_mul, row_sub. row_induction B. Qed.

Lemma row_inner_step (B : nat) : ∀ V c r m V1 N1 : row,
  length V = B → length c = B → length r = B → length m = B →
  length V1 = B → length N1 = B →
  Forall (λ w, w = 1) c →
  row_add V
    (row_add (row_mul c (row_sub (row_add r (row_mul m V1)) V))
             (row_mul_nstep (row_mul m c) (Row N1))) =
  row_add r (row_mul m (row_add V1 N1)).
Proof. unfold row_add, row_mul, row_sub. row_induction B. Qed.

Lemma diff_value_per_step_cons (c : row) (cs : mat) (m : row) (ms : mat)
    (r : row) (rs : mat) (V : row) (Vs : mat) (est : row) :
  diff_value_per_step (c :: cs) (m :: ms) (r :: rs) (V :: Vs) est =
  row_mul c (row_sub (row_add r (row_mul m (hd est Vs))) V)
  :: diff_value_per_step cs ms rs Vs est.
Proof.
  unfold diff_value_per_step, shift_cat, mat_mul, mat_sub, mat_add.
  destruct Vs as [|V1 Vs]; simpl.
  - rewrite !zip_with_nil_r. reflexivity.
  - reflexivity.
Qed.

Section vtrace_structure.
Context (B : nat).

Lemma backward_shape (T : nat) : ∀ diff mask cl : mat,
  mat_shape T B diff → mat_shape T B mask → mat_shape T B cl →
  mat_shape T B (backward diff mask cl).
Proof.
  induction T as [|T IH]; intros diff mask cl Hd Hm Hc; shape_inv.
  - split; [done|constructor].
  - simpl. apply mat_shape_cons; [|by apply IH].
    apply length_row_op; [done|].
    apply length_row_mul_nstep; [by apply length_row_op|].
    intros l Hl. specialize (IH _ _ _ Hd Hm Hc) as [_ Hf].
    destruct (backward _ _ _); [discriminate|].
    injection Hl as <-. by apply Forall_cons in Hf as [? _].
Qed.

Lemma diff_value_per_step_shape (T : nat) : ∀ (cl mask rewards values : mat) (est : row),
  mat_shape T B cl → mat_shape T B mask → mat_shape T B rewards →
  mat_shape T B values → length est = B →
  mat_shape T B (diff_value_per_step cl mask rewards values est).
Proof.
  induction T as [|T IH]; intros cl mask rewards values est Hc Hm Hr Hv He;
    shape_inv.
  - split; [done|constructor].
  - rewrite diff_value_per_step_cons. apply mat_shape_cons; [|by apply IH].
    repeat apply length_row_op; try done.
    by eapply length_hd_shape.
Qed.

Lemma v_s_of_cons (c : row) (cs : mat) (m : row) (ms : mat)
    (r : row) (rs : mat) (V : row) (Vs : mat) (est : row) :
  v_s_of (c :: cs) (m :: ms) (r :: rs) (V :: Vs) est =
  row_add V
    (row_add (row_mul c (row_sub (row_add r (row_mul m (hd est Vs))) V))
       (row_mul_nstep (row_mul m c)
          (acc_of (backward (diff_value_per_step cs ms rs Vs est) ms cs))))
  :: v_s_of cs ms rs Vs est.
Proof. unfold v_s_of. rewrite diff_value_per_step_cons. reflexivity. Qed.

Lemma last_tail_shape (T : nat) (x c : row) (cs : mat) :
  mat_shape (S T) B cs → last (x :: cs) = Some c → last cs = Some c.
Proof.
  intros [Hl _] Hlast. destruct cs; [discriminate Hl|].
  by rewrite last_cons_cons in Hlast.
Qed.

Lemma v_s_of_last (T : nat) : ∀ (cl mask rewards values : mat) (est c m r V : row),
  mat_shape T B cl → mat_shape T B mask → mat_shape T B rewards →
  mat_shape T B values → length est = B →
  last cl = Some c → last mask = Some m → last rewards = Some r →
  last values = Some V →
  last (v_s_of cl mask rewards values est) =
  Some (row_add V (row_mul c (row_sub (row_add r (row_mul m est)) V))).
Proof.
  induction T as [|T IH]; intros cl mask rewards values est c m r V
    Hc Hm Hr Hv He Lc Lm Lr Lv.
  { apply mat_shape_nil in Hc as ->. discriminate Lc. }
  apply mat_shape_cons_inv in Hc as (c0 & cs & -> & Hc0 & Hc).
  apply mat_shape_cons_inv in Hm as (m0 & ms & -> & Hm0 & Hm).
  apply mat_shape_cons_inv in Hr as (r0 & rs & -> & Hr0 & Hr).
  apply mat_shape_cons_inv in Hv as (V0 & Vs & -> & HV0 & Hv).
  rewrite v_s_of_cons. destruct T as [|T].
  - apply mat_shape_nil in Hc as ->. apply mat_shape_nil in Hm as ->.
    apply mat_shape_nil in Hr as ->. apply mat_shape_nil in Hv as ->.
    simpl in Lc, Lm, Lr, Lv.
    injection Lc as <-; injection Lm as <-; injection Lr as <-;
      injection Lv as <-.
    simpl. f_equal. by apply (row_final_step B).
  - apply (last_tail_shape T) in Lc, Lm, Lr, Lv; try done.
    rewrite last_cons, (IH cs ms rs Vs est c m r V); done.
Qed.

Lemma v_s_of_on_policy (T : nat) : ∀ (cl mask rewards values : mat) (est : row),
  mat_shape T B cl → mat_shape T B mask → mat_shape T B rewards →
  mat_shape T B values → length est = B →
  Forall (Forall (λ w, w = 1)) cl →
  v_s_of cl mask rewards values est = nstep_td_returns rewards mask est.
Proof.
  induction T as [|T IH]; intros cl mask rewards values est
    Hc Hm Hr Hv He Hone.
  { apply mat_shape_nil in Hc as ->. apply mat_shape_nil in Hr as ->.
    apply mat_shape_nil in Hv as ->. reflexivity. }
  apply mat_shape_cons_inv in Hc as (c0 & cs & -> & Hc0 & Hc).
  apply mat_shape_cons_inv in Hm as (m0 & ms & -> & Hm0 & Hm).
  apply mat_shape_cons_inv in Hr as (r0 & rs & -> & Hr0 & Hr).
  apply mat_shape_cons_inv in Hv as (V0 & Vs & -> & HV0 & Hv).
  apply Forall_cons in Hone as [Hone0 Hone].
  rewrite v_s_of_cons. simpl.
  pose proof (IH cs ms rs Vs est Hc Hm Hr Hv He Hone) as IH'.
  pose proof (backward_shape T _ _ _
    (diff_value_per_step_shape T _ _ _ _ est Hc Hm Hr Hv He) Hm Hc) as Hb.
  rewrite <- IH'. f_equal. unfold v_s_of.
  destruct T as [|T].
  - apply mat_shape_nil in Hc as ->. apply mat_shape_nil in Hm as ->.
    apply mat_shape_nil in Hr as ->. apply mat_shape_nil in Hv as ->.
    simpl. rewrite (row_final_step B) by done. by apply (row_unit_weight B).
  - apply mat_shape_cons_inv in Hb as (N1 & Ns & -> & HN1 & _).
    apply mat_shape_cons_inv in Hv as (V1 & Vs' & -> & HV1 & _).
    simpl. by apply (row_inner_step B).
Qed.

End vtrace_structure.

(** *** Weights of one *)

Lemma clamp_max_one_of_nonneg (x : R) : 0 <= x → clamp_max 1 (exp x) = 1.
Proof.
  intros Hx. unfold clamp_max. apply Rmin_right.
  rewrite <- exp_0. destruct Hx as [Hx | <-]; [|lra].
  left. by apply exp_increasing.
Qed.

Lemma sum_ones (l : row) : Forall (λ w, w = 1) l → sum l = INR (length l).
Proof.
  induction 1 as [|w l -> _ IH]; [reflexivity|].
  change (1 + sum l = INR (S (length l))). rewrite IH, S_INR. lra.
Qed.

Lemma mean_ones (l : row) : l ≠ [] → Forall (λ w, w = 1) l → mean l = 1.
Proof.
  intros Hne Hall. unfold mean. rewrite sum_ones by done.
  apply Rinv_r. apply not_0_INR. by destruct l.
Qed.

Lemma Forall_clamp_exp (r : row) :
  Forall (λ x, 0 <= x) r →
  Forall (λ w, w = 1) (map (clamp_max 1) (map exp r)).
Proof.
  intros H. rewrite map_map. apply Forall_fmap.
  eapply Forall_impl; [exact H|]. intros x Hx. by apply clamp_max_one_of_nonneg.
Qed.

(** The slice of the value weights at one time step, from the slice of the
    log-probability differences with three dimensions. *)
Lemma value_weights_one_T3 (r : list row) :
  Forall (λ acts, acts ≠ []) r → Forall (Forall (λ x, 0 <= x)) r →
  Forall (λ w, w = 1) (map mean (map (map (clamp_max 1)) (map (map exp) r))).
Proof.
  intros Hne Hall. rewrite !map_map. apply Forall_fmap.
  apply Forall_forall. intros acts Hin.
  rewrite Forall_forall in Hne, Hall.
  apply mean_ones.
  - specialize (Hne _ Hin). by destruct acts.
  - apply Forall_clamp_exp. by apply Hall.
Qed.

Lemma clamped_importance_value_T2 (m : mat) (c : R) :
  clamped_importance_value (T2 m) c = map (map (clamp_max c)) (map (map exp) m).
Proof. reflexivity. Qed.

Lemma clamped_importance_value_T3 (cb : cube) (c : R) :
  clamped_importance_value (T3 cb) c =
  map (map mean) (map (map (map (clamp_max c))) (map (map (map exp)) cb)).
Proof. reflexivity. Qed.

Lemma clamped_importance_value_shape (T B : nat) (d : tensor) (c : R) :
  tensor_shape T B d → mat_shape T B (clamped_importance_value d c).
Proof.
  destruct d as [m|cb];
    [rewrite clamped_importance_value_T2 | rewrite clamped_importance_value_T3];
    simpl.
  - intros [Hl Hf]. split; [by rewrite !length_map|].
    rewrite !Forall_fmap. eapply Forall_impl; [exact Hf|].
    intros r Hr. simpl. by rewrite !length_map.
  - intros [Hl Hf]. split; [by rewrite !length_map|].
    rewrite !Forall_fmap. eapply Forall_impl; [exact Hf|].
    intros r [Hr _]. simpl. by rewrite !length_map.
Qed.

Lemma clamped_importance_value_ones (T B : nat) (d : tensor) :
  tensor_shape T B d → tensor_Forall (λ x, 0 <= x) d →
  Forall (Forall (λ w, w = 1)) (clamped_importance_value d 1).
Proof.
  destruct d as [m|cb];
    [rewrite clamped_importance_value_T2 | rewrite clamped_importance_value_T3];
    simpl.
  - intros _ Hall. rewrite !Forall_fmap.
    eapply Forall_impl; [exact Hall|]. intros r Hr. simpl.
    by apply Forall_clamp_exp.
  - intros [_ Hf] Hall. rewrite !Forall_fmap.
    apply Forall_forall. intros r Hin.
    rewrite Forall_forall in Hf, Hall. simpl.
    apply value_weights_one_T3; [by apply Hf | by apply Hall].
Qed.

Lemma clamped_importance_value_last_ones (T B : nat) (d : tensor) (c : row) :
  tensor_shape T B d → final_step_Forall (λ x, 0 <= x) d →
  last (clamped_importance_value d 1) = Some c →
  Forall (λ w, w = 1) c.
Proof.
  destruct d as [m|cb];
    [rewrite clamped_importance_value_T2 | rewrite clamped_importance_value_T3];
    simpl.
  - intros _ Hall Hlast. rewrite !fmap_last in Hlast.
    destruct (last m) as [r|]; [|discriminate]. simpl in Hlast.
    injection Hlast as <-. by apply Forall_clamp_exp.
  - intros [_ Hf] Hall Hlast. rewrite !fmap_last in Hlast.
    destruct (last cb) as [r|] eqn:Hr; [|discriminate]. simpl in Hlast.
    injection Hlast as <-. apply value_weights_one_T3; [|done].
    apply last_Some_elem_of in Hr. rewrite Forall_forall in Hf.
    by apply Hf.
Qed.

(** *** The function on well-shaped arguments *)

Lemma vtrace_returns_ok (T B : nat) (d : tensor) (mask rewards values : mat)
    (est : row) :
  well_shaped T B d mask rewards values est → (0 < T)%nat →
  let w := clamped_importance_value d 1 in
  let v_s := v_s_of w mask rewards values est in
  _vtrace_returns d mask rewards values est 1 1 =
  Ok (v_s,
      weight_advantage (clamped_importance_pg d 1)
                       (advantage_of v_s mask rewards values est),
      importance d).
Proof.
  intros [Hd Hm Hr Hv He] HT w v_s. unfold _vtrace_returns.
  rewrite bool_decide_eq_false_2 by (intros [?|?]; congruence).
  pose proof (clamped_importance_value_shape T B d 1 Hd) as Hw.
  fold w in Hw |- *.
  pose proof (diff_value_per_step_shape B T w mask rewards values est
                Hw Hm Hr Hv He) as Hdiff.
  assert (length mask = length (diff_value_per_step w mask rewards values est))
    as Hlm by (destruct Hdiff as [-> _]; by destruct Hm).
  assert (length w = length (diff_value_per_step w mask rewards values est))
    as Hlw by (destruct Hdiff as [-> _]; by destruct Hw).
  rewrite vtrace_loop_backward by done.
  pose proof (backward_shape B T _ _ _ Hdiff Hm Hw) as [Hlen _].
  destruct (backward _ mask w) as [|n ns] eqn:Hb; [simpl in Hlen; lia|].
  simpl. subst v_s. unfold v_s_of, advantage_of. rewrite Hb. reflexivity.
Qed.

Ltac solve_shape :=
  repeat first
    [ split | apply Forall_nil_2 | apply Forall_cons_2 | reflexivity
    | discriminate ].

(** *** The value target at the final step *)

(** C1, as stated, fails: with clamps 1.0 and a final importance ratio
    [exp (-1)], below the ceiling, the target of a one-step rollout with
    reward 1, value 0, mask 0 and bootstrap 0 is [exp (-1)], not
    [1 + 0 * 0]. *)
Lemma vtrace_final_step_counterexample :
  ∃ v_s adv imp,
    well_shaped 1 1 (T2 [[-1]]) [[0]] [[1]] [[0]] [0] ∧
    _vtrace_returns (T2 [[-1]]) [[0]] [[1]] [[0]] [0] 1 1 = Ok (v_s, adv, imp) ∧
    last v_s ≠ Some (row_add [1] (row_mul [0] [0])).
Proof.
  eexists _, _, _. split; [solve_shape|]. split.
  - apply (vtrace_returns_ok 1 1); [solve_shape | lia].
  - cbn. intros Heq. injection Heq as Heq.
    assert (exp (-1) < 1) as Hlt.
    { rewrite <- exp_0. apply exp_increasing. lra. }
    unfold clamp_max in Heq. rewrite Rmin_left in Heq by lra. lra.
Qed.

(** C1, amended: on well-shaped arguments with both clamps 1.0 the call
    returns, and the value target at the final step is
    [values + c * (reward + mask * bootstrap - values)] for the clamped
    weight [c] of that step; it is [reward + mask * bootstrap] when the
    log-probability differences of the final step are not negative, that
    is when the final importance ratios are at least 1. *)
Theorem vtrace_final_step_target (T B : nat) (d : tensor)
    (mask rewards values : mat) (est r m V c : row) :
  well_shaped T B d mask rewards values est →
  last rewards = Some r → last mask = Some m → last values = Some V →
  last (clamped_importance_value d 1) = Some c →
  ∃ v_s adv imp,
    _vtrace_returns d mask rewards values est 1 1 = Ok (v_s, adv, imp) ∧
    last v_s =
      Some (row_add V (row_mul c (row_sub (row_add r (row_mul m est)) V))) ∧
    (final_step_Forall (λ x, 0 <= x) d →
     last v_s = Some (row_add r (row_mul m est))).
Proof.
  intros Hws Lr Lm Lv Lc.
  assert (0 < T)%nat as HT.
  { destruct Hws as [_ _ [Hl _] _ _]. destruct rewards; [discriminate|].
    simpl in Hl. lia. }
  eexists _, _, _. split; [by apply (vtrace_returns_ok T B)|].
  destruct Hws as [Hd Hm Hr Hv He].
  pose proof (clamped_importance_value_shape T B d 1 Hd) as Hw.
  pose proof (v_s_of_last B T _ _ _ _ est c m r V Hw Hm Hr Hv He Lc Lm Lr Lv)
    as Hlast.
  split; [exact Hlast|]. intros Hfin. rewrite Hlast. f_equal.
  apply (row_unit_weight B).
  - destruct Hv as [_ Hv]. apply last_Some_elem_of in Lv.
    rewrite Forall_forall in Hv. by apply Hv.
  - destruct Hw as [_ Hw]. apply last_Some_elem_of in Lc.
    rewrite Forall_forall in Hw. by apply Hw.
  - destruct Hr as [_ Hr]. apply last_Some_elem_of in Lr.
    rewrite Forall_forall in Hr. by apply Hr.
  - destruct Hm as [_ Hm]. apply last_Some_elem_of in Lm.
    rewrite Forall_forall in Hm. by apply Hm.
  - exact He.
  - by apply (clamped_importance_value_last_ones T B d).
Qed.

Lemma vtrace_final_step_target_witness :
  ∃ v_s adv imp,
    _vtrace_returns (T2 [[1]; [-1]]) [[1]; [1]] [[3]; [4]] [[5]; [6]] [7] 1 1
      = Ok (v_s, adv, imp) ∧
    last v_s =
      Some (row_add [6]
              (row_mul [clamp_max 1 (exp (-1))]
                       (row_sub (row_add [4] (row_mul [1] [7])) [6]))) ∧
    (final_step_Forall (λ x, 0 <= x) (T2 [[1]; [-1]]) →
     last v_s = Some (row_add [4] (row_mul [1] [7]))).
Proof.
  apply (vtrace_final_step_target 2 1); solve_shape.
Defined.

(** *** On-policy rollouts *)

(** C2: when every log-probability difference is zero and both clamps are
    1.0, the call returns and its value targets are the n-step
    bootstrapped returns [v_s[t] = reward[t] + mask[t] * v_s[t+1]], with the
    bootstrap value after the last step. *)
Theorem vtrace_on_policy_td_returns (T B : nat) (d : tensor)
    (mask rewards values : mat) (est : row) :
  well_shaped T B d mask rewards values est → (0 < T)%nat →
  tensor_Forall (λ x, x = 0) d →
  ∃ adv imp,
    _vtrace_returns d mask rewards values est 1 1 =
    Ok (nstep_td_returns rewards mask est, adv, imp).
Proof.
  intros Hws HT Hzero. eexists _, _.
  rewrite (vtrace_returns_ok T B) by done. cbv zeta.
  destruct Hws as [Hd Hm Hr Hv He].
  assert (tensor_Forall (λ x, 0 <= x) d) as Hnn.
  { destruct d as [mt|cb]; simpl in *.
    - eapply Forall_impl; [exact Hzero|]. intros rw Hrw.
      eapply Forall_impl; [exact Hrw|]. intros x ->. lra.
    - eapply Forall_impl; [exact Hzero|]. intros rw Hrw.
      eapply Forall_impl; [exact Hrw|]. intros acts Ha.
      eapply Forall_impl; [exact Ha|]. intros x ->. lra. }
  rewrite (v_s_of_on_policy B T) at 1;
    [reflexivity | by apply clamped_importance_value_shape | done..
    | by apply (clamped_importance_value_ones T B)].
Qed.

Lemma vtrace_on_policy_td_returns_witness :
  ∃ adv imp,
    _vtrace_returns (T2 [[0; 0]; [0; 0]]) [[1; 0]; [1; 1]] [[1; 2]; [3; 4]]
                    [[5; 6]; [7; 8]] [9; 10] 1 1 =
    Ok (nstep_td_returns [[1; 2]; [3; 4]] [[1; 0]; [1; 1]] [9; 10], adv, imp).
Proof.
  apply (vtrace_on_policy_td_returns 2 2); [solve_shape | lia | solve_shape].
Defined.

(** *** Clamps other than 1.0 *)

(** C3: on arguments of the shapes the docstring asks for (any number of
    steps, also none), a call whose value clamp or policy clamp is not 1
    raises [NotImplementedError]; it returns no value.  The arithmetic of
    lines 118 to 131, which comes before the test, raises nothing on such
    arguments. *)
Theorem vtrace_non_unit_clamp_not_implemented (T B : nat) (d : tensor)
    (mask rewards values : mat) (est : row)
    (minimum_importance_value minimum_importance_policy : R) :
  well_shaped T B d mask rewards values est →
  minimum_importance_value ≠ 1 ∨ minimum_importance_policy ≠ 1 →
  _vtrace_returns d mask rewards values est
                  minimum_importance_value minimum_importance_policy =
  Raise NotImplementedError.
Proof.
  intros _ Hne. unfold _vtrace_returns.
  rewrite bool_decide_eq_true_2; [reflexivity|]. tauto.
Qed.

Lemma vtrace_non_unit_clamp_not_implemented_witness :
  _vtrace_returns (T3 [[[0; -1]]; [[1; 2]]]) [[1]; [0]] [[2]; [3]] [[3]; [4]]
                  [4] 2 1 =
  Raise NotImplementedError.
Proof.
  apply (vtrace_non_unit_clamp_not_implemented 2 1); [solve_shape|]. left. lra.
Defined.

(** *** The importance ratios and their ceilings *)

Lemma tensor_Forall2_map (P : R → R → Prop) (f : R → R) (d : tensor) :
  (∀ x, P x (f x)) → tensor_Forall2 P d (tensor_map f d).
Proof.
  intros HP. destruct d as [m|cb]; simpl.
  - apply Forall2_fmap_r, Forall_Forall2_diag, Forall_true. intros r.
    apply Forall2_fmap_r, Forall_Forall2_diag, Forall_true. done.
  - apply Forall2_fmap_r, Forall_Forall2_diag, Forall_true. intros r.
    apply Forall2_fmap_r, Forall_Forall2_diag, Forall_true. intros acts.
    apply Forall2_fmap_r, Forall_Forall2_diag, Forall_true. done.
Qed.

Lemma tensor_map_map (f g : R → R) (d : tensor) :
  tensor_map g (tensor_map f d) = tensor_map (λ x, g (f x)) d.
Proof.
  destruct d as [m|cb]; simpl; f_equal; rewrite map_map.
  - apply map_ext. intros r. apply map_map.
  - apply map_ext. intros r. rewrite map_map. apply map_ext. intros acts.
    apply map_map.
Qed.


End vtrace.

(** ** The rollout cache *)

Section rollout_props.
Import ACRollout.
Context {V : Type}.
Implicit Types (self : t V) (k : string).

Lemma append_dom k v self :
  dom (fields (append k v self).1) = dom (fields self).
Proof.
  unfold append. destruct (fields self !! k) as [l|] eqn:Hk; [|done].
  simpl. apply dom_insert_lookup_L. eauto.
Qed.

Lemma append_ok k v self l :
  fields self !! k = Some l →
  append k v self =
  (set_fields (<[k := l ++ [v]]> (fields self)) self, Ok ()).
Proof. intros Hk. unfold append. by rewrite Hk. Qed.

Lemma andthen_dom (f g : t V → t V * result unit) self :
  (∀ s, dom (fields (f s).1) = dom (fields s)) →
  (∀ s, dom (fields (g s).1) = dom (fields s)) →
  dom (fields (andthen f g self).1) = dom (fields self).
Proof.
  intros Hf Hg. unfold andthen. specialize (Hf self).
  destruct (f self) as [s1 [[]|e]]; simpl in Hf; [|done].
  by rewrite Hg.
Qed.

Lemma write_forward_dom actions experience self :
  dom (fields (write_forward actions experience self).1) = dom (fields self).
Proof.
  revert self. induction experience as [|[k v] rest IH]; intros self; [done|].
  simpl. destruct (fields self !! k) as [l|] eqn:Hk; [|done].
  apply andthen_dom; [apply append_dom | apply IH].
Qed.

Lemma write_env_dom obs rewards terminals infos self :
  dom (fields (write_env obs rewards terminals infos self).1) = dom (fields self).
Proof.
  unfold write_env.
  repeat (apply andthen_dom; intros); apply append_dom.
Qed.

Lemma clear_dom self : dom (fields (clear self)) = dom (fields self).
Proof. unfold clear. simpl. apply dom_fmap_L. Qed.

(** The keys of the constructor stay in every state. *)
Lemma reachable_declared self k :
  reachable self →
  k ∈ ["states"; "rewards"; "terminals"; "values"; "log_probs"; "entropies"] →
  is_Some (fields self !! k).
Proof.
  intros Hr Hk. apply elem_of_dom. revert Hk.
  induction Hr as [n f|self o r tm i _ IH|self a e _ IH|self _ IH]; intros Hk.
  - unfold __init__. simpl. rewrite !dom_insert_L.
    rewrite !elem_of_cons in Hk. set_unfold. tauto.
  - rewrite write_env_dom. by apply IH.
  - rewrite write_forward_dom. by apply IH.
  - rewrite clear_dom. by apply IH.
Qed.

(** One [write_env] on a state that has the three keys: one more entry
    under ["rewards"], and no exception. *)
Lemma write_env_len obs rewards terminals infos self (n : Z) :
  is_Some (fields self !! "states") → is_Some (fields self !! "terminals") →
  __len__ self = Ok n →
  (write_env obs rewards terminals infos self).2 = Ok () ∧
  __len__ (write_env obs rewards terminals infos self).1 = Ok (n + 1)%Z ∧
  nb_rollout (write_env obs rewards terminals infos self).1 = nb_rollout self.
Proof.
  intros [ls Hs] [lt Ht] Hlen. unfold __len__ in Hlen.
  destruct (fields self !! "rewards") as [lr|] eqn:Hr; [|discriminate].
  injection Hlen as <-.
  unfold write_env, andthen.
  rewrite (append_ok "states" obs self ls Hs).
  rewrite (append_ok "rewards" _ _ lr)
    by (simpl; by rewrite lookup_insert_ne).
  rewrite (append_ok "terminals" _ _ lt)
    by (simpl; by rewrite !lookup_insert_ne).
  simpl. split; [done|]. split; [|done].
  unfold __len__. simpl.
  rewrite lookup_insert_ne by done. rewrite lookup_insert_eq.
  rewrite length_app. simpl. f_equal. lia.
Qed.

Lemma write_envs_len steps : ∀ self (n : Z),
  reachable self → __len__ self = Ok n →
  (write_envs steps self).2 = Ok () ∧
  __len__ (write_envs steps self).1 = Ok (n + Z.of_nat (length steps))%Z ∧
  nb_rollout (write_envs steps self).1 = nb_rollout self.
Proof.
  induction steps as [|[[[obs rewards] terminals] infos] rest IH];
    intros self n Hreach Hlen.
  - simpl. rewrite Z.add_0_r. done.
  - simpl. unfold andthen.
    destruct (write_env_len obs rewards terminals infos self n)
      as (Hok & Hlen' & Hnb); try done.
    1,2: apply reachable_declared; [done | apply list_elem_of_In; simpl; tauto].
    pose proof (reach_write_env self obs rewards terminals infos Hreach) as Hr'.
    destruct (write_env obs rewards terminals infos self) as [s1 r1].
    simpl in *. subst r1.
    destruct (IH s1 (n + 1)%Z Hr' Hlen') as (H1 & H2 & H3).
    split; [done|]. split; [|congruence].
    rewrite H2. f_equal. lia.
Qed.

Lemma clear_fields self k l : fields (clear self) !! k = Some l → l = [].
Proof.
  unfold clear. simpl. rewrite lookup_fmap.
  destruct (fields self !! k); simpl; congruence.
Qed.

Lemma clear_is_ready self :
  reachable self →
  is_ready (clear self) = Ok (bool_decide (0%Z = nb_rollout self)).
Proof.
  intros Hr. unfold is_ready, __len__, clear. simpl. rewrite lookup_fmap.
  destruct (reachable_declared self "rewards" Hr) as [l ->];
    [apply list_elem_of_In; simpl; tauto|].
  done.
Qed.

(** C7, as stated, fails for the horizon 0: the cleared cache is ready. *)
Lemma rollout_clear_ready_counterexample :
  reachable (__init__ (V:=unit) 0 (λ x, x)) ∧
  is_ready (clear (__init__ (V:=unit) 0 (λ x, x))) = Ok true.
Proof. split; [constructor | reflexivity]. Qed.

(** C7, amended: [k] consecutive [write_env] calls on an empty cache raise
    nothing and leave [is_ready()] true exactly when [k] is the horizon;
    [clear()] in any state leaves every field empty, and [is_ready()] is
    then false for a horizon other than 0. *)
Theorem rollout_ready_after_horizon_writes (self any : t V)
    (steps : list (V * V * V * V)) :
  reachable self → __len__ self = Ok 0%Z → reachable any →
  (write_envs steps self).2 = Ok () ∧
  is_ready (write_envs steps self).1 =
    Ok (bool_decide (Z.of_nat (length steps) = nb_rollout self)) ∧
  (∀ k l, fields (clear any) !! k = Some l → length l = 0%nat) ∧
  (∀ k, k ∈ ["states"; "rewards"; "terminals"; "values"; "log_probs"; "entropies"] →
        fields (clear any) !! k = Some []) ∧
  (nb_rollout any ≠ 0%Z → is_ready (clear any) = Ok false).
Proof.
  intros Hreach Hlen Hany.
  destruct (write_envs_len steps self 0%Z Hreach Hlen) as (Hok & Hl & Hnb).
  split; [done|]. split.
  { unfold is_ready. rewrite Hl, Hnb. done. }
  split. { intros k l Hk. by rewrite (clear_fields any k l Hk). }
  split.
  { intros k Hk. destruct (reachable_declared any k Hany Hk) as [l Hl'].
    unfold clear. simpl. by rewrite lookup_fmap, Hl'. }
  intros Hnz. rewrite clear_is_ready by done. f_equal.
  apply bool_decide_eq_false_2. congruence.
Qed.

End rollout_props.

Lemma rollout_ready_after_horizon_writes_witness :
  let self := ACRollout.__init__ (V:=nat) 2 (λ x, x) in
  let any := (ACRollout.write_env 1 2 3 4 self).1 in
  let steps := [(1, 2, 3, 4); (5, 6, 7, 8)]%nat in
  (ACRollout.write_envs steps self).2 = Ok () ∧
  ACRollout.is_ready (ACRollout.write_envs steps self).1 =
    Ok (bool_decide (Z.of_nat (length steps) = ACRollout.nb_rollout self)) ∧
  (∀ k l, ACRollout.fields (ACRollout.clear any) !! k = Some l → length l = 0%nat) ∧
  (∀ k, k ∈ ["states"; "rewards"; "terminals"; "values"; "log_probs"; "entropies"] →
        ACRollout.fields (ACRollout.clear any) !! k = Some []) ∧
  (ACRollout.nb_rollout any ≠ 0%Z →
   ACRollout.is_ready (ACRollout.clear any) = Ok false).
Proof.
  intros self any steps.
  apply (rollout_ready_after_horizon_writes self any steps).
  - constructor.
  - reflexivity.
  - apply ACRollout.reach_write_env. constructor.
Defined.

(** ** The replay cache *)

Section replay_props.
Context {C : Type} (uninit : C) (one_minus : C → C) (raw : nat → Z)
  (namedtuple_accepts : list string → bool)
  (shape_repr : list C → string) (array_repr : list (list C) → string).
Local Open Scope Z_scope.

Import ExperienceReplay.
#[local] Existing Instance M_ret.
#[local] Existing Instance M_bind.

Implicit Types (self : t C) (k : string) (v : list C).

Lemma keeps_bind (n : Z) (m1 m2 : M C unit) :
  keeps n m1 → keeps n m2 → keeps n (m1 ;; m2).
Proof.
  intros H1 H2 self Hok Hn.
  destruct (H1 self Hok Hn) as (s1 & E1 & Hok1 & Hc1 & Hk1).
  assert (nb_env s1 = n) as Hn1.
  { unfold counters in Hc1. injection Hc1 as _ Hnb _ _. congruence. }
  destruct (H2 s1 Hok1 Hn1) as (s2 & E2 & Hok2 & Hc2 & Hk2).
  exists s2. unfold mbind, M_bind. rewrite E1.
  split; [exact E2|]. split; [done|]. split; [congruence | eauto].
Qed.

Lemma index_in_range (n : nat) (i : Z) :
  0 ≤ i < Z.of_nat n → index n i = Ok (Z.to_nat i).
Proof. intros Hi. unfold index. by rewrite decide_True. Qed.

Lemma np_empty_ok (rows cols : Z) :
  0 ≤ rows → 0 ≤ cols →
  ∃ a, np_empty uninit rows cols = Ok a ∧
       Z.of_nat (length a) = rows ∧
       Forall (λ row, length row = Z.to_nat cols) a.
Proof.
  intros Hr Hc. unfold np_empty.
  rewrite decide_False by lia. eexists. split; [done|].
  rewrite length_replicate. split; [lia|].
  apply Forall_replicate. apply length_replicate.
Qed.

(** An assignment of a row of the right length, inside the array. *)
Lemma setitem_row (a : list (list C)) (i : Z) v :
  0 ≤ i < Z.of_nat (length a) →
  Forall (λ row, length row = length v) a →
  setitem a i v = Ok (<[Z.to_nat i := v]> a).
Proof.
  intros Hi Hrows. unfold setitem. rewrite index_in_range by done.
  destruct (lookup_lt_is_Some_2 a (Z.to_nat i)) as [row Hrow]; [lia|].
  rewrite Hrow. rewrite Forall_lookup in Hrows.
  unfold broadcast_to. rewrite decide_True; [done|].
  symmetry. by apply (Hrows (Z.to_nat i)).
Qed.

Lemma store_keeps_present k v self :
  capacity_ok self → per_env self v → is_Some (arrays self !! k) →
  ∃ self', store k v self = (self', Ok ()) ∧ capacity_ok self' ∧
    counters self' = counters self ∧
    (∀ k', is_Some (arrays self !! k') → is_Some (arrays self' !! k')).
Proof.
  intros (Hml & Hnb & Hcur & Hr & Ht & Hall & Hrows) Hv [a Ha].
  pose proof (Hall k a Ha) as Hlen. simpl in Hlen.
  pose proof (Hrows k a Ha) as Hwide. simpl in Hwide.
  unfold per_env in Hv.
  unfold store, mbind, M_bind, get, lift, modify.
  rewrite Ha.
  rewrite setitem_row; [|lia|by rewrite Hv].
  eexists. split; [done|].
  assert (∀ k', is_Some (arrays self !! k') →
                is_Some (<[k := <[Z.to_nat (_current_index self) := v]> a]>
                           (arrays self) !! k')) as Hkeep.
  { intros k' Hk'. destruct (decide (k = k')) as [->|Hne].
    - rewrite lookup_insert_eq. eauto.
    - by rewrite lookup_insert_ne. }
  split; [|split; [done | exact Hkeep]].
  unfold capacity_ok. simpl.
  split; [lia|]. split; [lia|]. split; [lia|].
  split; [by apply Hkeep|]. split; [by apply Hkeep|]. split.
  - apply map_Forall_insert_2; [|done]. by rewrite length_insert.
  - apply map_Forall_insert_2; [|done].
    apply Forall_insert; [done | exact Hv].
Qed.

Lemma ensure_then_store_keeps (n : Z) k line v :
  length v = Z.to_nat n →
  keeps n (ensure_array uninit k line ;; store k v).
Proof.
  intros Hv self Hok Hn.
  pose proof Hok as (Hml & Hnb & Hcur & Hr & Ht & Hall & Hrows).
  assert (per_env self v) as Hpe by (unfold per_env; congruence).
  unfold ensure_array.
  unfold mbind at 1 2, M_bind at 1 2, get.
  destruct (arrays self !! k) as [a|] eqn:Ha.
  - unfold mret, M_ret.
    apply store_keeps_present; eauto.
  - unfold print, modify.
    unfold mbind, M_bind, lift. simpl.
    destruct (np_empty_ok (max_len self) (nb_env self)) as (a & -> & Hlen & Hwide);
      [lia..|].
    set (s1 := set_arrays _ _).
    assert (capacity_ok s1) as Hok1.
    { unfold capacity_ok. subst s1. simpl.
      split; [lia|]. split; [lia|]. split; [lia|]. split.
      { rewrite lookup_insert_ne by (intros ->; destruct Hr; congruence). done. }
      split.
      { rewrite lookup_insert_ne by (intros ->; destruct Ht; congruence). done. }
      split; apply map_Forall_insert_2; try done. lia. }
    destruct (store_keeps_present k v s1 Hok1) as (s2 & E2 & Hok2 & Hc2 & Hk2).
    { exact Hpe. }
    { subst s1. simpl. rewrite lookup_insert_eq. eauto. }
    exists s2. split; [exact E2|]. split; [done|]. split; [by rewrite Hc2|].
    intros k' Hk'. apply Hk2. subst s1. simpl.
    destruct (decide (k = k')) as [->|Hne].
    + rewrite lookup_insert_eq. eauto.
    + by rewrite lookup_insert_ne.
Qed.

Lemma keeps_ret (n : Z) : keeps (C:=C) n (mret ()).
Proof. intros self Hok _. exists self. done. Qed.

Lemma for_each_keeps {A : Type} (n : Z) (body : A → M C unit) (l : list A) :
  Forall (λ a, keeps n (body a)) l → keeps n (for_each body l).
Proof.
  induction 1 as [|a l Ha _ IH]; simpl.
  - apply keeps_ret.
  - by apply keeps_bind.
Qed.

Lemma write_forward_keeps (n : Z) kwargs :
  Forall (λ kv, length kv.2 = Z.to_nat n) kwargs →
  keeps n (write_forward uninit shape_repr kwargs).
Proof.
  intros Hrows. unfold write_forward. apply for_each_keeps.
  eapply Forall_impl; [exact Hrows|].
  intros [k v] Hv. by apply ensure_then_store_keeps.
Qed.

Lemma write_env_spec obs rewards terminals infos self :
  capacity_ok self → env_call_ok self (obs, rewards, terminals, infos) →
  ∃ self',
    write_env uninit one_minus shape_repr obs rewards terminals infos self
      = (self', Ok ()) ∧
    capacity_ok self' ∧ max_len self' = max_len self ∧
    nb_env self' = nb_env self ∧
    _num_inserted self' = _num_inserted self + 1 ∧
    _current_index self' = (_current_index self + 1) `mod` max_len self.
Proof.
  intros Hok (Hobs & Hrew & Hterm). simpl in Hobs, Hrew, Hterm.
  unfold write_env.
  destruct (for_each_keeps (nb_env self)
    (λ kv : string * list C,
       ensure_array uninit ("obs-" +:+ kv.1) (kv.1 +:+ " " +:+ shape_repr kv.2);;
       store ("obs-" +:+ kv.1) kv.2) obs) with (self := self)
    as (s1 & E1 & Hok1 & Hc1 & Hk1); [|done|done|].
  { eapply Forall_impl; [exact Hobs|]. intros kv Hkv.
    by apply ensure_then_store_keeps. }
  assert (nb_env s1 = nb_env self) as Hn1.
  { unfold counters in Hc1. by injection Hc1 as _ ? _ _. }
  destruct (store_keeps_present "rewards" rewards s1 Hok1)
    as (s2 & E2 & Hok2 & Hc2 & _).
  { unfold per_env in *. congruence. }
  { by destruct Hok1 as (_ & _ & _ & ? & _). }
  assert (nb_env s2 = nb_env self) as Hn2.
  { unfold counters in Hc2. injection Hc2 as _ ? _ _. congruence. }
  destruct (store_keeps_present "terminals" (map one_minus terminals) s2 Hok2)
    as (s3 & E3 & Hok3 & Hc3 & _).
  { unfold per_env in *. rewrite length_map. congruence. }
  { by destruct Hok2 as (_ & _ & _ & _ & ? & _). }
  unfold mbind at 1, M_bind at 1. rewrite E1.
  unfold mbind at 1, M_bind at 1. rewrite E2.
  unfold mbind at 1, M_bind at 1. rewrite E3.
  unfold mbind, M_bind, get, lift, modify, pymod.
  assert (counters s3 = counters self) as Hc by congruence.
  unfold counters in Hc. injection Hc as Hml Hnb Hcur Hnum.
  destruct Hok3 as (Hpos & Hnbe & Hrange & Hr & Ht & Hall & Hrows).
  rewrite decide_False by lia. eexists. split; [done|].
  rewrite <- Hml, <- Hcur, <- Hnum, <- Hnb. simpl.
  pose proof (Z.mod_pos_bound (_current_index s3 + 1) (max_len s3) Hpos).
  unfold capacity_ok. simpl. repeat split; auto; lia.
Qed.

Lemma init_capacity_ok (nb batch seq_len raw_max_len : Z) :
  0 < nb → nb ≤ raw_max_len →
  ∃ self, __init__ uninit nb batch seq_len raw_max_len = Ok self ∧
          capacity_ok self ∧ max_len self = raw_max_len `div` nb ∧
          nb_env self = nb ∧
          _current_index self = 0 ∧ _num_inserted self = 0.
Proof.
  intros Hnb Hmax. unfold __init__.
  destruct (np_empty_ok raw_max_len nb) as (a & -> & Hlen & Hwide); [lia..|].
  unfold floordiv. rewrite decide_False by lia. eexists. split; [done|].
  assert (0 < raw_max_len `div` nb) by (apply Z.div_str_pos; lia).
  assert (raw_max_len `div` nb ≤ raw_max_len)
    by (apply Z.div_le_upper_bound; nia).
  split; [|done]. unfold capacity_ok. simpl.
  split; [lia|]. split; [lia|]. split; [lia|]. split.
  { rewrite lookup_insert_ne by done. rewrite lookup_insert_eq. eauto. }
  split.
  { rewrite lookup_insert_eq. eauto. }
  split; repeat apply map_Forall_insert_2; try lia; try done;
    apply map_Forall_empty.
Qed.

Lemma env_call_ok_nb_env (s s' : t C) call :
  nb_env s' = nb_env s → env_call_ok s call → env_call_ok s' call.
Proof.
  intros Hn (Ho & Hr & Ht). unfold env_call_ok, per_env in *. rewrite Hn.
  done.
Qed.

(** C10: on a buffer of positive capacity [C = max_len], [n] consecutive
    [write_env] calls whose observations, rewards and terminals hold one
    entry per environment raise nothing, add [n] to the insertion count and
    move the cursor by [n] modulo [C]; the cursor stays in [[0, C)] and the
    length is the smaller of the count and [C]. *)
Theorem replay_write_env_counters (self : t C)
    (calls : list (list (string * list C) * list C * list C * list C)) :
  capacity_ok self → Forall (env_call_ok self) calls →
  ∃ self',
    write_envs uninit one_minus shape_repr calls self = (self', Ok ()) ∧
    capacity_ok self' ∧ max_len self' = max_len self ∧
    _num_inserted self' = _num_inserted self + Z.of_nat (length calls) ∧
    _current_index self' =
      (_current_index self + Z.of_nat (length calls)) `mod` max_len self ∧
    0 ≤ _current_index self' < max_len self ∧
    __len__ self' = Z.min (_num_inserted self') (max_len self) ∧
    __len__ self' ≤ max_len self.
Proof.
  revert self. induction calls as [|[[[obs rewards] terminals] infos] rest IH];
    intros self Hok Hcalls.
  - exists self. pose proof Hok as (Hpos & _ & Hrange & _).
    simpl. rewrite !Z.add_0_r, Z.mod_small by lia.
    unfold __len__. split; [done|]. split; [exact Hok|]. repeat split; lia.
  - apply Forall_cons in Hcalls as [Hcall Hcalls].
    destruct (write_env_spec obs rewards terminals infos self Hok Hcall)
      as (s1 & E1 & Hok1 & Hml1 & Hnb1 & Hnum1 & Hcur1).
    destruct (IH s1 Hok1) as (s2 & E2 & Hok2 & Hml2 & Hnum2 & Hcur2 & Hr2 & Hl2 & Hle2).
    { eapply Forall_impl; [exact Hcalls|]. intros call.
      by apply env_call_ok_nb_env. }
    exists s2. simpl. unfold mbind, M_bind. rewrite E1.
    split; [exact E2|]. split; [done|].
    rewrite Hml1 in *. destruct Hok as (Hpos & _).
    repeat split; try lia.
    + rewrite Hcur2, Hcur1, Zplus_mod_idemp_l. f_equal. lia.
Qed.

Lemma randint_spec (low high size : Z) self :
  low < high → 0 ≤ size →
  ∃ draws,
    randint raw low high size self =
      (set_np_random (np_random self + Z.to_nat size)%nat self, Ok draws) ∧
    length draws = Z.to_nat size ∧
    Forall (λ x, low ≤ x < high) draws.
Proof.
  intros Hlt Hsz. unfold randint.
  destruct (decide (size = 0)) as [->|Hne].
  { exists []. simpl. rewrite Nat.add_0_r. by destruct self. }
  rewrite !decide_False by lia. eexists. split; [done|]. split.
  - by rewrite length_map, length_seq.
  - apply Forall_fmap, Forall_true. intros i. simpl.
    pose proof (Z.mod_pos_bound (raw (np_random self + i)) (high - low)). lia.
Qed.

Lemma arange_bounds (lo hi : Z) : Forall (λ i, lo ≤ i < hi) (arange lo hi).
Proof.
  unfold arange. apply Forall_fmap, Forall_forall. intros i Hi. simpl.
  apply elem_of_seq in Hi. lia.
Qed.

Lemma getitem_in_range {A : Type} (xs : list A) (i : Z) :
  0 ≤ i < Z.of_nat (length xs) → ∃ x, getitem xs i = Ok x.
Proof.
  intros Hi. unfold getitem. rewrite index_in_range by done.
  destruct (lookup_lt_is_Some_2 xs (Z.to_nat i)) as [x ->]; [lia|]. eauto.
Qed.

(** C5: when the length [L] is above [rollout_len + 2], the start indexes
    drawn by [_read] lie in [[0, L - rollout_len - 2)]; every end index is
    at most [L - 2], every row of a window and the row at end index + 1 lie
    in [[0, L)], so that reading the row at end index + 1 of an array with
    at least [L] rows raises nothing. *)
Theorem replay_sample_window_bounds (self : t C) :
  rollout_len self + 2 < __len__ self →
  0 ≤ rollout_len self → 0 ≤ batch_size self →
  ∃ self' starts ends flat,
    sample_indexes raw self = (self', Ok (starts, ends, flat)) ∧
    length starts = Z.to_nat (batch_size self) ∧
    Forall (λ s, 0 ≤ s < __len__ self - rollout_len self - 2) starts ∧
    ends = map (λ s, s + rollout_len self) starts ∧
    Forall (λ e, e ≤ __len__ self - 2 ∧ 0 ≤ e + 1 < __len__ self) ends ∧
    Forall (λ i, 0 ≤ i < __len__ self) flat ∧
    (∀ values : list (list C),
       __len__ self ≤ Z.of_nat (length values) →
       Forall (λ e, ∃ row, getitem values (e + 1) = Ok row) ends).
Proof.
  intros HL Hrl Hbs. unfold sample_indexes.
  unfold mbind at 1, M_bind at 1, get.
  destruct (randint_spec 0 (__len__ self - 2 - rollout_len self)
              (batch_size self) self) as (draws & E & Hlen & Hall); [lia..|].
  unfold mbind, M_bind. rewrite E. unfold mret, M_ret.
  eexists _, _, _, _. split; [reflexivity|].
  split; [done|]. split.
  { eapply Forall_impl; [exact Hall|]. intros; simpl in *; lia. }
  split; [done|]. split.
  { apply Forall_fmap. eapply Forall_impl; [exact Hall|].
    intros; simpl in *; lia. }
  split; [|intros values Hrows; apply Forall_fmap;
           eapply Forall_impl; [exact Hall|]; intros s Hs; simpl in *;
           apply getitem_in_range; lia].
  apply Forall_concat. apply Forall_forall. intros w Hw.
  apply elem_of_lookup_zip_with in Hw as (i & s & e & -> & Hs & He).
  rewrite list_lookup_fmap, Hs in He. injection He as <-.
  eapply Forall_impl; [apply arange_bounds|]. intros j Hj. simpl in Hj.
  rewrite Forall_lookup in Hall. specialize (Hall i s Hs). simpl in Hall. lia.
Qed.

(** The two branches of [read]. *)
Lemma read_pops_oldest (self : t C) (b1 b2 : gmap string (field C))
    (rest : list (gmap string (field C))) :
  _cached_rollout self = b1 :: b2 :: rest →
  read raw namedtuple_accepts array_repr self =
  (set_cached (b2 :: rest) self, Ok b1).
Proof.
  intros Hq. unfold read, mbind, M_bind, get, pop_cached. rewrite Hq.
  rewrite decide_True by (simpl; lia). unfold mbind, M_bind, get.
  rewrite Hq. reflexivity.
Qed.

Lemma read_cache_miss (self : t C) :
  (length (_cached_rollout self) ≤ 1)%nat →
  read raw namedtuple_accepts array_repr self =
  _read raw namedtuple_accepts array_repr
        (set_stdout (stdout self ++ ["Cache miss"]) self).
Proof.
  intros Hq. unfold read. unfold mbind at 1, M_bind at 1, get.
  rewrite decide_False by lia. reflexivity.
Qed.

End replay_props.

Lemma replay_write_env_counters_witness :
  ∃ self,
    ExperienceReplay.__init__ 0%Z 2 3 2 20 = Ok self ∧
    ∃ self',
      ExperienceReplay.write_envs 0%Z (λ x, 1 - x)%Z ReplayRun.no_repr
        [([("x", [5; 6])], [1; 0], [0; 0], []); ([], [1; 1], [0; 1], [])]%Z self
        = (self', Ok ()) ∧
      ExperienceReplay.capacity_ok self' ∧
      ExperienceReplay.max_len self' = ExperienceReplay.max_len self ∧
      ExperienceReplay._num_inserted self' =
        (ExperienceReplay._num_inserted self + Z.of_nat 2)%Z ∧
      ExperienceReplay._current_index self' =
        ((ExperienceReplay._current_index self + Z.of_nat 2)
           `mod` ExperienceReplay.max_len self)%Z ∧
      (0 ≤ ExperienceReplay._current_index self'
         < ExperienceReplay.max_len self)%Z ∧
      ExperienceReplay.__len__ self' =
        Z.min (ExperienceReplay._num_inserted self')
              (ExperienceReplay.max_len self) ∧
      (ExperienceReplay.__len__ self' ≤ ExperienceReplay.max_len self)%Z.
Proof.
  destruct (init_capacity_ok 0%Z 2 3 2 20) as (self & E & Hok & _ & Hnb & _);
    [lia..|].
  exists self. split; [exact E|].
  apply (replay_write_env_counters 0%Z (λ x, 1 - x)%Z ReplayRun.no_repr self).
  - exact Hok.
  - unfold ExperienceReplay.env_call_ok, ExperienceReplay.per_env.
    rewrite Hnb. repeat constructor.
Defined.

Lemma replay_sample_window_bounds_witness :
  ∃ self' starts ends flat,
    ExperienceReplay.sample_indexes ReplayRun.raw ReplayRun.filled
      = (self', Ok (starts, ends, flat)) ∧
    length starts = Z.to_nat (ExperienceReplay.batch_size ReplayRun.filled) ∧
    Forall (λ s, 0 ≤ s < ExperienceReplay.__len__ ReplayRun.filled
                          - ExperienceReplay.rollout_len ReplayRun.filled - 2)%Z
           starts ∧
    ends = map (λ s, s + ExperienceReplay.rollout_len ReplayRun.filled)%Z starts ∧
    Forall (λ e, e ≤ ExperienceReplay.__len__ ReplayRun.filled - 2 ∧
                 0 ≤ e + 1 < ExperienceReplay.__len__ ReplayRun.filled)%Z ends ∧
    Forall (λ i, 0 ≤ i < ExperienceReplay.__len__ ReplayRun.filled)%Z flat ∧
    (∀ values : list (list Z),
       (ExperienceReplay.__len__ ReplayRun.filled ≤ Z.of_nat (length values))%Z →
       Forall (λ e, ∃ row, ExperienceReplay.getitem values (e + 1)%Z = Ok row)
              ends).
Proof.
  apply (replay_sample_window_bounds ReplayRun.raw ReplayRun.filled);
    vm_compute; congruence.
Defined.

(** C6: the state [queued] of the run holds one batch that the background
    loop has prepared, and [read()] does not return it: it prints the
    cache-miss line, draws a new sample and leaves the batch in the queue. *)
Theorem replay_read_one_queued_batch :
  ExperienceReplay.is_ready ReplayRun.queued = true ∧
  ∃ b sampled,
    ExperienceReplay._cached_rollout ReplayRun.queued = [b] ∧
    ExperienceReplay.read ReplayRun.raw ReplayRun.accepts ReplayRun.no_repr
      ReplayRun.queued =
    ExperienceReplay._read ReplayRun.raw ReplayRun.accepts ReplayRun.no_repr
      (ExperienceReplay.set_stdout
         (ExperienceReplay.stdout ReplayRun.queued ++ ["Cache miss"])
         ReplayRun.queued) ∧
    (ExperienceReplay.read ReplayRun.raw ReplayRun.accepts ReplayRun.no_repr
       ReplayRun.queued).2 = Ok sampled ∧
    b !! "last_obs" = Some (ExperienceReplay.Singles [94; 95; 97]%Z) ∧
    sampled !! "last_obs" = Some (ExperienceReplay.Singles [97; 95; 97]%Z) ∧
    ExperienceReplay._cached_rollout
      (ExperienceReplay.read ReplayRun.raw ReplayRun.accepts ReplayRun.no_repr
         ReplayRun.queued).1 = [b].
Proof.
  split; [reflexivity|]. eexists _, _.
  split; [vm_compute; reflexivity|].
  split; [apply read_cache_miss; vm_compute; lia|].
  split; [vm_compute; reflexivity|].
  split; [vm_compute; reflexivity|].
  split; vm_compute; reflexivity.
Qed.

Lemma replay_run_fresh :
  ExperienceReplay.__init__ 0%Z 2 3 2 20 = Ok ReplayRun.fresh.
Proof. reflexivity. Qed.
(** ** Writes of fields that were not declared *)

Section write_forward_props.
Context {V C : Type} (uninit : C) (shape_repr : list C → string).

Lemma rollout_write_forward_undeclared (actions : V)
    (experience : list (string * V)) : ∀ self : ACRollout.t V,
  (∃ kv, kv ∈ experience ∧ ACRollout.fields self !! kv.1 = None) →
  ∃ k, k ∈ experience.*1 ∧ ACRollout.fields self !! k = None ∧
       (ACRollout.write_forward actions experience self).2 =
         Raise (KeyError ("Incompatible rollout key: " +:+ k)).
Proof.
  induction experience as [|[k v] rest IH]; intros self (kv & Hin & Hnone).
  { by apply elem_of_nil in Hin. }
  simpl. destruct (ACRollout.fields self !! k) as [l|] eqn:Hk.
  - apply elem_of_cons in Hin as [-> | Hin]; [simpl in Hnone; congruence|].
    unfold ACRollout.andthen. rewrite (append_ok k v self l Hk).
    destruct (IH (ACRollout.set_fields (<[k := l ++ [v]]> (ACRollout.fields self)) self))
      as (k0 & Hk0 & Hnone0 & Hraise).
    { exists kv. split; [done|]. simpl. rewrite lookup_insert_ne; [done|].
      intros Heq. rewrite <- Heq in Hnone. congruence. }
    exists k0. split; [by apply elem_of_cons; right|]. split; [|done].
    simpl in Hnone0. rewrite lookup_insert_ne in Hnone0; [done|].
    intros Heq. rewrite Heq, lookup_insert_eq in Hnone0. discriminate.
  - exists k. split; [by apply elem_of_cons; left|]. by rewrite Hk.
Qed.

End write_forward_props.

(** C8, as stated, fails on the replay cache: [write_forward] with the
    undeclared name ["foo"] raises nothing and creates the field. *)
Lemma replay_write_forward_counterexample :
  ExperienceReplay.arrays ReplayRun.fresh !! "foo" = None ∧
  ∃ self',
    ExperienceReplay.write_forward 0%Z ReplayRun.no_repr
      [("foo", [7; 8]%Z)] ReplayRun.fresh = (self', Ok ()) ∧
    ExperienceReplay.arrays self' !! "foo" =
      Some ([7; 8] :: replicate 9 [0; 0])%Z.
Proof.
  split; [reflexivity|]. eexists. split; vm_compute; reflexivity.
Qed.

(** ** The learner container *)

Section learner_props.
Import Learner.
Local Open Scope Z_scope.

Lemma warnings_app (l1 l2 : list (level * string)) :
  warnings (l1 ++ l2) = warnings l1 ++ warnings l2.
Proof. unfold warnings. apply omap_app. Qed.

Lemma warnings_log_if_info (cond : bool) (msg : string)
    (logger : list (level * string)) :
  warnings (log_if cond INFO msg logger) = warnings logger.
Proof.
  unfold log_if. destruct cond; [|done].
  rewrite warnings_app. simpl. apply app_nil_r.
Qed.

(** The groups a learner keeps: one per worker rank when its own rank is
    among the learner ranks, none otherwise. *)
Lemma new_groups_inner_dom (rank learner_rank : Z) (worker_ranks : list Z) :
  ∀ g0 : gmap Z group,
  dom (fold_left (λ groups worker_rank,
         if decide (learner_rank = rank)
         then <[worker_rank := [learner_rank; worker_rank]]> groups
         else groups) worker_ranks g0) =
  dom g0 ∪ (if decide (learner_rank = rank)
            then list_to_set worker_ranks else ∅).
Proof.
  induction worker_ranks as [|w ws IH]; intros g0; simpl.
  - case_decide; rewrite ?list_to_set_nil; by rewrite (right_id_L ∅ (∪)).
  - rewrite IH. case_decide; [|done].
    rewrite dom_insert_L, (comm_L (∪) {[w]} (dom g0)).
    by rewrite <- (assoc_L (∪)).
Qed.

Lemma new_groups_dom (rank : Z) (learner_ranks worker_ranks : list Z) :
  dom (new_groups rank learner_ranks worker_ranks) =
  if decide (rank ∈ learner_ranks) then list_to_set worker_ranks else ∅.
Proof.
  unfold new_groups.
  assert (∀ g0 : gmap Z group,
    dom (fold_left (λ groups learner_rank,
           fold_left (λ groups worker_rank,
             let g := [learner_rank; worker_rank] in
             if decide (learner_rank = rank) then <[worker_rank := g]> groups
             else groups) worker_ranks groups) learner_ranks g0) =
    dom g0 ∪ (if decide (rank ∈ learner_ranks)
              then list_to_set worker_ranks else ∅)) as Hgen.
  { induction learner_ranks as [|l ls IH]; intros g0.
    - simpl. try (case_decide as Hin; [by apply elem_of_nil in Hin|]).
      by rewrite (right_id_L ∅ (∪)).
    - cbn [fold_left]. rewrite IH. cbv zeta. rewrite new_groups_inner_dom.
      rewrite <- (assoc_L (∪)). f_equal.
      destruct (decide (l = rank)) as [->|Hne].
      + rewrite (decide_True (P := rank ∈ rank :: ls))
          by (apply elem_of_cons; auto).
        case_decide; [by rewrite (idemp_L (∪)) | by rewrite (right_id_L ∅ (∪))].
      + rewrite (left_id_L ∅ (∪)).
        destruct (decide (rank ∈ ls)) as [Hin|Hnin].
        * by rewrite decide_True by (apply elem_of_cons; auto).
        * rewrite decide_False; [done|].
          intros [?|?]%elem_of_cons; congruence. }
  rewrite Hgen, dom_empty_L. by rewrite (left_id_L ∅ (∪)).
Qed.

(** C9: the constructor returns for every configuration; the batch count
    it leaves is the smaller of the configured count and the number of
    workers, so it is the number of workers when the configured count
    exceeds it and the configured count otherwise; the constructor logs the
    warning exactly in the first case.  The number of workers is the
    number of groups of this learner. *)
Theorem learner_batch_count_reduced (args : Args)
    (logger0 : list (level * string)) (rank0 : Z)
    (learner_ranks worker_ranks : list Z) :
  let l := __init__ args logger0 rank0 learner_ranks worker_ranks in
  nb_worker l =
    Z.of_nat (size (if decide (rank0 ∈ learner_ranks)
                    then list_to_set worker_ranks else ∅ : gset Z)) ∧
  nb_learn_batch l = Z.min (args_nb_learn_batch args) (nb_worker l) ∧
  nb_learn_batch l =
    (if decide (nb_worker l < args_nb_learn_batch args)
     then nb_worker l else args_nb_learn_batch args) ∧
  warnings (logger l) =
    warnings logger0 ++
    (if decide (nb_worker l < args_nb_learn_batch args)
     then [reduce_message (nb_worker l)] else []).
Proof.
  intros l. subst l. unfold __init__.
  rewrite <- new_groups_dom, size_dom.
  set (n := Z.of_nat (size (new_groups rank0 learner_ranks worker_ranks))).
  destruct (decide (n < args_nb_learn_batch args)) as [Hlt|Hge]; simpl.
  - rewrite decide_True by done. rewrite warnings_app, !warnings_log_if_info.
    repeat split; auto; try lia. by rewrite decide_True.
  - rewrite decide_False by done. rewrite !warnings_log_if_info.
    repeat split; auto; try lia. by rewrite decide_False, app_nil_r.
Qed.

(** The scenario of the specification: three workers and a configured
    batch count of five. *)
Example learner_three_workers_five_batches :
  let l := __init__ (mk_args 4 5 "" "") [] 0 [0] [1; 2; 3] in
  nb_worker l = 3 ∧ nb_learn_batch l = 3 ∧
  logger l =
    [(WARNING, "More learn batches than workers, reducing learn batches to 3")].
Proof. vm_compute. done. Qed.

End learner_props.

(** * Further properties *)

(** ** V-trace returns: shapes, the recursion, episode ends *)

Section vtrace_more.
Import ImpalaLearner.
Local Open Scope R_scope.

Ltac rows B :=
  induction B as [|B IHB]; intros;
  repeat match goal with
  | H : length ?l = 0%nat |- _ => apply nil_length_inv in H; subst l
  | H : length ?l = S _ |- _ =>
      destruct l; [discriminate H|]; simpl in H; apply eq_add_S in H
  | H : Forall _ (_ :: _) |- _ => apply Forall_cons in H as [? H]
  end;
  subst; simpl; [reflexivity | f_equal; [lra | eauto]].

Ltac shapes :=
  repeat first
    [ split | apply Forall_nil_2 | apply Forall_cons_2 | reflexivity
    | discriminate ].

(** X1: On a rollout without steps (sequence length 0, every tensor of the
    shape the docstring asks for) ImpalaLearner._vtrace_returns with both
    clamps equal to 1 raises RuntimeError: the loop over the steps appends
    nothing and torch.stack refuses the empty list. *)
Theorem vtrace_empty_rollout_raises (B : nat) (d : tensor)
    (mask rewards values : mat) (est : row) :
  well_shaped 0 B d mask rewards values est →
  _vtrace_returns d mask rewards values est 1 1 = Raise RuntimeError.
Proof.
  intros [Hd Hm Hr Hv He].
  apply mat_shape_nil in Hm as ->. apply mat_shape_nil in Hr as ->.
  apply mat_shape_nil in Hv as ->.
  unfold _vtrace_returns.
  rewrite bool_decide_eq_false_2 by (intros [?|?]; congruence).
  destruct d as [m|c]; simpl in Hd.
  - apply mat_shape_nil in Hd as ->. reflexivity.
  - destruct Hd as [Hl _]. destruct c; [reflexivity|discriminate].
Qed.

Lemma vtrace_empty_rollout_raises_witness :
  _vtrace_returns (T2 []) [] [] [] [1; 2] 1 1 = Raise RuntimeError.
Proof. apply (vtrace_empty_rollout_raises 2). shapes. Defined.

Lemma shift_cat_shape (T B : nat) (m : mat) (est : row) :
  mat_shape (S T) B m → length est = B → mat_shape (S T) B (shift_cat m est).
Proof.
  intros Hm He. apply mat_shape_cons_inv in Hm as (r & m' & -> & _ & [Hl Hf]).
  unfold shift_cat. simpl. split.
  - rewrite length_app. simpl. lia.
  - apply Forall_app. split; [done|]. by constructor.
Qed.

Lemma v_s_of_shape (T B : nat) (cl mask rewards values : mat) (est : row) :
  mat_shape T B cl → mat_shape T B mask → mat_shape T B rewards →
  mat_shape T B values → length est = B →
  mat_shape T B (v_s_of cl mask rewards values est).
Proof.
  intros Hc Hm Hr Hv He. unfold v_s_of, mat_add, row_add.
  apply mat_shape_op; [done|].
  apply backward_shape; [|done..].
  by apply diff_value_per_step_shape.
Qed.

Lemma tensor_map_shape (T B : nat) (f : R → R) (d : tensor) :
  tensor_shape T B d → tensor_shape T B (tensor_map f d).
Proof.
  destruct d as [m|c]; simpl.
  - intros [Hl Hf]. split; [by rewrite length_map|].
    apply Forall_fmap. eapply Forall_impl; [exact Hf|].
    intros r Hr. simpl. by rewrite length_map.
  - intros [Hl Hf]. split; [by rewrite length_map|].
    apply Forall_fmap. eapply Forall_impl; [exact Hf|].
    intros r [Hr Hne]. simpl. split; [by rewrite length_map|].
    apply Forall_fmap. eapply Forall_impl; [exact Hne|].
    intros acts Ha. simpl. by destruct acts.
Qed.

Lemma weight_advantage_shape (T B : nat) (w : tensor) (adv : mat) :
  tensor_shape T B w → mat_shape T B adv →
  tensor_shape T B (weight_advantage w adv).
Proof.
  destruct w as [m|c]; simpl.
  - intros Hm Ha. by apply mat_shape_op.
  - revert c adv. induction T as [|T IH]; intros c adv [Hl Hf] Ha.
    + destruct c; [|discriminate]. split; [done|constructor].
    + destruct c as [|r c]; [discriminate|].
      apply mat_shape_cons_inv in Ha as (a & adv' & -> & Hla & Ha).
      apply Forall_cons in Hf as [[Hr Hne] Hf]. simpl in Hl.
      destruct (IH c adv') as [Hl' Hf']; [split; [lia|done] | done |].
      split; [simpl; lia|]. constructor; [|done]. split.
      * rewrite length_zip_with. lia.
      * clear -Hne. revert a. induction Hne as [|acts r Hacts _ IHr];
          intros a; [constructor|].
        destruct a as [|x a]; [constructor|]. simpl. constructor; [|apply IHr].
        by destruct acts.
Qed.

Lemma mat_same_shape (T B : nat) (a b : mat) :
  mat_shape T B a → mat_shape T B b →
  Forall2 (Forall2 (λ _ _, True)) a b.
Proof.
  intros [Hla Hfa] [Hlb Hfb].
  apply Forall2_same_length_lookup_2; [congruence|].
  intros i x y Hx Hy. apply Forall2_true; [done|].
  rewrite Forall_lookup in Hfa. rewrite Forall_lookup in Hfb.
  rewrite (Hfa i x Hx), (Hfb i y Hy). done.
Qed.

Lemma cube_weight_same_shape (T B : nat) (dc : cube) (g : R → R) (A : mat) :
  length dc = T → Forall (λ r, length r = B) dc → mat_shape T B A →
  Forall2 (Forall2 (Forall2 (λ _ _, True))) dc
    (zip_with (zip_with (λ acts a, map (λ w, w * a) acts))
              (map (map (map g)) dc) A).
Proof.
  intros Hl Hf [HlA HfA].
  apply Forall2_same_length_lookup_2.
  { rewrite length_zip_with, length_map. lia. }
  intros t drow xrow Hd Hx.
  apply lookup_zip_with_Some in Hx as (crow & arow & -> & Hc & Ha).
  rewrite list_lookup_fmap, Hd in Hc. injection Hc as <-.
  rewrite Forall_lookup in Hf. rewrite Forall_lookup in HfA.
  pose proof (Hf t drow Hd) as Hld. pose proof (HfA t arow Ha) as Hla.
  apply Forall2_same_length_lookup_2.
  { rewrite length_zip_with, length_map. lia. }
  intros b acts xs Hacts Hxs.
  apply lookup_zip_with_Some in Hxs as (cacts & a & -> & Hca & _).
  rewrite list_lookup_fmap, Hacts in Hca. injection Hca as <-.
  apply Forall2_true; [done|]. by rewrite !length_map.
Qed.

(** X2: On a well-shaped rollout of at least one step, with both clamps equal
    to 1, ImpalaLearner._vtrace_returns returns a result: the value targets
    have shape [seq, batch], and the weighted advantage and the importance
    have the shape of log_prob_diffs: the same number of dimensions and,
    entry for entry, the same lengths down to the number of actions. *)
Theorem vtrace_returns_shapes (T B : nat) (d : tensor)
    (mask rewards values : mat) (est : row) :
  well_shaped T B d mask rewards values est → (0 < T)%nat →
  ∃ v_s adv imp,
    _vtrace_returns d mask rewards values est 1 1 = Ok (v_s, adv, imp) ∧
    mat_shape T B v_s ∧ tensor_shape T B adv ∧ tensor_shape T B imp ∧
    tensor_Forall2 (λ _ _, True) d adv ∧ tensor_Forall2 (λ _ _, True) d imp.
Proof.
  intros Hws HT. eexists _, _, _.
  split; [by apply (vtrace_returns_ok T B)|].
  destruct Hws as [Hd Hm Hr Hv He].
  pose proof (clamped_importance_value_shape T B d 1 Hd) as Hw.
  pose proof (v_s_of_shape T B _ _ _ _ est Hw Hm Hr Hv He) as Hvs.
  assert (mat_shape T B
            (advantage_of
               (v_s_of (clamped_importance_value d 1) mask rewards values est)
               mask rewards values est)) as Hadv.
  { unfold advantage_of, mat_sub, mat_add, mat_mul, row_sub, row_add, row_mul.
    destruct T as [|T]; [lia|].
    repeat apply mat_shape_op; try done. by apply shift_cat_shape. }
  split; [done|]. split.
  { apply weight_advantage_shape; [|done].
    by apply tensor_map_shape, tensor_map_shape. }
  split; [by apply tensor_map_shape|]. split.
  - destruct d as [dm|dc]; simpl.
    + apply (mat_same_shape T B); [done|].
      apply mat_shape_op; [|done].
      pose proof (tensor_map_shape T B (clamp_max 1) _
                    (tensor_map_shape T B exp (T2 dm) Hd)) as Hpg.
      exact Hpg.
    + destruct Hd as [Hl Hf].
      pose proof (tensor_map_map exp (clamp_max 1) (T3 dc)) as Hmm.
      simpl in Hmm. injection Hmm as ->.
      apply (cube_weight_same_shape T B); [done| |done].
      eapply Forall_impl; [exact Hf|]. by intros r [? _].
  - by apply tensor_Forall2_map.
Qed.

Lemma vtrace_returns_shapes_witness :
  ∃ v_s adv imp,
    _vtrace_returns (T3 [[[0; -1]]; [[1; 2]]]) [[1]; [0]] [[2]; [3]] [[3]; [4]] [4] 1 1
      = Ok (v_s, adv, imp) ∧
    mat_shape 2 1 v_s ∧ tensor_shape 2 1 adv ∧ tensor_shape 2 1 imp ∧
    tensor_Forall2 (λ _ _, True) (T3 [[[0; -1]]; [[1; 2]]]) adv ∧
    tensor_Forall2 (λ _ _, True) (T3 [[[0; -1]]; [[1; 2]]]) imp.
Proof. apply (vtrace_returns_shapes 2 1); [shapes | lia]. Defined.


(** *** The targets step by step *)

Lemma v_s_of_nil (est : row) : v_s_of [] [] [] [] est = [].
Proof. reflexivity. Qed.

Lemma v_s_of_drop (B : nat) (k : nat) : ∀ (T : nat) (cl mask rewards values : mat)
    (est : row),
  mat_shape T B cl → mat_shape T B mask → mat_shape T B rewards →
  mat_shape T B values →
  drop k (v_s_of cl mask rewards values est) =
  v_s_of (drop k cl) (drop k mask) (drop k rewards) (drop k values) est.
Proof.
  induction k as [|k IH]; intros T cl mask rewards values est Hc Hm Hr Hv.
  { by rewrite !drop_0. }
  destruct T as [|T].
  - apply mat_shape_nil in Hc as ->. apply mat_shape_nil in Hm as ->.
    apply mat_shape_nil in Hr as ->. apply mat_shape_nil in Hv as ->.
    reflexivity.
  - apply mat_shape_cons_inv in Hc as (c0 & cs & -> & _ & Hc).
    apply mat_shape_cons_inv in Hm as (m0 & ms & -> & _ & Hm).
    apply mat_shape_cons_inv in Hr as (r0 & rs & -> & _ & Hr).
    apply mat_shape_cons_inv in Hv as (V0 & Vs & -> & _ & Hv).
    rewrite v_s_of_cons. simpl. by apply (IH T).
Qed.

Lemma mat_shape_drop (T B k : nat) (m : mat) :
  mat_shape T B m → mat_shape (T - k) B (drop k m).
Proof.
  intros [Hl Hf]. split; [by rewrite length_drop, Hl|].
  by apply Forall_drop.
Qed.

Lemma mat_shape_lookup (T B t : nat) (m : mat) (r : row) :
  mat_shape T B m → m !! t = Some r → length r = B.
Proof.
  intros [_ Hf] Hr. rewrite Forall_lookup in Hf. by apply (Hf t).
Qed.

Lemma row_recursion_last (B : nat) : ∀ V c r m est : row,
  length V = B → length c = B → length r = B → length m = B → length est = B →
  row_add V
    (row_add (row_mul c (row_sub (row_add r (row_mul m est)) V))
             (row_mul_nstep (row_mul m c) (Scalar 0))) =
  row_add (row_add V (row_mul c (row_sub (row_add r (row_mul m est)) V)))
          (row_mul (row_mul m c) (row_sub est est)).
Proof. unfold row_add, row_mul, row_sub. rows B. Qed.

Lemma row_recursion_inner (B : nat) : ∀ V c r m V1 N1 : row,
  length V = B → length c = B → length r = B → length m = B →
  length V1 = B → length N1 = B →
  row_add V
    (row_add (row_mul c (row_sub (row_add r (row_mul m V1)) V))
             (row_mul_nstep (row_mul m c) (Row N1))) =
  row_add (row_add V (row_mul c (row_sub (row_add r (row_mul m V1)) V)))
          (row_mul (row_mul m c) (row_sub (row_add V1 N1) V1)).
Proof. unfold row_add, row_mul, row_sub. rows B. Qed.

(** The target of step [t] from the target of step [t + 1], on the
    recursion [v_s_of]. *)
Lemma v_s_of_step (T B t : nat) (cl mask rewards values : mat)
    (est V r m c : row) :
  mat_shape T B cl → mat_shape T B mask → mat_shape T B rewards →
  mat_shape T B values → length est = B →
  values !! t = Some V → rewards !! t = Some r → mask !! t = Some m →
  cl !! t = Some c →
  let v_s := v_s_of cl mask rewards values est in
  let V_next := default est (values !! S t) in
  let v_next := default est (v_s !! S t) in
  v_s !! t =
  Some (row_add
          (row_add V (row_mul c (row_sub (row_add r (row_mul m V_next)) V)))
          (row_mul (row_mul m c) (row_sub v_next V_next))).
Proof.
  intros Hc Hm Hr Hv He LV Lr Lm Lc v_s V_next v_next.
  pose proof (mat_shape_lookup _ _ _ _ _ Hv LV) as HlV.
  pose proof (mat_shape_lookup _ _ _ _ _ Hr Lr) as Hlr.
  pose proof (mat_shape_lookup _ _ _ _ _ Hm Lm) as Hlm.
  pose proof (mat_shape_lookup _ _ _ _ _ Hc Lc) as Hlc.
  assert (v_s !! t = drop t v_s !! 0%nat) as ->
    by (rewrite lookup_drop; f_equal; lia).
  assert (v_s !! S t = drop (S t) v_s !! 0%nat) as Hnext
    by (rewrite lookup_drop; f_equal; lia).
  subst v_next. rewrite Hnext. subst v_s.
  rewrite !(v_s_of_drop B _ T) by done.
  rewrite (drop_S _ _ _ LV), (drop_S _ _ _ Lr), (drop_S _ _ _ Lm),
    (drop_S _ _ _ Lc).
  rewrite v_s_of_cons. simpl. f_equal.
  pose proof (mat_shape_drop T B (S t) _ Hc) as Hc'.
  pose proof (mat_shape_drop T B (S t) _ Hm) as Hm'.
  pose proof (mat_shape_drop T B (S t) _ Hr) as Hr'.
  pose proof (mat_shape_drop T B (S t) _ Hv) as Hv'.
  pose proof (backward_shape B _ _ _ _
    (diff_value_per_step_shape B _ _ _ _ _ est Hc' Hm' Hr' Hv' He) Hm' Hc')
    as Hb.
  subst V_next.
  assert (values !! S t = drop (S t) values !! 0%nat) as ->
    by (rewrite lookup_drop; f_equal; lia).
  unfold v_s_of.
  generalize dependent (drop (S t) values). intros Vs Hv'.
  generalize dependent (drop (S t) cl).
  generalize dependent (drop (S t) mask).
  generalize dependent (drop (S t) rewards). intros rs Hr' ms Hm' cs Hc' Hb.
  destruct (T - S t)%nat as [|n].
  - apply mat_shape_nil in Hv' as ->. apply mat_shape_nil in Hb as ->.
    simpl. by apply (row_recursion_last B).
  - apply mat_shape_cons_inv in Hv' as (V1 & Vs' & -> & HV1 & _).
    apply mat_shape_cons_inv in Hb as (N1 & Ns & Hb & HN1 & _).
    rewrite Hb. simpl. by apply (row_recursion_inner B).
Qed.


(** X3: The value targets of ImpalaLearner._vtrace_returns obey the V-trace
    recursion at every step t of a well-shaped rollout: v_s[t] = V[t] + c[t] *
    (r[t] + mask[t] * V[t+1] - V[t]) + mask[t] * c[t] * (v_s[t+1] - V[t+1]),
    where c is the clamped importance (meaned over the actions) and both V and
    v_s past the last step are the estimated value. *)
Theorem vtrace_targets_recursion (T B t : nat) (d : tensor)
    (mask rewards values : mat) (est V r m c : row) :
  well_shaped T B d mask rewards values est →
  values !! t = Some V → rewards !! t = Some r → mask !! t = Some m →
  clamped_importance_value d 1 !! t = Some c →
  ∃ v_s adv imp,
    _vtrace_returns d mask rewards values est 1 1 = Ok (v_s, adv, imp) ∧
    let V_next := default est (values !! S t) in
    let v_next := default est (v_s !! S t) in
    v_s !! t =
    Some (row_add
            (row_add V (row_mul c (row_sub (row_add r (row_mul m V_next)) V)))
            (row_mul (row_mul m c) (row_sub v_next V_next))).
Proof.
  intros Hws LV Lr Lm Lc.
  assert (0 < T)%nat as HT.
  { destruct Hws as [_ _ _ [Hl _] _]. apply lookup_lt_Some in LV. lia. }
  eexists _, _, _. split; [by apply (vtrace_returns_ok T B)|].
  destruct Hws as [Hd Hm Hr Hv He].
  apply (v_s_of_step T B); try done.
  by apply clamped_importance_value_shape.
Qed.

Lemma vtrace_targets_recursion_witness :
  ∃ v_s adv imp,
    _vtrace_returns (T2 [[1]; [-1]]) [[1]; [1]] [[3]; [4]] [[5]; [6]] [7] 1 1
      = Ok (v_s, adv, imp) ∧
    let V_next := default [7] ([[5]; [6]] !! 1%nat) in
    let v_next := default [7] (v_s !! 1%nat) in
    v_s !! 0%nat =
    Some (row_add
            (row_add [5]
               (row_mul [clamp_max 1 (exp 1)]
                  (row_sub (row_add [3] (row_mul [1] V_next)) [5])))
            (row_mul (row_mul [1] [clamp_max 1 (exp 1)]) (row_sub v_next V_next))).
Proof.
  apply (vtrace_targets_recursion 2 1 0 (T2 [[1]; [-1]])); by shapes.
Defined.

Lemma row_terminal_step (B : nat) : ∀ V c r m Vn vn : row,
  length V = B → length c = B → length r = B → length m = B →
  length Vn = B → length vn = B → Forall (λ x, x = 0) m →
  row_add (row_add V (row_mul c (row_sub (row_add r (row_mul m Vn)) V)))
          (row_mul (row_mul m c) (row_sub vn Vn)) =
  row_add V (row_mul c (row_sub r V)).
Proof. unfold row_add, row_mul, row_sub. rows B. Qed.

Lemma length_default_lookup (T B i : nat) (m : mat) (est : row) :
  mat_shape T B m → length est = B → length (default est (m !! i)) = B.
Proof.
  intros Hm He. destruct (m !! i) as [r|] eqn:Hr; simpl; [|done].
  by apply (mat_shape_lookup T B i m).
Qed.

(** X4: At a step t whose discount_terminal_mask row is zero (every
    environment ends its episode there) the value target of
    ImpalaLearner._vtrace_returns is V[t] + c[t] * (r[t] - V[t]): no value and
    no target of a later step, and not the estimated value, enters it. *)
Theorem vtrace_terminal_step_cuts_bootstrap (T B t : nat) (d : tensor)
    (mask rewards values : mat) (est V r m c : row) :
  well_shaped T B d mask rewards values est →
  values !! t = Some V → rewards !! t = Some r → mask !! t = Some m →
  clamped_importance_value d 1 !! t = Some c →
  Forall (λ x, x = 0) m →
  ∃ v_s adv imp,
    _vtrace_returns d mask rewards values est 1 1 = Ok (v_s, adv, imp) ∧
    v_s !! t = Some (row_add V (row_mul c (row_sub r V))).
Proof.
  intros Hws LV Lr Lm Lc Hzero.
  assert (0 < T)%nat as HT.
  { destruct Hws as [_ _ _ [Hl _] _]. apply lookup_lt_Some in LV. lia. }
  eexists _, _, _. split; [by apply (vtrace_returns_ok T B)|].
  destruct Hws as [Hd Hm Hr Hv He].
  pose proof (clamped_importance_value_shape T B d 1 Hd) as Hw.
  rewrite (v_s_of_step T B t _ _ _ _ est V r m c) by done.
  cbv zeta. f_equal. apply (row_terminal_step B); try done.
  - by apply (mat_shape_lookup T B t values).
  - by apply (mat_shape_lookup T B t (clamped_importance_value d 1)).
  - by apply (mat_shape_lookup T B t rewards).
  - by apply (mat_shape_lookup T B t mask).
  - by apply (length_default_lookup T).
  - apply (length_default_lookup T); [|done]. by apply v_s_of_shape.
Qed.

Lemma vtrace_terminal_step_cuts_bootstrap_witness :
  ∃ v_s adv imp,
    _vtrace_returns (T2 [[-1]; [2]]) [[0]; [1]] [[3]; [4]] [[5]; [6]] [7] 1 1
      = Ok (v_s, adv, imp) ∧
    v_s !! 0%nat =
      Some (row_add [5] (row_mul [clamp_max 1 (exp (-1))] (row_sub [3] [5]))).
Proof.
  apply (vtrace_terminal_step_cuts_bootstrap 2 1 0 (T2 [[-1]; [2]])
           [[0]; [1]] [[3]; [4]] [[5]; [6]] [7] [5] [3] [0]); by shapes.
Defined.

(** *** On-policy advantage *)

Lemma td_returns_unfold (T B : nat) : ∀ (rewards mask : mat) (est : row),
  mat_shape T B rewards → mat_shape T B mask →
  mat_add rewards
    (mat_mul mask (shift_cat (nstep_td_returns rewards mask est) est)) =
  nstep_td_returns rewards mask est.
Proof.
  induction T as [|T IH]; intros rewards mask est Hr Hm.
  { apply mat_shape_nil in Hr as ->. reflexivity. }
  apply mat_shape_cons_inv in Hr as (r & rs & -> & Hlr & Hr).
  apply mat_shape_cons_inv in Hm as (m & ms & -> & Hlm & Hm).
  specialize (IH rs ms est Hr Hm). simpl.
  unfold shift_cat in *. simpl.
  destruct T as [|T].
  - apply mat_shape_nil in Hr as ->. apply mat_shape_nil in Hm as ->.
    reflexivity.
  - apply mat_shape_cons_inv in Hr as (r1 & rs' & -> & _ & Hr).
    apply mat_shape_cons_inv in Hm as (m1 & ms' & -> & _ & Hm).
    simpl in *. f_equal. exact IH.
Qed.

Lemma row_mul_ones (B : nat) : ∀ c x : row,
  length c = B → length x = B → Forall (λ w, w = 1) c → row_mul c x = x.
Proof. unfold row_mul. rows B. Qed.

Lemma mat_mul_ones (T B : nat) : ∀ c x : mat,
  mat_shape T B c → mat_shape T B x → Forall (Forall (λ w, w = 1)) c →
  mat_mul c x = x.
Proof.
  induction T as [|T IH]; intros c x Hc Hx Hone.
  { apply mat_shape_nil in Hc as ->. by apply mat_shape_nil in Hx as ->. }
  apply mat_shape_cons_inv in Hc as (c0 & cs & -> & Hc0 & Hc).
  apply mat_shape_cons_inv in Hx as (x0 & xs & -> & Hx0 & Hx).
  apply Forall_cons in Hone as [H0 Hone]. simpl.
  f_equal; [by apply (row_mul_ones B) | by apply IH].
Qed.

Lemma nstep_td_returns_shape (T B : nat) : ∀ (rewards mask : mat) (est : row),
  mat_shape T B rewards → mat_shape T B mask → length est = B →
  mat_shape T B (nstep_td_returns rewards mask est).
Proof.
  induction T as [|T IH]; intros rewards mask est Hr Hm He.
  { apply mat_shape_nil in Hr as ->. split; [done|constructor]. }
  apply mat_shape_cons_inv in Hr as (r & rs & -> & Hlr & Hr).
  apply mat_shape_cons_inv in Hm as (m & ms & -> & Hlm & Hm).
  simpl. apply mat_shape_cons; [|by apply IH].
  repeat apply length_row_op; try done.
  apply (length_hd_shape B T); [by apply IH | done].
Qed.

(** X5: With two-dimensional log_prob_diffs that are all zero (on policy) and
    unit clamps, ImpalaLearner._vtrace_returns returns the n-step bootstrapped
    returns as value targets and, as weighted advantage, these returns minus
    the values: the importance weights drop out of the advantage as well. *)
Theorem vtrace_on_policy_advantage (T B : nat) (diffs : mat)
    (mask rewards values : mat) (est : row) :
  well_shaped T B (T2 diffs) mask rewards values est → (0 < T)%nat →
  Forall (Forall (λ x, x = 0)) diffs →
  ∃ imp,
    _vtrace_returns (T2 diffs) mask rewards values est 1 1 =
    Ok (nstep_td_returns rewards mask est,
        T2 (mat_sub (nstep_td_returns rewards mask est) values),
        imp).
Proof.
  intros Hws HT Hzero. eexists.
  rewrite (vtrace_returns_ok T B) by done. cbv zeta.
  destruct Hws as [Hd Hm Hr Hv He].
  assert (tensor_Forall (λ x, 0 <= x) (T2 diffs)) as Hnn.
  { simpl. eapply Forall_impl; [exact Hzero|]. intros rw Hrw.
    eapply Forall_impl; [exact Hrw|]. intros x ->. lra. }
  pose proof (clamped_importance_value_shape T B _ 1 Hd) as Hw.
  pose proof (clamped_importance_value_ones T B _ Hd Hnn) as Hones.
  rewrite (v_s_of_on_policy B T) by done.
  unfold advantage_of. rewrite (td_returns_unfold T B) by done.
  change (clamped_importance_pg (T2 diffs) 1)
    with (T2 (clamped_importance_value (T2 diffs) 1)).
  simpl weight_advantage. rewrite (mat_mul_ones T B); [reflexivity|done| |done].
  apply mat_shape_op; [|done]. by apply nstep_td_returns_shape.
Qed.

Lemma vtrace_on_policy_advantage_witness :
  ∃ imp,
    _vtrace_returns (T2 [[0; 0]; [0; 0]]) [[1; 0]; [1; 1]] [[1; 2]; [3; 4]]
                    [[5; 6]; [7; 8]] [9; 10] 1 1 =
    Ok (nstep_td_returns [[1; 2]; [3; 4]] [[1; 0]; [1; 1]] [9; 10],
        T2 (mat_sub (nstep_td_returns [[1; 2]; [3; 4]] [[1; 0]; [1; 1]] [9; 10])
                    [[5; 6]; [7; 8]]),
        imp).
Proof.
  apply (vtrace_on_policy_advantage 2 2); [shapes | lia | shapes].
Defined.

(** *** Values that already satisfy the one-step equation *)

Lemma row_zero_diff (B : nat) : ∀ c x : row,
  length c = B → length x = B →
  Forall (λ z, z = 0) (row_mul c (row_sub x x)).
Proof.
  unfold row_mul, row_sub. induction B as [|B IH]; intros c x Hc Hx.
  - apply nil_length_inv in Hc as ->. constructor.
  - destruct c; [discriminate|]. destruct x; [discriminate|].
    simpl in *. constructor; [lra|]. apply IH; lia.
Qed.

Lemma row_add_zero (B : nat) : ∀ V d m c : row, ∀ n : nstep,
  length V = B → length d = B → length m = B → length c = B →
  Forall (λ z, z = 0) d →
  n = Scalar 0 ∨ (∃ l, n = Row l ∧ length l = B ∧ Forall (λ z, z = 0) l) →
  Forall (λ z, z = 0) (row_add d (row_mul_nstep (row_mul m c) n)) ∧
  length (row_add d (row_mul_nstep (row_mul m c) n)) = B.
Proof.
  intros V d m c n HV Hd Hm Hc Hz Hn. split.
  - destruct Hn as [-> | (l & -> & Hl & Hlz)]; simpl.
    + unfold row_add, row_mul. clear HV V. revert d m c Hd Hm Hc Hz.
      induction B as [|B IH]; intros d m c Hd Hm Hc Hz.
      * apply nil_length_inv in Hd as ->. constructor.
      * destruct d; [discriminate|]. destruct m; [discriminate|].
        destruct c; [discriminate|]. apply Forall_cons in Hz as [-> Hz].
        simpl in *. constructor; [lra|]. apply IH; auto; lia.
    + unfold row_add, row_mul. clear HV V. revert d m c l Hd Hm Hc Hz Hl Hlz.
      induction B as [|B IH]; intros d m c l Hd Hm Hc Hz Hl Hlz.
      * apply nil_length_inv in Hd as ->. constructor.
      * destruct d; [discriminate|]. destruct m; [discriminate|].
        destruct c; [discriminate|]. destruct l; [discriminate|].
        apply Forall_cons in Hz as [-> Hz].
        apply Forall_cons in Hlz as [-> Hlz].
        simpl in *. constructor; [lra|]. apply IH; auto; lia.
  - apply length_row_op; [done|]. apply length_row_mul_nstep.
    + by apply length_row_op.
    + intros l ->. destruct Hn as [?|(l' & Heq & Hl & _)]; [discriminate|].
      by injection Heq as <-.
Qed.

Lemma backward_zero (T B : nat) : ∀ diff mask cl : mat,
  mat_shape T B diff → mat_shape T B mask → mat_shape T B cl →
  Forall (Forall (λ z, z = 0)) diff →
  Forall (Forall (λ z, z = 0)) (backward diff mask cl) ∧
  mat_shape T B (backward diff mask cl).
Proof.
  induction T as [|T IH]; intros diff mask cl Hd Hm Hc Hz.
  { apply mat_shape_nil in Hd as ->. simpl. repeat split; constructor. }
  apply mat_shape_cons_inv in Hd as (d0 & ds & -> & Hd0 & Hd).
  apply mat_shape_cons_inv in Hm as (m0 & ms & -> & Hm0 & Hm).
  apply mat_shape_cons_inv in Hc as (c0 & cs & -> & Hc0 & Hc).
  apply Forall_cons in Hz as [Hz0 Hz].
  destruct (IH ds ms cs Hd Hm Hc Hz) as [IHz IHs]. simpl.
  destruct (row_add_zero B d0 d0 m0 c0 (acc_of (backward ds ms cs)))
    as [Hz' Hl']; try done.
  { destruct (backward ds ms cs) as [|n ns]; [by left|]. right.
    exists n. apply Forall_cons in IHz as [? _].
    destruct IHs as [_ IHs]. apply Forall_cons in IHs as [? _]. done. }
  split; [by constructor | by apply mat_shape_cons].
Qed.

Lemma row_add_zero_r (B : nat) : ∀ V z : row,
  length V = B → length z = B → Forall (λ x, x = 0) z → row_add V z = V.
Proof. unfold row_add. rows B. Qed.

Lemma mat_add_zero_r (T B : nat) : ∀ V z : mat,
  mat_shape T B V → mat_shape T B z → Forall (Forall (λ x, x = 0)) z →
  mat_add V z = V.
Proof.
  induction T as [|T IH]; intros V z HV Hz Hzero.
  { by apply mat_shape_nil in HV as ->. }
  apply mat_shape_cons_inv in HV as (V0 & Vs & -> & HV0 & HV).
  apply mat_shape_cons_inv in Hz as (z0 & zs & -> & Hz0 & Hz).
  apply Forall_cons in Hzero as [H0 Hzero]. simpl.
  f_equal; [by apply (row_add_zero_r B) | by apply IH].
Qed.

Lemma mat_zero_diff (T B : nat) : ∀ c x : mat,
  mat_shape T B c → mat_shape T B x →
  Forall (Forall (λ z, z = 0)) (mat_mul c (mat_sub x x)).
Proof.
  induction T as [|T IH]; intros c x Hc Hx.
  { apply mat_shape_nil in Hc as ->. constructor. }
  apply mat_shape_cons_inv in Hc as (c0 & cs & -> & Hc0 & Hc).
  apply mat_shape_cons_inv in Hx as (x0 & xs & -> & Hx0 & Hx).
  simpl. constructor; [by apply (row_zero_diff B) | by apply IH].
Qed.

Lemma v_s_of_consistent (T B : nat) (cl mask rewards values : mat) (est : row) :
  mat_shape T B cl → mat_shape T B mask → mat_shape T B rewards →
  mat_shape T B values → length est = B →
  mat_add rewards (mat_mul mask (shift_cat values est)) = values →
  v_s_of cl mask rewards values est = values.
Proof.
  intros Hw Hm Hr Hv He Hfix. unfold v_s_of.
  destruct (backward_zero T B
    (diff_value_per_step cl mask rewards values est) mask cl) as [Hz Hs];
    try done.
  - by apply diff_value_per_step_shape.
  - unfold diff_value_per_step. rewrite Hfix. by apply (mat_zero_diff T B).
  - by apply (mat_add_zero_r T B).
Qed.

(** X6: If the values already satisfy V[t] = r[t] + mask[t] * V[t+1] along the
    rollout (with the estimated value after the last step),
    ImpalaLearner._vtrace_returns returns the values themselves as value
    targets, whatever the log-probability differences are. *)
Theorem vtrace_consistent_values_fixed (T B : nat) (d : tensor)
    (mask rewards values : mat) (est : row) :
  well_shaped T B d mask rewards values est → (0 < T)%nat →
  mat_add rewards (mat_mul mask (shift_cat values est)) = values →
  ∃ adv imp,
    _vtrace_returns d mask rewards values est 1 1 = Ok (values, adv, imp).
Proof.
  intros Hws HT Hfix. eexists _, _.
  rewrite (vtrace_returns_ok T B) by done. cbv zeta.
  destruct Hws as [Hd Hm Hr Hv He].
  pose proof (clamped_importance_value_shape T B d 1 Hd) as Hw.
  rewrite (v_s_of_consistent T B) by done. reflexivity.
Qed.

Lemma vtrace_consistent_values_fixed_witness :
  ∃ adv imp,
    _vtrace_returns (T2 [[-1]; [2]]) [[1]; [0]] [[1]; [3]] [[1 + 1 * (3 + 0 * 7)]; [3 + 0 * 7]]
                    [7] 1 1 =
    Ok ([[1 + 1 * (3 + 0 * 7)]; [3 + 0 * 7]], adv, imp).
Proof.
  apply (vtrace_consistent_values_fixed 2 1); [shapes | lia | reflexivity].
Defined.


(** *** The importance ratios and their ceilings *)





End vtrace_more.

(** ** The rollout cache: clearing, writing, reading *)

Section rollout_more.
Import ACRollout ACRolloutInv.
Context {V : Type}.
Implicit Types (self : t V) (k : string).

(** X8: ACRollout.clear on a cache whose field lists are all empty returns the
    same cache: same keys, same (empty) lists, same horizon and normalizer; it
    does not raise. *)
Theorem rollout_clear_empty_is_noop self :
  (∀ k l, fields self !! k = Some l → l = []) → clear self = self.
Proof.
  intros Hempty. destruct self as [f n norm]. unfold clear, set_fields. simpl in *.
  f_equal. apply map_eq. intros k. rewrite lookup_fmap.
  destruct (f !! k) as [l|] eqn:Hk; simpl; [|done].
  by rewrite (Hempty k l Hk).
Qed.

(** The values an experience brings for the key [k], in order. *)
Lemma write_forward_appends (actions : V) (experience : list (string * V)) :
  ∀ self,
  Forall (λ kv, is_Some (fields self !! kv.1)) experience →
  (write_forward actions experience self).2 = Ok () ∧
  ∀ k l, fields self !! k = Some l →
    fields (write_forward actions experience self).1 !! k =
    Some (l ++ (filter (λ kv, kv.1 = k) experience).*2).
Proof.
  induction experience as [|[k0 v0] rest IH]; intros self Hall.
  { split; [done|]. intros k l Hk. simpl. by rewrite app_nil_r. }
  apply Forall_cons in Hall as [[l0 Hk0] Hall]. simpl in Hk0. simpl.
  rewrite Hk0. unfold andthen. rewrite (append_ok k0 v0 self l0 Hk0).
  set (s1 := set_fields (<[k0 := l0 ++ [v0]]> (fields self)) self).
  destruct (IH s1) as [Hok Hlook].
  { eapply Forall_impl; [exact Hall|]. intros kv [l Hl]. subst s1. simpl.
    destruct (decide (k0 = kv.1)) as [->|Hne].
    - rewrite lookup_insert_eq. eauto.
    - rewrite lookup_insert_ne by done. eauto. }
  split; [done|]. intros k l Hk.
  destruct (decide (k0 = k)) as [->|Hne].
  - rewrite (Hlook k (l0 ++ [v0])) by (subst s1; simpl; apply lookup_insert_eq).
    rewrite filter_cons_True by done. simpl.
    rewrite <- app_assoc. simpl. rewrite Hk0 in Hk. by injection Hk as ->.
  - rewrite (Hlook k l) by (subst s1; simpl; by rewrite lookup_insert_ne).
    by rewrite filter_cons_False.
Qed.

(** X9: ACRollout.write_forward with an experience whose keys are all declared
    does not raise, leaves the set of keys unchanged, and appends to every
    field, in iteration order, exactly the values the experience holds for
    that key (fields the experience does not mention are unchanged). *)
Theorem rollout_write_forward_declared (actions : V)
    (experience : list (string * V)) self :
  Forall (λ kv, is_Some (fields self !! kv.1)) experience →
  (write_forward actions experience self).2 = Ok () ∧
  dom (fields (write_forward actions experience self).1) = dom (fields self) ∧
  ∀ k l, fields self !! k = Some l →
    fields (write_forward actions experience self).1 !! k =
    Some (l ++ (filter (λ kv, kv.1 = k) experience).*2).
Proof.
  intros Hall. destruct (write_forward_appends actions experience self Hall).
  split; [done|]. split; [apply write_forward_dom | done].
Qed.

(** X10: ACRollout.write_forward is not atomic: when the experience holds an
    undeclared key k after declared ones, the call raises
    KeyError('Incompatible rollout key: k') and the cache keeps the appends
    made for the entries before k; the entries after k are not written. *)
Theorem rollout_write_forward_keeps_prefix (actions : V)
    (pre post : list (string * V)) (k : string) (v : V) self :
  Forall (λ kv, is_Some (fields self !! kv.1)) pre →
  fields self !! k = None →
  (write_forward actions (pre ++ (k, v) :: post) self).2 =
    Raise (KeyError ("Incompatible rollout key: " +:+ k)) ∧
  (write_forward actions (pre ++ (k, v) :: post) self).1 =
    (write_forward actions pre self).1.
Proof.
  revert self. induction pre as [|[k0 v0] pre IH]; intros self Hall Hnone.
  { simpl. by rewrite Hnone. }
  apply Forall_cons in Hall as [[l0 Hk0] Hall]. simpl in Hk0. simpl.
  rewrite Hk0. unfold andthen. rewrite (append_ok k0 v0 self l0 Hk0).
  apply IH.
  - eapply Forall_impl; [exact Hall|]. intros kv [l Hl]. simpl.
    destruct (decide (k0 = kv.1)) as [->|Hne].
    + rewrite lookup_insert_eq. eauto.
    + rewrite lookup_insert_ne by done. eauto.
  - simpl. rewrite lookup_insert_ne; [done|]. intros ->. congruence.
Qed.

(** One [write_env]: what each field holds afterwards. *)
Lemma write_env_fields obs rewards terminals infos self ls lr lt :
  fields self !! "states" = Some ls → fields self !! "rewards" = Some lr →
  fields self !! "terminals" = Some lt →
  write_env obs rewards terminals infos self =
  (set_fields
     (<["terminals" := lt ++ [terminals]]>
        (<["rewards" := lr ++ [reward_normalizer self rewards]]>
           (<["states" := ls ++ [obs]]> (fields self)))) self, Ok ()).
Proof.
  intros Hs Hr Ht. unfold write_env, andthen.
  rewrite (append_ok "states" obs self ls Hs).
  rewrite (append_ok "rewards" _ _ lr) by (simpl; by rewrite lookup_insert_ne).
  rewrite (append_ok "terminals" _ _ lt)
    by (simpl; by rewrite !lookup_insert_ne).
  reflexivity.
Qed.

(** X11: After a sequence of ACRollout.write_env calls, read() shows under
    'states' the observations, under 'rewards' the rewards passed through
    reward_normalizer and under 'terminals' the terminals, each appended in
    call order to what the field held before; every other field is unchanged
    and infos is dropped. *)
Theorem rollout_write_envs_then_read (steps : list (V * V * V * V)) :
  ∀ self ls lr lt,
  fields self !! "states" = Some ls → fields self !! "rewards" = Some lr →
  fields self !! "terminals" = Some lt →
  let self' := (write_envs steps self).1 in
  (write_envs steps self).2 = Ok () ∧
  read self' !! "states" = Some (ls ++ map (λ st, st.1.1.1) steps) ∧
  read self' !! "rewards" =
    Some (lr ++ map (λ st, reward_normalizer self st.1.1.2) steps) ∧
  read self' !! "terminals" = Some (lt ++ map (λ st, st.1.2) steps) ∧
  (∀ k, k ≠ "states" → k ≠ "rewards" → k ≠ "terminals" →
        read self' !! k = fields self !! k).
Proof.
  induction steps as [|[[[obs rewards] terminals] infos] rest IH];
    intros self ls lr lt Hs Hr Ht.
  { simpl. rewrite !app_nil_r. done. }
  cbn [write_envs]. unfold andthen.
  rewrite (write_env_fields obs rewards terminals infos self ls lr lt) by done.
  set (s1 := set_fields _ self).
  destruct (IH s1 (ls ++ [obs]) (lr ++ [reward_normalizer self rewards])
              (lt ++ [terminals])) as (Hok & Hst & Hrw & Htm & Hother).
  - subst s1. simpl. rewrite !lookup_insert_ne by done; by rewrite lookup_insert_eq.
  - subst s1. simpl. rewrite lookup_insert_ne by done; by rewrite lookup_insert_eq.
  - subst s1. simpl. by rewrite lookup_insert_eq.
  - cbv zeta. split; [done|]. rewrite Hst, Hrw, Htm.
    rewrite <- !app_assoc. simpl. repeat split; try done.
    intros k H1 H2 H3. rewrite (Hother k) by done. subst s1. simpl.
    by rewrite !lookup_insert_ne.
Qed.

Lemma env_aligned_init (n : Z) (f : V → V) : env_aligned (__init__ n f).
Proof. exists [], [], []. repeat split. Qed.

Lemma env_aligned_write_env obs rewards terminals infos self :
  env_aligned self → env_aligned (write_env obs rewards terminals infos self).1.
Proof.
  intros (ls & lr & lt & Hs & Hr & Ht & H1 & H2).
  rewrite (write_env_fields obs rewards terminals infos self ls lr lt) by done.
  exists (ls ++ [obs]), (lr ++ [reward_normalizer self rewards]),
    (lt ++ [terminals]). simpl.
  rewrite !length_app. simpl.
  repeat split; try lia.
  - rewrite !lookup_insert_ne by done; by rewrite lookup_insert_eq.
  - rewrite lookup_insert_ne by done; by rewrite lookup_insert_eq.
  - by rewrite lookup_insert_eq.
Qed.

Lemma env_aligned_clear self : env_aligned self → env_aligned (clear self).
Proof.
  intros (ls & lr & lt & Hs & Hr & Ht & _).
  exists [], [], []. unfold clear. simpl. rewrite !lookup_fmap, Hs, Hr, Ht.
  repeat split.
Qed.

Lemma write_forward_other_keys (actions : V) (experience : list (string * V))
    (k : string) : ∀ self,
  Forall (λ kv, kv.1 ≠ k) experience →
  fields (write_forward actions experience self).1 !! k = fields self !! k.
Proof.
  induction experience as [|[k0 v0] rest IH]; intros self Hall; [done|].
  apply Forall_cons in Hall as [Hne Hall]. simpl in Hne. simpl.
  destruct (fields self !! k0) as [l0|] eqn:Hk0; [|done].
  unfold andthen. rewrite (append_ok k0 v0 self l0 Hk0).
  rewrite IH by done. simpl. by rewrite lookup_insert_ne.
Qed.

(** X12: In every state of an ACRollout reached from the constructor by
    write_env, clear and write_forward calls whose experience does not name
    'states', 'rewards' or 'terminals', these three fields exist and hold the
    same number of entries: terminals align index for index with rewards and
    observations. *)
Theorem rollout_env_fields_aligned self :
  collecting self → env_aligned self.
Proof.
  induction 1 as [n f|self o r tm i _ IH|self a e _ IH Hkeys|self _ IH].
  - apply env_aligned_init.
  - by apply env_aligned_write_env.
  - destruct IH as (ls & lr & lt & Hs & Hr & Ht & H1 & H2).
    exists ls, lr, lt.
    rewrite !write_forward_other_keys; [done|..];
      (eapply Forall_impl; [exact Hkeys|]; intros kv (? & ? & ?); done).
  - by apply env_aligned_clear.
Qed.

End rollout_more.

Lemma rollout_clear_empty_is_noop_witness :
  ACRollout.clear (ACRollout.__init__ (V:=nat) 5 (λ x, x)) =
  ACRollout.__init__ 5 (λ x, x).
Proof.
  apply rollout_clear_empty_is_noop. intros k l Hk.
  assert (ACRollout.fields (ACRollout.clear (ACRollout.__init__ (V:=nat) 5 (λ x, x))) !! k
          = Some l) as Hc.
  { unfold ACRollout.clear. simpl ACRollout.fields in *. rewrite lookup_fmap.
    rewrite Hk. simpl. f_equal.
    unfold ACRollout.__init__ in Hk. simpl in Hk.
    repeat (rewrite lookup_insert in Hk; case_decide;
            [by injection Hk as <- |]).
    by rewrite lookup_empty in Hk. }
  by apply clear_fields in Hc.
Defined.

Lemma rollout_write_forward_declared_witness :
  let self := ACRollout.__init__ (V:=nat) 5 (λ x, x) in
  let experience := [("values", 1%nat); ("log_probs", 2%nat); ("values", 3%nat)] in
  (ACRollout.write_forward 0%nat experience self).2 = Ok () ∧
  dom (ACRollout.fields (ACRollout.write_forward 0%nat experience self).1)
    = dom (ACRollout.fields self) ∧
  ∀ k l, ACRollout.fields self !! k = Some l →
    ACRollout.fields (ACRollout.write_forward 0%nat experience self).1 !! k =
    Some (l ++ (filter (λ kv, kv.1 = k) experience).*2).
Proof.
  intros self experience.
  apply (rollout_write_forward_declared 0%nat experience self).
  repeat constructor; eexists; reflexivity.
Defined.

Lemma rollout_write_forward_keeps_prefix_witness :
  let self := ACRollout.__init__ (V:=nat) 5 (λ x, x) in
  (ACRollout.write_forward 0%nat ([("values", 1%nat)] ++ ("foo", 2%nat) :: [("entropies", 3%nat)]) self).2 =
    Raise (KeyError ("Incompatible rollout key: " +:+ "foo")) ∧
  (ACRollout.write_forward 0%nat ([("values", 1%nat)] ++ ("foo", 2%nat) :: [("entropies", 3%nat)]) self).1 =
    (ACRollout.write_forward 0%nat [("values", 1%nat)] self).1.
Proof.
  intros self.
  apply (rollout_write_forward_keeps_prefix 0%nat [("values", 1%nat)]
           [("entropies", 3%nat)] "foo" 2%nat self).
  - repeat constructor; eexists; reflexivity.
  - reflexivity.
Defined.

Lemma rollout_write_envs_then_read_witness :
  let self := ACRollout.__init__ (V:=nat) 2 (λ x, 10 * x)%nat in
  let steps := [(1, 2, 3, 4); (5, 6, 7, 8)]%nat in
  let self' := (ACRollout.write_envs steps self).1 in
  (ACRollout.write_envs steps self).2 = Ok () ∧
  ACRollout.read self' !! "states" = Some ([] ++ map (λ st, st.1.1.1) steps) ∧
  ACRollout.read self' !! "rewards" =
    Some ([] ++ map (λ st, ACRollout.reward_normalizer self st.1.1.2) steps) ∧
  ACRollout.read self' !! "terminals" = Some ([] ++ map (λ st, st.1.2) steps) ∧
  (∀ k, k ≠ "states" → k ≠ "rewards" → k ≠ "terminals" →
        ACRollout.read self' !! k = ACRollout.fields self !! k).
Proof.
  intros self steps.
  apply (rollout_write_envs_then_read steps self [] [] []); reflexivity.
Defined.

Lemma rollout_env_fields_aligned_witness :
  ACRolloutInv.env_aligned
    (ACRollout.write_forward 0%nat [("values", 9%nat)]
       (ACRollout.write_env 1%nat 2%nat 3%nat 4%nat
          (ACRollout.__init__ (V:=nat) 2 (λ x, x))).1).1.
Proof.
  apply rollout_env_fields_aligned.
  apply ACRolloutInv.collect_write_forward.
  - apply ACRolloutInv.collect_write_env, ACRolloutInv.collect_init.
  - repeat constructor; discriminate.
Defined.

(** ** The replay cache: frames, the constructor, sampling *)

Section replay_more.
Context {C : Type} (uninit : C) (one_minus : C → C) (raw : nat → Z)
  (namedtuple_accepts : list string → bool)
  (shape_repr : list C → string) (array_repr : list (list C) → string).
Local Open Scope Z_scope.
Import ExperienceReplay ReplayInv.
#[local] Existing Instance M_ret.
#[local] Existing Instance M_bind.

Implicit Types (s self : t C) (k : string) (v : list C).

(** *** Steps and the relations they keep *)

Lemma always_bind {A B : Type} (R : t C → t C → Prop)
    (m : M C A) (f : A → M C B) :
  (∀ a b c, R a b → R b c → R a c) →
  always R m → (∀ a, always R (f a)) → always R (m ≫= f).
Proof.
  intros Htrans Hm Hf s. unfold mbind, M_bind.
  specialize (Hm s). destruct (m s) as [s1 [a|e]]; simpl in *; [|done].
  eapply Htrans; [exact Hm | apply Hf].
Qed.

Lemma always_pure {A : Type} (R : t C → t C → Prop) (m : M C A) :
  (∀ a, R a a) → (∀ s, (m s).1 = s) → always R m.
Proof. intros Hrefl Hm s. rewrite Hm. apply Hrefl. Qed.

Lemma always_modify (R : t C → t C → Prop) (f : t C → t C) :
  (∀ s, R s (f s)) → always R (modify f).
Proof. intros Hf s. apply Hf. Qed.

Lemma always_for_each {A : Type} (R : t C → t C → Prop)
    (body : A → M C unit) (l : list A) :
  (∀ a, R a a) → (∀ a b c, R a b → R b c → R a c) →
  (∀ a, always R (body a)) → always R (for_each body l).
Proof.
  intros Hrefl Htrans Hb. induction l as [|a l IH]; simpl.
  - by apply always_pure.
  - apply always_bind; auto.
Qed.

Lemma array_frame_refl s : array_frame s s.
Proof. by repeat split. Qed.

Lemma array_frame_trans (a b c : t C) : array_frame a b → array_frame b c → array_frame a c.
Proof.
  intros (H1 & H2 & H3 & H4) (G1 & G2 & G3 & G4).
  repeat split; congruence.
Qed.

Lemma key_frame_refl k s : key_frame k s s.
Proof. done. Qed.

Lemma key_frame_trans k (a b c : t C) : key_frame k a b → key_frame k b c → key_frame k a c.
Proof. unfold key_frame. congruence. Qed.

Lemma sample_frame_refl s : sample_frame s s.
Proof. by repeat split. Qed.

Lemma sample_frame_trans (a b c : t C) :
  sample_frame a b → sample_frame b c → sample_frame a c.
Proof.
  intros (H1 & H2 & H3 & H4) (G1 & G2 & G3 & G4).
  repeat split; congruence.
Qed.

Lemma ensure_array_array_frame k line : always array_frame (ensure_array uninit k line).
Proof.
  intros s. unfold ensure_array, mbind, M_bind, get, print, modify, lift, mret,
    M_ret. simpl.
  destruct (arrays s !! k); [apply array_frame_refl|]. simpl.
  destruct (np_empty uninit (max_len s) (nb_env s)); by repeat split.
Qed.

Lemma ensure_array_key_frame k line k0 :
  k ≠ k0 → always (key_frame k0) (ensure_array uninit k line).
Proof.
  intros Hne s. unfold ensure_array, mbind, M_bind, get, print, modify, lift,
    mret, M_ret, key_frame. simpl.
  destruct (arrays s !! k); [done|]. simpl.
  destruct (np_empty uninit (max_len s) (nb_env s)); simpl; [|done].
  by rewrite lookup_insert_ne.
Qed.

Lemma store_array_frame k v : always array_frame (store k v).
Proof.
  intros s. unfold store, mbind, M_bind, get, modify, lift, raise. simpl.
  destruct (arrays s !! k) as [a|]; [|apply array_frame_refl]. simpl.
  destruct (setitem a (_current_index s) v); by repeat split.
Qed.

Lemma store_key_frame k v k0 : k ≠ k0 → always (key_frame k0) (store k v).
Proof.
  intros Hne s. unfold store, mbind, M_bind, get, modify, lift, raise,
    key_frame. simpl.
  destruct (arrays s !! k) as [a|]; [|done]. simpl.
  destruct (setitem a (_current_index s) v); simpl; [|done].
  by rewrite lookup_insert_ne.
Qed.

Lemma write_forward_array_frame kwargs :
  always array_frame (write_forward uninit shape_repr kwargs).
Proof.
  unfold write_forward.
  apply always_for_each;
    [apply array_frame_refl | apply array_frame_trans|].
  intros [k v]. apply always_bind; [apply array_frame_trans|..].
  - apply ensure_array_array_frame.
  - intros _. apply store_array_frame.
Qed.

(** The part of [write_env] that writes the arrays. *)
Lemma write_env_obs_array_frame (obs : list (string * list C)) :
  always array_frame
    (for_each (λ kv : string * list C,
       ensure_array uninit ("obs-" +:+ kv.1) (kv.1 +:+ " " +:+ shape_repr kv.2);;
       store ("obs-" +:+ kv.1) kv.2) obs).
Proof.
  apply always_for_each;
    [apply array_frame_refl | apply array_frame_trans|].
  intros [k v]. apply always_bind; [apply array_frame_trans|..].
  - apply ensure_array_array_frame.
  - intros _. apply store_array_frame.
Qed.

Lemma obs_key_ne (k : string) : "obs-" +:+ k ≠ "obs".
Proof. discriminate. Qed.

Lemma obs_key_ne_internals (k : string) : "obs-" +:+ k ≠ "internals".
Proof. discriminate. Qed.

Lemma write_env_obs_key_frame (obs : list (string * list C)) (k0 : string) :
  (∀ k, "obs-" +:+ k ≠ k0) →
  always (key_frame k0)
    (for_each (λ kv : string * list C,
       ensure_array uninit ("obs-" +:+ kv.1) (kv.1 +:+ " " +:+ shape_repr kv.2);;
       store ("obs-" +:+ kv.1) kv.2) obs).
Proof.
  intros Hne. apply always_for_each;
    [apply key_frame_refl | apply key_frame_trans|].
  intros [k v]. apply always_bind; [apply key_frame_trans|..].
  - by apply ensure_array_key_frame.
  - intros _. by apply store_key_frame.
Qed.


Lemma fixed_frame_trans (a b c : t C) :
  fixed_frame a b → fixed_frame b c → fixed_frame a c.
Proof. intros (H1 & H2 & H3) (G1 & G2 & G3). repeat split; congruence. Qed.

Lemma always_weaken {A : Type} (R R' : t C → t C → Prop) (m : M C A) :
  (∀ a b, R a b → R' a b) → always R m → always R' m.
Proof. intros Hw Hm s. apply Hw, Hm. Qed.

Lemma array_frame_fixed (a b : t C) : array_frame a b → fixed_frame a b.
Proof. intros (H1 & H2 & H3 & H4). done. Qed.

Lemma write_env_fixed_frame obs rewards terminals infos :
  always fixed_frame
    (write_env uninit one_minus shape_repr obs rewards terminals infos).
Proof.
  unfold write_env.
  apply always_bind; [apply fixed_frame_trans|..].
  { eapply always_weaken; [apply array_frame_fixed|].
    apply write_env_obs_array_frame. }
  intros _. apply always_bind; [apply fixed_frame_trans|..].
  { eapply always_weaken; [apply array_frame_fixed | apply store_array_frame]. }
  intros _. apply always_bind; [apply fixed_frame_trans|..].
  { eapply always_weaken; [apply array_frame_fixed | apply store_array_frame]. }
  intros _ s. unfold mbind, M_bind, get, lift, modify. simpl.
  destruct (pymod _ _); by repeat split.
Qed.

Lemma write_env_key_frame obs rewards terminals infos (k0 : string) :
  (∀ k, "obs-" +:+ k ≠ k0) → k0 ≠ "rewards" → k0 ≠ "terminals" →
  always (key_frame k0)
    (write_env uninit one_minus shape_repr obs rewards terminals infos).
Proof.
  intros Hobs Hr Ht. unfold write_env.
  apply always_bind; [apply key_frame_trans|..].
  { by apply write_env_obs_key_frame. }
  intros _. apply always_bind; [apply key_frame_trans|..].
  { by apply store_key_frame. }
  intros _. apply always_bind; [apply key_frame_trans|..].
  { by apply store_key_frame. }
  intros _ s. unfold mbind, M_bind, get, lift, modify, key_frame. simpl.
  by destruct (pymod _ _).
Qed.

(** *** The constructor *)

Lemma init_inv (nb batch seq_len raw_max_len : Z) s :
  __init__ uninit nb batch seq_len raw_max_len = Ok s →
  0 ≤ raw_max_len ∧ 0 < nb ∧
  s = mk
        (<["terminals" := replicate (Z.to_nat raw_max_len)
                            (replicate (Z.to_nat nb) uninit)]>
           (<["rewards" := replicate (Z.to_nat raw_max_len)
                             (replicate (Z.to_nat nb) uninit)]> ∅))
        nb (raw_max_len `div` nb) batch seq_len 100 [] 5 0 0 0%nat [].
Proof.
  unfold __init__, np_empty, floordiv.
  destruct (decide (raw_max_len < 0 ∨ nb < 0)) as [|Hnn]; [discriminate|].
  destruct (decide (nb = 0)); [discriminate|].
  intros Heq. injection Heq as <-. repeat split; lia.
Qed.


(** *** Sampling leaves the buffer alone *)

Lemma randint_sample_frame (low high size : Z) :
  always (C:=C) sample_frame (randint raw low high size).
Proof.
  intros s. unfold randint.
  destruct (decide (size = 0)); [apply sample_frame_refl|].
  destruct (decide (high ≤ low)); [apply sample_frame_refl|].
  destruct (decide (size < 0)); [apply sample_frame_refl|].
  by repeat split.
Qed.

Lemma print_sample_frame (line : string) : always (C:=C) sample_frame (print line).
Proof. intros s. by repeat split. Qed.

Lemma sample_indexes_sample_frame : always (C:=C) sample_frame (sample_indexes raw).
Proof.
  unfold sample_indexes. intros s. unfold mbind at 1, M_bind at 1, get.
  apply always_bind; [apply sample_frame_trans|apply randint_sample_frame|].
  intros a. apply always_pure; [apply sample_frame_refl | done].
Qed.

Lemma lift_pure {A : Type} (r : result A) s : (lift (C:=C) r s).1 = s.
Proof. done. Qed.

Lemma take_sample_frame (values : list (list C)) (flat worker : list Z) :
  always (C:=C) sample_frame (take array_repr values flat worker).
Proof.
  unfold take.
  apply always_bind; [apply sample_frame_trans|apply print_sample_frame|].
  intros _ s. unfold mbind, M_bind, get, lift, raise. simpl.
  destruct (traverse _ flat) as [[|x l]|]; simpl; apply sample_frame_refl.
Qed.

Lemma take_single_sample_frame (values : list (list C)) (inds worker : list Z) :
  always (C:=C) sample_frame (take_single values inds worker).
Proof.
  intros s. unfold take_single, mbind, M_bind, get, lift, raise. simpl.
  destruct (traverse _ inds) as [[|x l]|]; simpl; apply sample_frame_refl.
Qed.

Lemma take_items_sample_frame (items : list (string * list (list C)))
    (flat env_ind : list Z) :
  always (C:=C) sample_frame (take_items array_repr items flat env_ind).
Proof.
  induction items as [|[k a] rest IH]; simpl.
  - apply always_pure; [apply sample_frame_refl | done].
  - apply always_bind; [apply sample_frame_trans|apply take_sample_frame|].
    intros w. apply always_bind; [apply sample_frame_trans|apply IH|].
    intros r. apply always_pure; [apply sample_frame_refl | done].
Qed.

Lemma lookup_array_sample_frame k : always (C:=C) sample_frame (lookup_array (C:=C) k).
Proof.
  intros s. unfold lookup_array, mbind, M_bind, get, raise, mret, M_ret. simpl.
  destruct (arrays s !! k); apply sample_frame_refl.
Qed.

Lemma _read_sample_frame :
  always (C:=C) sample_frame (_read raw namedtuple_accepts array_repr).
Proof.
  unfold _read.
  apply always_bind; [apply sample_frame_trans|apply sample_indexes_sample_frame|].
  intros [[starts ends] flat] s0. unfold mbind at 1, M_bind at 1, get.
  apply always_bind; [apply sample_frame_trans|apply randint_sample_frame|].
  intros env_ind.
  apply always_bind; [apply sample_frame_trans|apply take_items_sample_frame|].
  intros rollout.
  apply always_bind; [apply sample_frame_trans|apply lookup_array_sample_frame|].
  intros obs.
  apply always_bind; [apply sample_frame_trans|apply take_single_sample_frame|].
  intros last_obs.
  apply always_bind; [apply sample_frame_trans|apply lookup_array_sample_frame|].
  intros internals.
  apply always_bind; [apply sample_frame_trans|apply take_single_sample_frame|].
  intros last_internals.
  destruct (namedtuple_accepts _);
    (apply always_pure; [apply sample_frame_refl | done]).
Qed.

(** A step that raises, whatever it raises. *)

Lemma raises_bind {A B : Type} (R : t C → t C → Prop)
    (m : M C A) (f : A → M C B) s :
  always R m → (∀ s1 a, R s s1 → raises (f a) s1) → raises (m ≫= f) s.
Proof.
  intros Hm Hf. unfold raises in *. unfold mbind, M_bind. specialize (Hm s).
  destruct (m s) as [s1 [a|e]]; simpl in *; [by apply Hf | eauto].
Qed.

Lemma lookup_array_missing k s :
  arrays s !! k = None → lookup_array k s = (s, Raise (KeyError k)).
Proof.
  intros Hk. unfold lookup_array, mbind, M_bind, get. simpl. by rewrite Hk.
Qed.

Lemma _read_needs_obs s :
  arrays s !! "obs" = None →
  raises (_read raw namedtuple_accepts array_repr) s.
Proof.
  intros Hobs. unfold _read.
  eapply raises_bind; [apply sample_indexes_sample_frame|].
  intros s1 [[starts ends] flat] (_ & _ & _ & Ha1).
  unfold mbind at 1, M_bind at 1, get.
  eapply raises_bind; [apply randint_sample_frame|].
  intros s2 env_ind (_ & _ & _ & Ha2).
  eapply raises_bind; [apply take_items_sample_frame|].
  intros s3 rollout (_ & _ & _ & Ha3).
  unfold raises, mbind, M_bind. rewrite lookup_array_missing by congruence.
  eauto.
Qed.

Lemma env_fed_state s :
  env_fed uninit one_minus shape_repr s →
  arrays s !! "obs" = None ∧ arrays s !! "internals" = None ∧
  _cached_rollout s = [] ∧ 0 < nb_env s.
Proof.
  induction 1
    as [nb batch seq_len ml s Hinit|s obs r tm i _ (IHo & IHi & IHc & IHn)].
  - apply init_inv in Hinit as (_ & Hnb & ->). simpl.
    rewrite !lookup_insert_ne by done. by rewrite lookup_empty.
  - split; [|split; [|split]].
    4:{ destruct (write_env_fixed_frame obs r tm i s) as (Hc & _).
        unfold config in Hc. injection Hc as -> _ _ _ _ _. done. }
    + rewrite <- IHo.
      apply (write_env_key_frame obs r tm i "obs"); [apply obs_key_ne|done..].
    + rewrite <- IHi.
      apply (write_env_key_frame obs r tm i "internals");
        [apply obs_key_ne_internals|done..].
    + rewrite <- IHc.
      by destruct (write_env_fixed_frame obs r tm i s) as (_ & ? & _).
Qed.

(** *** The queue of prepared batches *)

Lemma read_queue s :
  config (read raw namedtuple_accepts array_repr s).1 = config s ∧
  (length (_cached_rollout (read raw namedtuple_accepts array_repr s).1)
     ≤ length (_cached_rollout s))%nat.
Proof.
  destruct (_cached_rollout s) as [|b1 [|b2 rest]] eqn:Hq.
  - rewrite read_cache_miss by (rewrite Hq; simpl; lia).
    destruct (_read_sample_frame (set_stdout (stdout s ++ ["Cache miss"]) s))
      as (Hc & _ & Hq' & _).
    rewrite Hc, Hq'. simpl. by rewrite Hq.
  - rewrite read_cache_miss by (rewrite Hq; simpl; lia).
    destruct (_read_sample_frame (set_stdout (stdout s ++ ["Cache miss"]) s))
      as (Hc & _ & Hq' & _).
    rewrite Hc, Hq'. simpl. by rewrite Hq.
  - rewrite (read_pops_oldest raw namedtuple_accepts array_repr s b1 b2 rest Hq).
    simpl. split; [done|lia].
Qed.

Lemma cache_loop_queue s :
  Z.of_nat (length (_cached_rollout s)) ≤ max_cache s →
  config (_cache_loop_step raw namedtuple_accepts array_repr s).1 = config s ∧
  Z.of_nat (length (_cached_rollout
                      (_cache_loop_step raw namedtuple_accepts array_repr s).1))
    ≤ max_cache s.
Proof.
  intros Hle.
  assert (_cache_loop_step raw namedtuple_accepts array_repr s =
          if decide (Z.of_nat (length (_cached_rollout s)) < max_cache s)
          then (_read raw namedtuple_accepts array_repr ≫=
                  λ r, modify (λ self, set_cached (_cached_rollout self ++ [r]) self)) s
          else (s, Ok ())) as ->
    by (unfold _cache_loop_step, mbind at 1, M_bind at 1, get;
        by destruct (decide _)).
  destruct (decide (Z.of_nat (length (_cached_rollout s)) < max_cache s))
    as [Hlt|Hge]; [|done].
  unfold mbind, M_bind.
  destruct (_read_sample_frame s) as (Hc & _ & Hq & _).
  destruct (_read raw namedtuple_accepts array_repr s) as [s1 [r|e]];
    simpl in *.
  - split; [done|]. rewrite Hq, length_app. simpl. lia.
  - split; [done|]. rewrite Hq. lia.
Qed.

(** X14: In every state of an ExperienceReplay reached from the constructor by
    write_env, write_forward, clear, read and turns of the background loop,
    the queue of prepared batches holds at most max_cache = 5 batches, and
    max_cache and min_length keep the values 5 and 100 the constructor gave
    them. *)
Theorem replay_queue_bounded s :
  reachable uninit one_minus raw namedtuple_accepts shape_repr array_repr s →
  (length (_cached_rollout s) ≤ 5)%nat ∧ max_cache s = 5 ∧ min_length s = 100.
Proof.
  assert (∀ a b : t C, config b = config a →
            max_cache b = max_cache a ∧ min_length b = min_length a) as Hcfg.
  { intros a b Hab. unfold config in Hab. by injection Hab. }
  induction 1 as [nb batch seq_len ml s Hinit
                 |s obs r tm i _ (IHq & IHm & IHl)
                 |s kw _ (IHq & IHm & IHl)
                 |s _ IH
                 |s _ (IHq & IHm & IHl)
                 |s _ (IHq & IHm & IHl)].
  - apply init_inv in Hinit as (_ & _ & ->). simpl. repeat split; lia.
  - destruct (write_env_fixed_frame obs r tm i s) as (Hc & Hq & _).
    destruct (Hcfg _ _ Hc) as [-> ->]. rewrite Hq. done.
  - destruct (write_forward_array_frame kw s) as (Hc & _ & Hq & _).
    destruct (Hcfg _ _ Hc) as [-> ->]. rewrite Hq. done.
  - exact IH.
  - destruct (read_queue s) as [Hc Hq].
    destruct (Hcfg _ _ Hc) as [-> ->]. repeat split; auto; lia.
  - destruct (cache_loop_queue s) as [Hc Hq]; [lia|].
    destruct (Hcfg _ _ Hc) as [-> ->]. repeat split; auto; lia.
Qed.

(** *** Readiness *)

Lemma write_envs_counters
    (calls : list (list (string * list C) * list C * list C * list C)) :
  ∀ s, capacity_ok s → Forall (env_call_ok s) calls →
  let s' := (write_envs uninit one_minus shape_repr calls s).1 in
  capacity_ok s' ∧ min_length s' = min_length s ∧
  _num_inserted s' = _num_inserted s + Z.of_nat (length calls).
Proof.
  induction calls as [|[[[obs r] tm] i] rest IH]; intros s Hok Hcalls.
  { simpl. split; [done|]. split; [done|]. lia. }
  apply Forall_cons in Hcalls as [Hcall Hcalls].
  destruct (write_env_spec uninit one_minus shape_repr obs r tm i s Hok Hcall)
    as (s1 & E1 & Hok1 & _ & Hnb1 & Hnum1 & _).
  destruct (write_env_fixed_frame obs r tm i s) as (Hc & _).
  rewrite E1 in Hc. simpl in Hc.
  destruct (IH s1 Hok1) as (Hok2 & Hml2 & Hnum2).
  { eapply Forall_impl; [exact Hcalls|]. intros call.
    by apply env_call_ok_nb_env. }
  cbn [write_envs]. unfold mbind, M_bind. rewrite E1. cbv zeta in *.
  split; [done|]. split.
  - rewrite Hml2. unfold config in Hc. by injection Hc.
  - rewrite Hnum2, Hnum1. simpl length. lia.
Qed.

(** X15: For an ExperienceReplay constructed with room for at least one row
    (nb_env <= max_len), after n write_env calls whose observations, rewards
    and terminals hold one entry per environment, is_ready() is true exactly
    when n > 100: the threshold is strict, 100 writes are not enough. *)
Theorem replay_ready_after_min_length_writes
    (nb batch seq_len raw_max_len : Z) s
    (calls : list (list (string * list C) * list C * list C * list C)) :
  __init__ uninit nb batch seq_len raw_max_len = Ok s → nb ≤ raw_max_len →
  Forall (env_call_ok s) calls →
  is_ready (write_envs uninit one_minus shape_repr calls s).1 =
  bool_decide (100 < length calls)%nat.
Proof.
  intros Hinit Hle Hcalls.
  pose proof (init_inv _ _ _ _ _ Hinit) as (Hml & Hnb & Hs).
  destruct (init_capacity_ok uninit nb batch seq_len raw_max_len)
    as (s0 & E0 & Hok & _); [lia..|].
  rewrite Hinit in E0. injection E0 as <-.
  destruct (write_envs_counters calls s Hok Hcalls) as (_ & Hmin & Hnum).
  unfold is_ready. rewrite Hmin, Hnum. subst s. simpl.
  apply bool_decide_ext. lia.
Qed.

(** *** Reading too early *)

(** X16: ExperienceReplay.read() on a buffer with a batch size other than 0,
    whose length is at most rollout_len + 2 and whose queue holds at most one
    batch, prints 'Cache miss' and raises ValueError from the draw of the
    start indexes (empty range); it changes nothing else. *)
Theorem replay_read_short_buffer_raises s :
  (length (_cached_rollout s) ≤ 1)%nat →
  __len__ s ≤ rollout_len s + 2 →
  batch_size s ≠ 0 →
  read raw namedtuple_accepts array_repr s =
  (set_stdout (stdout s ++ ["Cache miss"]) s, Raise ValueError).
Proof.
  intros Hq Hlen Hbatch. rewrite read_cache_miss by done.
  unfold _read, sample_indexes.
  unfold mbind, M_bind, get, randint. simpl.
  unfold __len__ in *. simpl.
  rewrite decide_False by done. rewrite decide_True by lia. reflexivity.
Qed.


(** *** What the constructor returns *)

(** X17: When ExperienceReplay.__init__ returns a buffer, then max_len >= 0
    and nb_env > 0 were given, and the buffer has max_len = max_len // nb_env
    >= 0, the nb_env, batch size and rollout length given, cursor 0, insertion
    count 0, an empty queue, is not ready, has length 0 and holds exactly the
    arrays 'rewards' and 'terminals', of max_len rows (the argument, not the
    attribute) of nb_env entries. *)
Theorem replay_init_outcome (nb batch seq_len raw_max_len : Z) s :
  __init__ uninit nb batch seq_len raw_max_len = Ok s →
  0 ≤ raw_max_len ∧ 0 < nb ∧ max_len s = raw_max_len `div` nb ∧
  0 ≤ max_len s ∧ nb_env s = nb ∧ batch_size s = batch ∧
  rollout_len s = seq_len ∧ _current_index s = 0 ∧ _num_inserted s = 0 ∧
  _cached_rollout s = [] ∧ is_ready s = false ∧ __len__ s = 0 ∧
  dom (arrays s) = {["rewards"; "terminals"]} ∧
  ∀ k a, arrays s !! k = Some a →
    Z.of_nat (length a) = raw_max_len ∧
    Forall (λ row, Z.of_nat (length row) = nb) a.
Proof.
  intros Hinit. apply init_inv in Hinit as (Hml & Hnb & ->). simpl.
  assert (0 ≤ raw_max_len `div` nb) by (apply Z.div_pos; lia).
  unfold __len__. simpl. rewrite !dom_insert_L, dom_empty_L.
  do 12 (split; [done || lia|]). split; [done|].
  intros k a Hk.
  assert (a = replicate (Z.to_nat raw_max_len) (replicate (Z.to_nat nb) uninit))
    as ->.
  { destruct (decide (k = "terminals")) as [->|Hkt].
    { rewrite lookup_insert_eq in Hk. by injection Hk. }
    rewrite lookup_insert_ne in Hk by done.
    destruct (decide (k = "rewards")) as [->|Hkr].
    { rewrite lookup_insert_eq in Hk. by injection Hk. }
    rewrite lookup_insert_ne in Hk by done. by rewrite lookup_empty in Hk. }
  rewrite length_replicate. split; [lia|].
  apply Forall_replicate. rewrite length_replicate. lia.
Qed.

(** *** A buffer without room *)

(** X18: On an ExperienceReplay whose max_len is 0 (the constructor's max_len
    below nb_env), write_env raises and leaves max_len, nb_env, the cursor and
    the insertion count as they were. *)
Theorem replay_zero_capacity_write_env_raises s
    (obs : list (string * list C)) (rewards terminals infos : list C) :
  max_len s = 0 →
  ∃ s' e,
    write_env uninit one_minus shape_repr obs rewards terminals infos s
      = (s', Raise e) ∧
    counters s' = counters s.
Proof.
  intros Hzero. unfold write_env.
  unfold mbind at 1, M_bind at 1.
  destruct (write_env_obs_array_frame obs s) as (_ & Hc1 & _).
  destruct (for_each _ obs s) as [s1 [[]|e]]; simpl in Hc1; [|eauto].
  unfold mbind at 1, M_bind at 1.
  destruct (store_array_frame "rewards" rewards s1) as (_ & Hc2 & _).
  destruct (store "rewards" rewards s1) as [s2 [[]|e]]; simpl in Hc2;
    [|exists s2, e; split; [done|exact (eq_trans Hc2 Hc1)]].
  unfold mbind at 1, M_bind at 1.
  destruct (store_array_frame "terminals" (map one_minus terminals) s2)
    as (_ & Hc3 & _).
  destruct (store "terminals" _ s2) as [s3 [[]|e]]; simpl in Hc3;
    [|exists s3, e; split; [done|exact (eq_trans Hc3 (eq_trans Hc2 Hc1))]].
  assert (counters s3 = counters s) as Hc
    by exact (eq_trans Hc3 (eq_trans Hc2 Hc1)).
  assert (max_len s3 = 0) as Hml3.
  { unfold counters in Hc. injection Hc as -> _ _ _. done. }
  unfold mbind, M_bind, get, lift, pymod. simpl.
  rewrite Hml3. rewrite decide_True by done. simpl.
  exists s3, ZeroDivisionError. split; [done|exact Hc].
Qed.

(** *** What a write leaves in the arrays *)

Lemma store_present k v s (a : list (list C)) :
  arrays s !! k = Some a → 0 ≤ _current_index s < Z.of_nat (length a) →
  Forall (λ row, length row = length v) a →
  store k v s =
  (set_arrays (<[k := <[Z.to_nat (_current_index s) := v]> a]> (arrays s)) s,
   Ok ()).
Proof.
  intros Hk Hcur Hrows. unfold store, mbind, M_bind, get, lift, modify.
  simpl. rewrite Hk. simpl. by rewrite setitem_row.
Qed.

Lemma getitem_insert {A : Type} (xs : list A) (i : Z) (x : A) :
  0 ≤ i < Z.of_nat (length xs) → getitem (<[Z.to_nat i := x]> xs) i = Ok x.
Proof.
  intros Hi. unfold getitem. rewrite length_insert, index_in_range by done.
  rewrite list_lookup_insert_eq by lia. done.
Qed.

(** X19: On an ExperienceReplay with positive capacity and the cursor in
    range, write_env with observations, rewards and terminals of one entry
    per environment returns, and replaces exactly the row at the cursor of
    'rewards' by the rewards and of 'terminals' by 1 - terminals (the other
    rows are kept); reading the two arrays at the old cursor gives these rows
    back. *)
Theorem replay_write_env_stores_row s
    (obs : list (string * list C)) (rewards terminals infos : list C) :
  capacity_ok s → env_call_ok s (obs, rewards, terminals, infos) →
  ∃ s' old_r old_t new_r new_t,
    write_env uninit one_minus shape_repr obs rewards terminals infos s
      = (s', Ok ()) ∧
    arrays s !! "rewards" = Some old_r ∧ arrays s !! "terminals" = Some old_t ∧
    arrays s' !! "rewards" = Some new_r ∧ arrays s' !! "terminals" = Some new_t ∧
    new_r = <[Z.to_nat (_current_index s) := rewards]> old_r ∧
    new_t = <[Z.to_nat (_current_index s) := map one_minus terminals]> old_t ∧
    getitem new_r (_current_index s) = Ok rewards ∧
    getitem new_t (_current_index s) = Ok (map one_minus terminals).
Proof.
  intros Hok (Hobs & Hrew & Hterm). simpl in Hobs, Hrew, Hterm.
  unfold per_env in Hrew, Hterm.
  pose proof Hok as (Hpos & _ & Hcur & [old_r Hr] & [old_t Ht] & Hall & _).
  destruct (for_each_keeps (nb_env s)
    (λ kv : string * list C,
       ensure_array uninit ("obs-" +:+ kv.1) (kv.1 +:+ " " +:+ shape_repr kv.2);;
       store ("obs-" +:+ kv.1) kv.2) obs) with (self := s)
    as (s1 & E1 & Hok1 & Hc1 & _); [|done|done|].
  { eapply Forall_impl; [exact Hobs|]. intros kv Hkv.
    by apply (ensure_then_store_keeps uninit). }
  assert (arrays s1 !! "rewards" = Some old_r) as Hr1.
  { rewrite <- Hr.
    pose proof (write_env_obs_key_frame obs "rewards") as Hk.
    specialize (Hk ltac:(discriminate) s). rewrite E1 in Hk. exact Hk. }
  assert (arrays s1 !! "terminals" = Some old_t) as Ht1.
  { rewrite <- Ht.
    pose proof (write_env_obs_key_frame obs "terminals") as Hk.
    specialize (Hk ltac:(discriminate) s). rewrite E1 in Hk. exact Hk. }
  unfold counters in Hc1. injection Hc1 as Hml1 Hnb1 Hcur1 Hnum1.
  pose proof (Hall _ _ Hr) as Hlr. pose proof (Hall _ _ Ht) as Hlt.
  simpl in Hlr, Hlt.
  destruct Hok1 as (_ & _ & _ & _ & _ & _ & Hrows1).
  pose proof (Hrows1 _ _ Hr1) as Hwr. pose proof (Hrows1 _ _ Ht1) as Hwt.
  simpl in Hwr, Hwt. rewrite Hnb1 in Hwr, Hwt.
  exists (set_cursor ((_current_index s + 1) `mod` max_len s)
            (_num_inserted s + 1)
            (set_arrays
               (<["terminals" :=
                    <[Z.to_nat (_current_index s) := map one_minus terminals]> old_t]>
                  (<["rewards" := <[Z.to_nat (_current_index s) := rewards]> old_r]>
                     (arrays s1))) s1)),
    old_r, old_t, (<[Z.to_nat (_current_index s) := rewards]> old_r),
    (<[Z.to_nat (_current_index s) := map one_minus terminals]> old_t).
  split.
  { unfold write_env. unfold mbind at 1, M_bind at 1. rewrite E1.
    unfold mbind at 1, M_bind at 1.
    rewrite (store_present "rewards" rewards s1 old_r);
      [|done|lia|by rewrite Hrew].
    unfold mbind at 1, M_bind at 1.
    rewrite (store_present "terminals" _ _ old_t);
      [|simpl; by rewrite lookup_insert_ne | simpl; lia
       |by rewrite length_map, Hterm].
    unfold mbind, M_bind, get, lift, modify, pymod. simpl.
    rewrite Hml1, Hcur1, Hnum1. rewrite decide_False by lia. reflexivity. }
  split; [done|]. split; [done|]. simpl.
  split. { rewrite lookup_insert_ne by done. apply lookup_insert_eq. }
  split. { apply lookup_insert_eq. }
  split; [done|]. split; [done|].
  split; apply getitem_insert; lia.
Qed.


(** *** What a sampled batch holds *)

Lemma bind_Ok_inv {A B : Type} (m : M C A) (f : A → M C B) s s' (b : B) :
  (m ≫= f) s = (s', Ok b) →
  ∃ s1 a, m s = (s1, Ok a) ∧ f a s1 = (s', Ok b).
Proof.
  unfold mbind, M_bind. destruct (m s) as [s1 [a|e]]; [eauto|discriminate].
Qed.

Lemma traverse_Forall2 {A B : Type} (f : A → result B) (l : list A) :
  ∀ bs, traverse f l = Ok bs → Forall2 (λ a b, f a = Ok b) l bs.
Proof.
  induction l as [|a l IH]; intros bs Hbs; simpl in Hbs.
  { injection Hbs as <-. constructor. }
  destruct (f a) as [b|] eqn:Hfa; [|discriminate].
  destruct (traverse f l) as [bs'|]; [|discriminate].
  injection Hbs as <-. constructor; [done | by apply IH].
Qed.

Lemma randint_Ok_inv (low high size : Z) s s' (draws : list Z) :
  randint raw low high size s = (s', Ok draws) →
  length draws = Z.to_nat size ∧ Forall (λ x, low ≤ x < high) draws.
Proof.
  unfold randint. destruct (decide (size = 0)) as [->|].
  { intros Heq. injection Heq as _ <-. by split. }
  destruct (decide (high ≤ low)); [discriminate|].
  destruct (decide (size < 0)); [discriminate|].
  intros Heq. injection Heq as _ <-. split.
  - by rewrite length_map, length_seq.
  - apply Forall_fmap, Forall_true. intros i. simpl.
    pose proof (Z.mod_pos_bound (raw (np_random s + i)) (high - low)). lia.
Qed.

Lemma lookup_arange (lo hi : Z) (i : nat) :
  (i < Z.to_nat (hi - lo))%nat → arange lo hi !! i = Some (lo + Z.of_nat i).
Proof.
  intros Hi. unfold arange. rewrite list_lookup_fmap.
  by rewrite lookup_seq_lt.
Qed.

Lemma length_arange (lo hi : Z) : length (arange lo hi) = Z.to_nat (hi - lo).
Proof. unfold arange. by rewrite length_map, length_seq. Qed.

(** Lookup in the concatenation of chunks of one length. *)
Lemma lookup_concat_chunks {A : Type} (L : nat) (ls : list (list A)) :
  Forall (λ c, length c = L) ls →
  ∀ b t chunk, ls !! b = Some chunk → (t < L)%nat →
  concat ls !! (b * L + t)%nat = chunk !! t.
Proof.
  induction 1 as [|c ls Hc _ IH]; intros b t chunk Hb Ht; [done|].
  destruct b as [|b]; simpl in *.
  - injection Hb as ->. apply lookup_app_l. lia.
  - rewrite lookup_app_r by lia.
    replace (L + b * L + t - length c)%nat with (b * L + t)%nat by lia.
    by apply IH.
Qed.

Lemma length_concat_chunks {A : Type} (L : nat) (ls : list (list A)) :
  Forall (λ c, length c = L) ls → length (concat ls) = (length ls * L)%nat.
Proof.
  induction 1 as [|c ls Hc _ IH]; [done|].
  simpl. rewrite length_app, IH, Hc. lia.
Qed.

(** The windows of indexes that [sample_indexes] lays out. *)
Lemma windows_chunks (seq_len : Z) (starts : list Z) :
  Forall (λ c, length c = Z.to_nat seq_len)
         (zip_with arange starts (map (λ st, st + seq_len) starts)).
Proof.
  induction starts as [|st starts IH]; simpl; constructor; [|done].
  rewrite length_arange. f_equal. lia.
Qed.

Lemma windows_lookup (seq_len : Z) (starts : list Z) (b : nat) (st : Z) :
  starts !! b = Some st →
  zip_with arange starts (map (λ st, st + seq_len) starts) !! b =
  Some (arange st (st + seq_len)).
Proof.
  intros Hb. rewrite lookup_zip_with, Hb. simpl.
  by rewrite list_lookup_fmap, Hb.
Qed.

Lemma sample_indexes_Ok_inv s s' (starts ends flat : list Z) :
  sample_indexes raw s = (s', Ok (starts, ends, flat)) →
  sample_frame s s' ∧
  length starts = Z.to_nat (batch_size s) ∧
  Forall (λ st, 0 ≤ st < __len__ s - 2 - rollout_len s) starts ∧
  ends = map (λ st, st + rollout_len s) starts ∧
  flat = concat (zip_with arange starts ends).
Proof.
  intros Hs. pose proof (sample_indexes_sample_frame s) as Hf.
  rewrite Hs in Hf. split; [exact Hf|].
  unfold sample_indexes in Hs. unfold mbind at 1, M_bind at 1, get in Hs.
  apply bind_Ok_inv in Hs as (s1 & draws & Hr & Hret).
  apply randint_Ok_inv in Hr as [Hlen Hall].
  unfold mret, M_ret in Hret. injection Hret as _ <- <- <-. done.
Qed.

Lemma take_Ok_inv (values : list (list C)) (flat worker : list Z) s s'
    (w : list (list C)) :
  take array_repr values flat worker s = (s', Ok w) →
  ∃ sliced,
    Forall2 (λ i row, getitem values i = Ok row) flat sliced ∧
    Forall2 (λ (bw : nat * Z) win,
               Forall2 (λ (row : list C) c, getitem row bw.2 = Ok c)
                 (firstn (Z.to_nat (rollout_len s))
                    (skipn (bw.1 * Z.to_nat (rollout_len s)) sliced)) win)
            (zip (seq 0 (Z.to_nat (batch_size s))) worker) w.
Proof.
  unfold take. intros Ht.
  apply bind_Ok_inv in Ht as (s1 & [] & Hp & Ht).
  unfold print, modify in Hp. injection Hp as <-.
  unfold mbind at 1, M_bind at 1, get in Ht.
  apply bind_Ok_inv in Ht as (s2 & sliced & Hsl & Ht).
  unfold lift in Hsl. injection Hsl as <- Hsl.
  exists sliced. split; [by apply traverse_Forall2|].
  destruct sliced as [|r0 sliced]; [discriminate|].
  unfold lift in Ht. injection Ht as _ Ht.
  apply traverse_Forall2 in Ht. simpl in Ht.
  eapply Forall2_impl; [exact Ht|]. intros bw win Hwin. simpl in Hwin.
  by apply traverse_Forall2.
Qed.

Lemma take_single_Ok_inv (values : list (list C)) (inds worker : list Z) s s'
    (x : list C) :
  take_single values inds worker s = (s', Ok x) →
  ∃ sliced,
    Forall2 (λ i row, getitem values i = Ok row) inds sliced ∧
    Forall2 (λ (bw : nat * Z) c,
               ∃ row, sliced !! bw.1 = Some row ∧ getitem row bw.2 = Ok c)
            (zip (seq 0 (Z.to_nat (batch_size s))) worker) x.
Proof.
  unfold take_single. unfold mbind at 1, M_bind at 1, get. intros Ht.
  apply bind_Ok_inv in Ht as (s2 & sliced & Hsl & Ht).
  unfold lift in Hsl. injection Hsl as <- Hsl.
  exists sliced. split; [by apply traverse_Forall2|].
  destruct sliced as [|r0 sliced]; [discriminate|].
  unfold lift in Ht. injection Ht as _ Ht.
  apply traverse_Forall2 in Ht.
  eapply Forall2_impl; [exact Ht|]. intros bw c Hc. simpl in Hc.
  destruct ((r0 :: sliced) !! bw.1) as [row|]; [eauto|discriminate].
Qed.

Lemma take_items_Ok_inv (items : list (string * list (list C)))
    (flat env_ind : list Z) : ∀ s s' (r : gmap string (field C)),
  take_items array_repr items flat env_ind s = (s', Ok r) →
  ∀ k f, r !! k = Some f →
  ∃ values w sa sb,
    (k, values) ∈ items ∧ f = Windows w ∧ sample_frame s sa ∧
    take array_repr values flat env_ind sa = (sb, Ok w).
Proof.
  induction items as [|[k0 a0] rest IH]; intros s s' r Hr k f Hk.
  { simpl in Hr. injection Hr as _ <-. by rewrite lookup_empty in Hk. }
  simpl in Hr.
  apply bind_Ok_inv in Hr as (s1 & w & Htake & Hr).
  apply bind_Ok_inv in Hr as (s2 & r' & Hrest & Hret).
  unfold mret, M_ret in Hret. injection Hret as _ <-.
  pose proof (take_sample_frame a0 flat env_ind s) as Hf1.
  rewrite Htake in Hf1. simpl in Hf1.
  destruct (decide (k0 = k)) as [->|Hne].
  - rewrite lookup_insert_eq in Hk. injection Hk as <-.
    exists a0, w, s, s1. split; [apply list_elem_of_here|].
    split; [done|]. split; [apply sample_frame_refl | done].
  - rewrite lookup_insert_ne in Hk by done.
    destruct (IH s1 s2 r' Hrest k f Hk) as (values & w' & sa & sb & Hin & -> & Hfa & Ht).
    exists values, w', sa, sb. split; [by apply list_elem_of_further|].
    split; [done|]. split; [by eapply sample_frame_trans | done].
Qed.


Lemma lookup_array_Ok_inv k s s' (a : list (list C)) :
  lookup_array k s = (s', Ok a) → s' = s ∧ arrays s !! k = Some a.
Proof.
  unfold lookup_array, mbind, M_bind, get, mret, M_ret, raise. simpl.
  destruct (arrays s !! k); [|discriminate]. intros Heq. by injection Heq as <- <-.
Qed.

Lemma sample_frame_config (a b : t C) :
  sample_frame a b →
  batch_size b = batch_size a ∧ rollout_len b = rollout_len a ∧
  nb_env b = nb_env a ∧ arrays b = arrays a.
Proof.
  intros (Hc & _ & _ & Ha). unfold config in Hc. injection Hc as ? ? ? ? ? ?.
  done.
Qed.

(** The steps of a [_read] that returns. *)
Lemma _read_Ok_inv s s' (rollout : gmap string (field C)) :
  _read raw namedtuple_accepts array_repr s = (s', Ok rollout) →
  ∃ starts env_ind s2 s3 s4 s5 r obs_arr x int_arr y,
    length starts = Z.to_nat (batch_size s) ∧
    Forall (λ st, 0 ≤ st < __len__ s - 2 - rollout_len s) starts ∧
    length env_ind = Z.to_nat (batch_size s) ∧
    Forall (λ e, 0 ≤ e < nb_env s) env_ind ∧
    sample_frame s s2 ∧ sample_frame s s3 ∧ sample_frame s s4 ∧
    take_items array_repr (map_to_list (arrays s))
      (concat (zip_with arange starts (map (λ st, st + rollout_len s) starts)))
      env_ind s2 = (s3, Ok r) ∧
    arrays s !! "obs" = Some obs_arr ∧
    take_single obs_arr
      (map (λ e, e + 1) (map (λ st, st + rollout_len s) starts)) env_ind s3
      = (s4, Ok x) ∧
    arrays s !! "internals" = Some int_arr ∧
    take_single int_arr
      (map (λ e, e + 1) (map (λ st, st + rollout_len s) starts)) env_ind s4
      = (s5, Ok y) ∧
    rollout = <["last_internals" := Singles y]> (<["last_obs" := Singles x]> r).
Proof.
  unfold _read. intros Hr.
  apply bind_Ok_inv in Hr as (s1 & [[starts ends] flat] & Hix & Hr).
  apply sample_indexes_Ok_inv in Hix as (Hf1 & Hls & Hrange & -> & ->).
  unfold mbind at 1, M_bind at 1, get in Hr.
  apply bind_Ok_inv in Hr as (s2 & env_ind & Henv & Hr).
  pose proof (randint_sample_frame 0 (nb_env s1) (batch_size s1) s1) as Hf2.
  rewrite Henv in Hf2. simpl in Hf2.
  apply randint_Ok_inv in Henv as [Hle Hrange_e].
  apply bind_Ok_inv in Hr as (s3 & r & Hitems & Hr).
  pose proof (take_items_sample_frame (map_to_list (arrays s1))
    (concat (zip_with arange starts (map (λ st, st + rollout_len s) starts)))
    env_ind s2) as Hf3.
  rewrite Hitems in Hf3. simpl in Hf3.
  apply bind_Ok_inv in Hr as (s3' & obs_arr & Hobs & Hr).
  apply lookup_array_Ok_inv in Hobs as [-> Hobs].
  apply bind_Ok_inv in Hr as (s4 & x & Hx & Hr).
  pose proof (take_single_sample_frame obs_arr
    (map (λ e, e + 1) (map (λ st, st + rollout_len s) starts)) env_ind s3) as Hf4.
  rewrite Hx in Hf4. simpl in Hf4.
  apply bind_Ok_inv in Hr as (s4' & int_arr & Hint & Hr).
  apply lookup_array_Ok_inv in Hint as [-> Hint].
  apply bind_Ok_inv in Hr as (s5 & y & Hy & Hr).
  destruct (namedtuple_accepts _); [|discriminate].
  unfold mret, M_ret in Hr. injection Hr as _ <-.
  pose proof (sample_frame_trans _ _ _ Hf1 Hf2) as H02.
  pose proof (sample_frame_trans _ _ _ H02 Hf3) as H03.
  pose proof (sample_frame_trans _ _ _ H03 Hf4) as H04.
  destruct (sample_frame_config _ _ Hf1) as (Hb1 & Hl1 & Hn1 & Ha1).
  destruct (sample_frame_config _ _ H03) as (_ & _ & _ & Ha3).
  destruct (sample_frame_config _ _ H04) as (_ & _ & _ & Ha4).
  rewrite Hb1 in Hle. rewrite Hn1 in Hrange_e. rewrite Ha1 in Hitems.
  rewrite Ha3 in Hobs. rewrite Ha4 in Hint.
  exists starts, env_ind, s2, s3, s4, s5, r, obs_arr, x, int_arr, y.
  repeat split; try done; try apply H02; try apply H03; try apply H04.
Qed.

(** The windows of a batch, for the indexes that [_read] drew. *)
Lemma read_windows_of s (starts env_ind : list Z) s2 s3
    (r : gmap string (field C)) :
  length starts = Z.to_nat (batch_size s) →
  length env_ind = Z.to_nat (batch_size s) →
  sample_frame s s2 →
  take_items array_repr (map_to_list (arrays s))
    (concat (zip_with arange starts (map (λ st, st + rollout_len s) starts)))
    env_ind s2 = (s3, Ok r) →
  ∀ k w, r !! k = Some (Windows w) →
    ∃ values,
      arrays s !! k = Some values ∧
      length w = Z.to_nat (batch_size s) ∧
      ∀ b win, w !! b = Some win →
        ∃ st e,
          starts !! b = Some st ∧ env_ind !! b = Some e ∧
          length win = Z.to_nat (rollout_len s) ∧
          ∀ t c, win !! t = Some c →
            ∃ row, getitem values (st + Z.of_nat t) = Ok row ∧
                   getitem row e = Ok c.
Proof.
  intros Hls Hle H02 Hitems k w Hk.
  destruct (take_items_Ok_inv _ _ _ _ _ _ Hitems k _ Hk)
    as (values & w' & sa & sb & Hin & Hw & Hfa & Htake).
  injection Hw as <-.
  apply elem_of_map_to_list in Hin.
  exists values. split; [done|].
  pose proof (sample_frame_trans _ _ _ H02 Hfa) as H0a.
  destruct (sample_frame_config _ _ H0a) as (Hba & Hla & _ & _).
  apply take_Ok_inv in Htake as (sliced & Hsl & Hw).
  rewrite Hba, Hla in Hw.
  set (B := Z.to_nat (batch_size s)) in *.
  set (L := Z.to_nat (rollout_len s)) in *.
  pose proof (windows_chunks (rollout_len s) starts) as Hchunks. fold L in Hchunks.
  assert (length sliced = (B * L)%nat) as Hlsl.
  { rewrite <- (Forall2_length _ _ _ Hsl).
    rewrite (length_concat_chunks L) by done.
    rewrite length_zip_with, length_map. lia. }
  split.
  { rewrite <- (Forall2_length _ _ _ Hw), length_zip, length_seq. lia. }
  intros b win Hb.
  destruct (Forall2_lookup_r _ _ _ _ _ Hw Hb) as ([b' e] & Hzip & Hwin).
  apply lookup_zip_Some in Hzip as [Hseq He].
  apply lookup_seq in Hseq as [-> HbB]. simpl in *.
  destruct (lookup_lt_is_Some_2 starts b) as [st Hst]; [lia|].
  exists st, e. split; [done|]. split; [done|]. split.
  { rewrite <- (Forall2_length _ _ _ Hwin).
    rewrite length_take, length_drop, Hlsl. nia. }
  intros t c Ht.
  destruct (Forall2_lookup_r _ _ _ _ _ Hwin Ht) as (row & Hrow & Hc).
  apply lookup_take_Some in Hrow as [Hrow HtL].
  rewrite lookup_drop in Hrow.
  destruct (Forall2_lookup_r _ _ _ _ _ Hsl Hrow) as (i & Hi & Hget).
  rewrite (lookup_concat_chunks L _ Hchunks b t (arange st (st + rollout_len s)))
    in Hi; [|by apply windows_lookup | done].
  rewrite lookup_arange in Hi by (subst L; lia).
  injection Hi as <-. eauto.
Qed.

(** X20: When ExperienceReplay._read returns a batch, there are batch_size
    start indexes in [0, len - 2 - rollout_len) and batch_size environment
    indexes in [0, nb_env), shared by all fields, such that every field taken
    from an array has batch_size windows of rollout_len entries, and entry t
    of window b is the stored row start[b] + t at column env[b]: contiguous
    rows of one environment. *)
Theorem replay_read_windows s s' (rollout : gmap string (field C)) :
  _read raw namedtuple_accepts array_repr s = (s', Ok rollout) →
  ∃ starts env_ind : list Z,
    length starts = Z.to_nat (batch_size s) ∧
    length env_ind = Z.to_nat (batch_size s) ∧
    Forall (λ st, 0 ≤ st < __len__ s - 2 - rollout_len s) starts ∧
    Forall (λ e, 0 ≤ e < nb_env s) env_ind ∧
    ∀ k w, k ≠ "last_obs" → k ≠ "last_internals" →
      rollout !! k = Some (Windows w) →
      ∃ values,
        arrays s !! k = Some values ∧
        length w = Z.to_nat (batch_size s) ∧
        ∀ b win, w !! b = Some win →
          ∃ st e,
            starts !! b = Some st ∧ env_ind !! b = Some e ∧
            length win = Z.to_nat (rollout_len s) ∧
            ∀ t c, win !! t = Some c →
              ∃ row, getitem values (st + Z.of_nat t) = Ok row ∧
                     getitem row e = Ok c.
Proof.
  intros Hr.
  apply _read_Ok_inv in Hr
    as (starts & env_ind & s2 & s3 & s4 & s5 & r & obs_arr & x & int_arr & y &
        Hls & Hrange & Hle & Hrange_e & H02 & H03 & H04 & Hitems & _ & _ & _ & _
        & ->).
  exists starts, env_ind. do 4 (split; [done|]).
  intros k w Hk1 Hk2 Hk. rewrite !lookup_insert_ne in Hk by done.
  by apply (read_windows_of s starts env_ind s2 s3 r).
Qed.

(** X21: When ExperienceReplay._read returns a batch, its 'last_obs' and
    'last_internals' hold batch_size entries, and entry b is the row start[b]
    + rollout_len + 1 of the array 'obs' (resp. 'internals') at column env[b],
    where start[b] in [0, len - 2 - rollout_len) and env[b] in [0, nb_env) are
    the start and the environment of window b of every field of the same
    batch: the row is at most len - 2, and it is two rows past the last row
    start[b] + rollout_len - 1 of the window, not the row that follows it. *)
Theorem replay_read_last_rows s s' (rollout : gmap string (field C)) :
  _read raw namedtuple_accepts array_repr s = (s', Ok rollout) →
  ∃ (starts env_ind : list Z) obs_arr int_arr x y,
    length starts = Z.to_nat (batch_size s) ∧
    length env_ind = Z.to_nat (batch_size s) ∧
    Forall (λ st, 0 ≤ st < __len__ s - 2 - rollout_len s) starts ∧
    Forall (λ e, 0 ≤ e < nb_env s) env_ind ∧
    arrays s !! "obs" = Some obs_arr ∧
    arrays s !! "internals" = Some int_arr ∧
    rollout !! "last_obs" = Some (Singles x) ∧
    rollout !! "last_internals" = Some (Singles y) ∧
    length x = Z.to_nat (batch_size s) ∧ length y = Z.to_nat (batch_size s) ∧
    (∀ k w, k ≠ "last_obs" → k ≠ "last_internals" →
       rollout !! k = Some (Windows w) →
       ∃ values,
         arrays s !! k = Some values ∧
         length w = Z.to_nat (batch_size s) ∧
         ∀ b win, w !! b = Some win →
           ∃ st e,
             starts !! b = Some st ∧ env_ind !! b = Some e ∧
             length win = Z.to_nat (rollout_len s) ∧
             ∀ t c, win !! t = Some c →
               ∃ row, getitem values (st + Z.of_nat t) = Ok row ∧
                      getitem row e = Ok c) ∧
    ∀ b, (b < Z.to_nat (batch_size s))%nat →
      ∃ st e row_o row_i c_o c_i,
        starts !! b = Some st ∧ env_ind !! b = Some e ∧
        st + rollout_len s + 1 ≤ __len__ s - 2 ∧
        getitem obs_arr (st + rollout_len s + 1) = Ok row_o ∧
        getitem row_o e = Ok c_o ∧ x !! b = Some c_o ∧
        getitem int_arr (st + rollout_len s + 1) = Ok row_i ∧
        getitem row_i e = Ok c_i ∧ y !! b = Some c_i.
Proof.
  intros Hr.
  apply _read_Ok_inv in Hr
    as (starts & env_ind & s2 & s3 & s4 & s5 & r & obs_arr & x & int_arr & y &
        Hls & Hrange & Hle & Hrange_e & H02 & H03 & H04 & Hitems & Hobs & Hx
        & Hint & Hy & ->).
  exists starts, env_ind, obs_arr, int_arr, x, y.
  do 6 (split; [done|]).
  split. { rewrite lookup_insert_ne by done. apply lookup_insert_eq. }
  split. { apply lookup_insert_eq. }
  destruct (sample_frame_config _ _ H03) as (Hb3 & _).
  destruct (sample_frame_config _ _ H04) as (Hb4 & _).
  apply take_single_Ok_inv in Hx as (sl_o & Hso & Hxo).
  apply take_single_Ok_inv in Hy as (sl_i & Hsi & Hyi).
  rewrite Hb3 in Hxo. rewrite Hb4 in Hyi.
  set (B := Z.to_nat (batch_size s)) in *.
  assert (length (zip (seq 0 B) env_ind) = B) as Hlz
    by (rewrite length_zip, length_seq; lia).
  pose proof (Forall2_length _ _ _ Hxo) as Hlx.
  pose proof (Forall2_length _ _ _ Hyi) as Hly.
  split; [lia|]. split; [lia|]. split.
  { intros k w Hk1 Hk2 Hk. rewrite !lookup_insert_ne in Hk by done.
    by apply (read_windows_of s starts env_ind s2 s3 r). }
  intros b Hb.
  destruct (lookup_lt_is_Some_2 starts b) as [st Hst]; [lia|].
  destruct (lookup_lt_is_Some_2 env_ind b) as [e He]; [lia|].
  assert (zip (seq 0 B) env_ind !! b = Some (b, e)) as Hzip.
  { apply lookup_zip_Some. split; [by apply lookup_seq_lt | done]. }
  destruct (Forall2_lookup_l _ _ _ _ _ Hxo Hzip) as (c_o & Hco & row_o & Hro & Hgo).
  destruct (Forall2_lookup_l _ _ _ _ _ Hyi Hzip) as (c_i & Hci & row_i & Hri & Hgi).
  simpl in *.
  destruct (Forall2_lookup_r _ _ _ _ _ Hso Hro) as (i_o & Hio & Hgeto).
  destruct (Forall2_lookup_r _ _ _ _ _ Hsi Hri) as (i_i & Hii & Hgeti).
  rewrite !list_lookup_fmap, Hst in Hio, Hii. simpl in Hio, Hii.
  injection Hio as <-. injection Hii as <-.
  pose proof (proj1 (Forall_lookup _ _) Hrange b st Hst) as Hst_range.
  simpl in Hst_range.
  exists st, e, row_o, row_i, c_o, c_i. repeat split; try done. lia.
Qed.

(** *** Reading a buffer that was fed by [write_env] alone *)

Lemma traverse_ok {A B : Type} (f : A → result B) (l : list A) :
  Forall (λ a, ∃ b, f a = Ok b) l → ∃ bs, traverse f l = Ok bs.
Proof.
  induction 1 as [|a l [b Hb] _ [bs IH]]; simpl; [eauto|].
  rewrite Hb, IH. eauto.
Qed.

Lemma getitem_Ok_elem {A : Type} (xs : list A) (i : Z) (x : A) :
  getitem xs i = Ok x → x ∈ xs.
Proof.
  unfold getitem. destruct (index (length xs) i) as [n|]; [|discriminate].
  destruct (xs !! n) as [y|] eqn:Hy; [|discriminate].
  intros Heq. injection Heq as <-. by eapply list_elem_of_lookup_2.
Qed.

Lemma flat_indexes_in_range (starts : list Z) (seq_len hi : Z) :
  Forall (λ st, 0 ≤ st < hi - 2 - seq_len) starts →
  Forall (λ i, 0 ≤ i < hi)
         (concat (zip_with arange starts (map (λ st, st + seq_len) starts))).
Proof.
  intros Hall. apply Forall_concat. apply Forall_forall. intros w Hw.
  apply elem_of_lookup_zip_with in Hw as (i & st & e & -> & Hs & He).
  rewrite list_lookup_fmap, Hs in He. injection He as <-.
  eapply Forall_impl; [apply arange_bounds|]. intros j Hj. simpl in Hj.
  rewrite Forall_lookup in Hall. specialize (Hall i st Hs). simpl in Hall. lia.
Qed.

Lemma take_ok (values : list (list C)) (flat worker : list Z) s :
  Forall (λ i, 0 ≤ i < Z.of_nat (length values)) flat → flat ≠ [] →
  Forall (λ row, length row = Z.to_nat (nb_env s)) values →
  Forall (λ e, 0 ≤ e < nb_env s) worker →
  ∃ s' w, take array_repr values flat worker s = (s', Ok w).
Proof.
  intros Hflat Hne Hrows Hworker.
  unfold take, print, modify, get, lift, raise, mbind, M_bind. simpl.
  destruct (traverse_ok (getitem values) flat) as [sliced Hsl].
  { eapply Forall_impl; [exact Hflat|]. intros i Hi.
    by apply getitem_in_range. }
  rewrite Hsl. simpl.
  pose proof (traverse_Forall2 _ _ _ Hsl) as Hfs.
  assert (Forall (λ row, length row = Z.to_nat (nb_env s)) sliced) as Hwide.
  { apply Forall_forall. intros row Hrow.
    apply list_elem_of_lookup in Hrow as [n Hn].
    destruct (Forall2_lookup_r _ _ _ _ _ Hfs Hn) as (i & _ & Hget).
    apply getitem_Ok_elem in Hget.
    rewrite Forall_forall in Hrows. by apply Hrows. }
  destruct sliced as [|row0 sliced].
  { apply Forall2_length in Hfs. destruct flat; [done|discriminate]. }
  match goal with
  | |- context [traverse ?f ?l] =>
      destruct (traverse_ok f l) as [w Hw];
        [|rewrite Hw; eexists _, _; reflexivity]
  end.
  apply Forall_forall. intros [b e] Hbe.
  apply elem_of_zip_r in Hbe.
  rewrite Forall_forall in Hworker. specialize (Hworker e Hbe).
  apply traverse_ok. simpl.
  apply Forall_take, Forall_drop.
  eapply Forall_impl; [exact Hwide|]. intros row Hrow. simpl in *.
  apply getitem_in_range. rewrite Hrow. lia.
Qed.

Lemma take_items_ok (items : list (string * list (list C)))
    (flat worker : list Z) (n len : Z) :
  Forall (λ i, 0 ≤ i < len) flat → flat ≠ [] →
  Forall (λ kv, len ≤ Z.of_nat (length kv.2) ∧
                Forall (λ row, length row = Z.to_nat n) kv.2) items →
  Forall (λ e, 0 ≤ e < n) worker →
  ∀ s, nb_env s = n →
  ∃ s' r, take_items array_repr items flat worker s = (s', Ok r).
Proof.
  intros Hflat Hne Hitems Hworker.
  induction Hitems as [|[k v] items [Hlen Hrows] _ IH]; intros s Hn; simpl.
  { unfold mret, M_ret. eauto. }
  simpl in Hlen, Hrows.
  destruct (take_ok v flat worker s) as (s1 & w & Hw).
  { eapply Forall_impl; [exact Hflat|]. intros i Hi. simpl in *. lia. }
  { done. }
  { by rewrite Hn. }
  { by rewrite Hn. }
  pose proof (take_sample_frame v flat worker s) as Hf. rewrite Hw in Hf.
  destruct (sample_frame_config _ _ Hf) as (_ & _ & Hn1 & _). simpl in Hn1.
  destruct (IH s1) as (s2 & r & Hr); [congruence|].
  unfold mbind, M_bind. rewrite Hw, Hr. unfold mret, M_ret. eauto.
Qed.

(** On a buffer with room, more than [rollout_len + 2] rows and no array
    ['obs'], the sampling and the slicing of [_read] go through and the
    lookup of ['obs'] raises. *)
Lemma _read_key_error s :
  capacity_ok s → arrays s !! "obs" = None → 0 < nb_env s →
  rollout_len s + 2 < __len__ s → 0 < rollout_len s → 0 < batch_size s →
  (_read raw namedtuple_accepts array_repr s).2 = Raise (KeyError "obs").
Proof.
  intros Hok Hobs Hnb Hlen Hrl Hbs. unfold _read.
  unfold mbind at 1, M_bind at 1.
  destruct (randint_spec raw 0 (__len__ s - 2 - rollout_len s) (batch_size s) s)
    as (starts & Hst & Hls & Hrange); [lia..|].
  unfold sample_indexes at 1. unfold mbind at 1 2, M_bind at 1 2, get at 1.
  rewrite Hst. unfold mret at 1, M_ret at 1.
  set (s1 := set_np_random _ s).
  unfold mbind at 1, M_bind at 1, get at 1.
  unfold mbind at 1, M_bind at 1.
  destruct (randint_spec raw 0 (nb_env s1) (batch_size s1) s1)
    as (env_ind & Henv & Hle & Hrange_e); [subst s1; simpl; lia..|].
  rewrite Henv. set (s2 := set_np_random _ s1).
  pose proof Hok as (Hml & _ & _ & _ & _ & Hall & Hrows).
  destruct (take_items_ok (map_to_list (arrays s1))
              (concat (zip_with arange starts
                         (map (λ st, st + rollout_len s) starts)))
              env_ind (nb_env s) (__len__ s)) with (s := s2)
    as (s3 & r & Hitems).
  { apply flat_indexes_in_range. exact Hrange. }
  { intros Hnil. apply (f_equal length) in Hnil.
    rewrite (length_concat_chunks (Z.to_nat (rollout_len s))) in Hnil
      by apply windows_chunks.
    rewrite length_zip_with, length_map in Hnil. simpl in Hnil. nia. }
  { apply Forall_forall. intros [k v] Hkv. apply elem_of_map_to_list in Hkv.
    subst s1. simpl in Hkv. simpl. split.
    - pose proof (Hall k v Hkv) as Hv. simpl in Hv. unfold __len__. lia.
    - exact (Hrows k v Hkv). }
  { subst s1. simpl in Hrange_e. exact Hrange_e. }
  { done. }
  unfold mbind at 1, M_bind at 1. subst s1. simpl in Hitems |- *.
  rewrite Hitems.
  pose proof (take_items_sample_frame (map_to_list (arrays s))
    (concat (zip_with arange starts (map (λ st, st + rollout_len s) starts)))
    env_ind s2) as Hf3.
  rewrite Hitems in Hf3. simpl in Hf3.
  destruct (sample_frame_config _ _ Hf3) as (_ & _ & _ & Ha3).
  unfold mbind at 1, M_bind at 1.
  rewrite lookup_array_missing; [done|].
  rewrite Ha3. subst s2. simpl. exact Hobs.
Qed.

(** X13: An ExperienceReplay that has only been written through write_env (any
    number of calls after the constructor) has no array under the key 'obs'
    (write_env stores observations under 'obs-<key>'), none under
    'internals', and an empty queue, so read() raises instead of returning a
    batch.  Once such a buffer with room holds more than rollout_len + 2
    rows, with a positive rollout length and batch size, the draw of the
    indexes and the slicing go through and read() raises KeyError('obs'). *)
Theorem replay_env_fed_read_raises s :
  env_fed uninit one_minus shape_repr s →
  arrays s !! "obs" = None ∧ arrays s !! "internals" = None ∧
  _cached_rollout s = [] ∧
  (∃ e, (read raw namedtuple_accepts array_repr s).2 = Raise e) ∧
  (capacity_ok s → rollout_len s + 2 < __len__ s →
   0 < rollout_len s → 0 < batch_size s →
   (read raw namedtuple_accepts array_repr s).2 = Raise (KeyError "obs")).
Proof.
  intros Hfed. destruct (env_fed_state s Hfed) as (Hobs & Hint & Hq & Hnb).
  split; [done|]. split; [done|]. split; [done|].
  rewrite read_cache_miss by (rewrite Hq; simpl; lia).
  split.
  - by apply _read_needs_obs.
  - intros Hok Hlen Hrl Hbs. by apply _read_key_error.
Qed.

Lemma env_fed_write_envs
    (calls : list (list (string * list C) * list C * list C * list C)) :
  ∀ s, env_fed uninit one_minus shape_repr s →
       env_fed uninit one_minus shape_repr
         (write_envs uninit one_minus shape_repr calls s).1.
Proof.
  induction calls as [|[[[obs r] tm] i] rest IH]; intros s Hfed; [done|].
  cbn [write_envs]. unfold mbind, M_bind.
  pose proof (fed_write_env uninit one_minus shape_repr s obs r tm i Hfed)
    as Hfed1.
  destruct (write_env uninit one_minus shape_repr obs r tm i s)
    as [s1 [[]|e]]; simpl in Hfed1; [by apply IH | done].
Qed.

End replay_more.

Lemma replay_ready_after_min_length_writes_witness :
  ExperienceReplay.is_ready
    (ExperienceReplay.write_envs 0%Z (λ x, 1 - x)%Z ReplayRun.no_repr
       (replicate 101 ReplayRun.env_call) ReplayRun.fresh).1 =
  bool_decide (100 < length (replicate 101 ReplayRun.env_call))%nat.
Proof.
  apply (replay_ready_after_min_length_writes 0%Z (λ x, 1 - x)%Z
           ReplayRun.no_repr 2 3 2 20); [reflexivity | lia |].
  apply Forall_replicate. split; [|split]; repeat constructor.
Defined.

Lemma replay_queue_bounded_witness :
  ∃ s,
    ReplayInv.reachable 0%Z (λ x, 1 - x)%Z ReplayRun.raw ReplayRun.accepts
      ReplayRun.no_repr ReplayRun.no_repr s ∧
    ExperienceReplay._num_inserted s = 1%Z ∧
    (length (ExperienceReplay._cached_rollout s) ≤ 5)%nat ∧
    ExperienceReplay.max_cache s = 5%Z ∧ ExperienceReplay.min_length s = 100%Z.
Proof.
  assert (ReplayInv.reachable 0%Z (λ x, 1 - x)%Z ReplayRun.raw ReplayRun.accepts
            ReplayRun.no_repr ReplayRun.no_repr
            (ExperienceReplay.write_env 0%Z (λ x, 1 - x)%Z ReplayRun.no_repr
               [] [1; 0]%Z [0; 0]%Z [] ReplayRun.fresh).1) as Hreach.
  { apply ReplayInv.reach_write_env.
    by apply (ReplayInv.reach_init _ _ _ _ _ _ 2 3 2 20). }
  eexists. split; [exact Hreach|]. split; [reflexivity|].
  exact (replay_queue_bounded _ _ _ _ _ _ _ Hreach).
Defined.

Lemma replay_env_fed_read_raises_witness :
  ReplayInv.env_fed 0%Z (λ x, 1 - x)%Z ReplayRun.no_repr ReplayRun.env_filled ∧
  ExperienceReplay._num_inserted ReplayRun.env_filled = 101%Z ∧
  is_Some (ExperienceReplay.arrays ReplayRun.env_filled !! "obs-x") ∧
  (ExperienceReplay.arrays ReplayRun.env_filled !! "obs" = None ∧
   ExperienceReplay.arrays ReplayRun.env_filled !! "internals" = None ∧
   ExperienceReplay._cached_rollout ReplayRun.env_filled = [] ∧
   (∃ e, (ExperienceReplay.read ReplayRun.raw ReplayRun.accepts
            ReplayRun.no_repr ReplayRun.env_filled).2 = Raise e) ∧
   (ExperienceReplay.capacity_ok ReplayRun.env_filled →
    (ExperienceReplay.rollout_len ReplayRun.env_filled + 2
       < ExperienceReplay.__len__ ReplayRun.env_filled)%Z →
    (0 < ExperienceReplay.rollout_len ReplayRun.env_filled)%Z →
    (0 < ExperienceReplay.batch_size ReplayRun.env_filled)%Z →
    (ExperienceReplay.read ReplayRun.raw ReplayRun.accepts ReplayRun.no_repr
       ReplayRun.env_filled).2 = Raise (KeyError "obs"))) ∧
  (ExperienceReplay.read ReplayRun.raw ReplayRun.accepts ReplayRun.no_repr
     ReplayRun.env_filled).2 = Raise (KeyError "obs").
Proof.
  assert (ReplayInv.env_fed 0%Z (λ x, 1 - x)%Z ReplayRun.no_repr
            ReplayRun.env_filled) as Hfed.
  { apply env_fed_write_envs. by apply (ReplayInv.fed_init _ _ _ 2 3 2 20). }
  pose proof (replay_env_fed_read_raises 0%Z (λ x, 1 - x)%Z ReplayRun.raw
                ReplayRun.accepts ReplayRun.no_repr ReplayRun.no_repr
                ReplayRun.env_filled Hfed) as Hread.
  split; [exact Hfed|]. split; [reflexivity|].
  split; [by vm_compute; eexists|]. split; [exact Hread|].
  destruct Hread as (_ & _ & _ & _ & Hkey). apply Hkey.
  - destruct (init_capacity_ok 0%Z 2 3 2 20) as (s & E & Hok & _); [lia..|].
    rewrite replay_run_fresh in E. injection E as <-.
    apply (write_envs_counters 0%Z (λ x, 1 - x)%Z ReplayRun.no_repr
             (replicate 101 ReplayRun.env_call) ReplayRun.fresh Hok).
    apply Forall_replicate. split; [|split]; repeat constructor.
  - vm_compute. reflexivity.
  - vm_compute. reflexivity.
  - vm_compute. reflexivity.
Defined.

Lemma replay_read_short_buffer_raises_witness :
  ExperienceReplay._num_inserted ReplayRun.env_short = 3%Z ∧
  ExperienceReplay.read ReplayRun.raw ReplayRun.accepts ReplayRun.no_repr
    ReplayRun.env_short =
  (ExperienceReplay.set_stdout
     (ExperienceReplay.stdout ReplayRun.env_short ++ ["Cache miss"])
     ReplayRun.env_short,
   Raise ValueError).
Proof.
  split; [reflexivity|].
  apply replay_read_short_buffer_raises; vm_compute; [lia | congruence | lia].
Defined.

Lemma replay_init_outcome_witness :
  (0 ≤ 20)%Z ∧ (0 < 2)%Z ∧
  ExperienceReplay.max_len ReplayRun.fresh = (20 `div` 2)%Z ∧
  (0 ≤ ExperienceReplay.max_len ReplayRun.fresh)%Z ∧
  ExperienceReplay.nb_env ReplayRun.fresh = 2%Z ∧
  ExperienceReplay.batch_size ReplayRun.fresh = 3%Z ∧
  ExperienceReplay.rollout_len ReplayRun.fresh = 2%Z ∧
  ExperienceReplay._current_index ReplayRun.fresh = 0%Z ∧
  ExperienceReplay._num_inserted ReplayRun.fresh = 0%Z ∧
  ExperienceReplay._cached_rollout ReplayRun.fresh = [] ∧
  ExperienceReplay.is_ready ReplayRun.fresh = false ∧
  ExperienceReplay.__len__ ReplayRun.fresh = 0%Z ∧
  dom (ExperienceReplay.arrays ReplayRun.fresh) = {["rewards"; "terminals"]} ∧
  ∀ k a, ExperienceReplay.arrays ReplayRun.fresh !! k = Some a →
    Z.of_nat (length a) = 20%Z ∧
    Forall (λ row, Z.of_nat (length row) = 2%Z) a.
Proof.
  apply (replay_init_outcome 0%Z 2 3 2 20 ReplayRun.fresh). reflexivity.
Defined.

Lemma replay_write_env_stores_row_witness :
  ∃ self,
    ExperienceReplay.__init__ 0%Z 2 3 2 20 = Ok self ∧
    ∃ s' old_r old_t new_r new_t,
      ExperienceReplay.write_env 0%Z (λ x, 1 - x)%Z ReplayRun.no_repr
        [("x", [5; 6]%Z)] [1; 0]%Z [0; 1]%Z [] self = (s', Ok ()) ∧
      ExperienceReplay.arrays self !! "rewards" = Some old_r ∧
      ExperienceReplay.arrays self !! "terminals" = Some old_t ∧
      ExperienceReplay.arrays s' !! "rewards" = Some new_r ∧
      ExperienceReplay.arrays s' !! "terminals" = Some new_t ∧
      new_r = <[Z.to_nat (ExperienceReplay._current_index self) := [1; 0]%Z]> old_r ∧
      new_t = <[Z.to_nat (ExperienceReplay._current_index self) :=
                  map (λ x, 1 - x)%Z [0; 1]%Z]> old_t ∧
      ExperienceReplay.getitem new_r (ExperienceReplay._current_index self)
        = Ok [1; 0]%Z ∧
      ExperienceReplay.getitem new_t (ExperienceReplay._current_index self)
        = Ok (map (λ x, 1 - x)%Z [0; 1]%Z).
Proof.
  destruct (init_capacity_ok 0%Z 2 3 2 20) as (self & E & Hok & _ & Hnb & _);
    [lia..|].
  exists self. split; [exact E|].
  apply (replay_write_env_stores_row 0%Z (λ x, 1 - x)%Z ReplayRun.no_repr self).
  - exact Hok.
  - unfold ExperienceReplay.env_call_ok, ExperienceReplay.per_env.
    rewrite Hnb. repeat constructor.
Defined.

Lemma replay_zero_capacity_write_env_raises_witness :
  ∃ s,
    ExperienceReplay.__init__ 0%Z 2 3 2 1 = Ok s ∧
    ∃ s' e,
      ExperienceReplay.write_env 0%Z (λ x, 1 - x)%Z ReplayRun.no_repr
        [] [1; 0]%Z [0; 0]%Z [] s = (s', Raise e) ∧
      ExperienceReplay.counters s' = ExperienceReplay.counters s.
Proof.
  eexists. split; [reflexivity|].
  apply replay_zero_capacity_write_env_raises. reflexivity.
Defined.

Lemma replay_read_windows_witness :
  ∃ s' rollout,
    ExperienceReplay._read ReplayRun.raw ReplayRun.accepts ReplayRun.no_repr
      ReplayRun.filled = (s', Ok rollout) ∧
    ∃ starts env_ind : list Z,
      length starts = Z.to_nat (ExperienceReplay.batch_size ReplayRun.filled) ∧
      length env_ind = Z.to_nat (ExperienceReplay.batch_size ReplayRun.filled) ∧
      Forall (λ st, 0 ≤ st < ExperienceReplay.__len__ ReplayRun.filled - 2
                             - ExperienceReplay.rollout_len ReplayRun.filled)%Z
             starts ∧
      Forall (λ e, 0 ≤ e < ExperienceReplay.nb_env ReplayRun.filled)%Z env_ind ∧
      ∀ k w, k ≠ "last_obs" → k ≠ "last_internals" →
        rollout !! k = Some (ExperienceReplay.Windows w) →
        ∃ values,
          ExperienceReplay.arrays ReplayRun.filled !! k = Some values ∧
          length w = Z.to_nat (ExperienceReplay.batch_size ReplayRun.filled) ∧
          ∀ b win, w !! b = Some win →
            ∃ st e,
              starts !! b = Some st ∧ env_ind !! b = Some e ∧
              length win = Z.to_nat (ExperienceReplay.rollout_len ReplayRun.filled) ∧
              ∀ t c, win !! t = Some c →
                ∃ row, ExperienceReplay.getitem values (st + Z.of_nat t)%Z = Ok row ∧
                       ExperienceReplay.getitem row e = Ok c.
Proof.
  assert (∃ s' rollout,
    ExperienceReplay._read ReplayRun.raw ReplayRun.accepts ReplayRun.no_repr
      ReplayRun.filled = (s', Ok rollout)) as (s' & rollout & E).
  { eexists _, _. vm_compute. reflexivity. }
  exists s', rollout. split; [exact E|].
  exact (replay_read_windows _ _ _ _ _ _ E).
Defined.

Lemma replay_read_last_rows_witness :
  ∃ s' rollout,
    ExperienceReplay._read ReplayRun.raw ReplayRun.accepts ReplayRun.no_repr
      ReplayRun.filled = (s', Ok rollout) ∧
    ∃ (starts env_ind : list Z) obs_arr int_arr x y,
      length starts = Z.to_nat (ExperienceReplay.batch_size ReplayRun.filled) ∧
      length env_ind = Z.to_nat (ExperienceReplay.batch_size ReplayRun.filled) ∧
      Forall (λ st, 0 ≤ st < ExperienceReplay.__len__ ReplayRun.filled - 2
                             - ExperienceReplay.rollout_len ReplayRun.filled)%Z
             starts ∧
      Forall (λ e, 0 ≤ e < ExperienceReplay.nb_env ReplayRun.filled)%Z env_ind ∧
      ExperienceReplay.arrays ReplayRun.filled !! "obs" = Some obs_arr ∧
      ExperienceReplay.arrays ReplayRun.filled !! "internals" = Some int_arr ∧
      rollout !! "last_obs" = Some (ExperienceReplay.Singles x) ∧
      rollout !! "last_internals" = Some (ExperienceReplay.Singles y) ∧
      length x = Z.to_nat (ExperienceReplay.batch_size ReplayRun.filled) ∧
      length y = Z.to_nat (ExperienceReplay.batch_size ReplayRun.filled) ∧
      (∀ k w, k ≠ "last_obs" → k ≠ "last_internals" →
         rollout !! k = Some (ExperienceReplay.Windows w) →
         ∃ values,
           ExperienceReplay.arrays ReplayRun.filled !! k = Some values ∧
           length w = Z.to_nat (ExperienceReplay.batch_size ReplayRun.filled) ∧
           ∀ b win, w !! b = Some win →
             ∃ st e,
               starts !! b = Some st ∧ env_ind !! b = Some e ∧
               length win =
                 Z.to_nat (ExperienceReplay.rollout_len ReplayRun.filled) ∧
               ∀ t c, win !! t = Some c →
                 ∃ row,
                   ExperienceReplay.getitem values (st + Z.of_nat t)%Z = Ok row ∧
                   ExperienceReplay.getitem row e = Ok c) ∧
      ∀ b, (b < Z.to_nat (ExperienceReplay.batch_size ReplayRun.filled))%nat →
        ∃ st e row_o row_i c_o c_i,
          starts !! b = Some st ∧ env_ind !! b = Some e ∧
          (st + ExperienceReplay.rollout_len ReplayRun.filled + 1
             ≤ ExperienceReplay.__len__ ReplayRun.filled - 2)%Z ∧
          ExperienceReplay.getitem obs_arr
            (st + ExperienceReplay.rollout_len ReplayRun.filled + 1)%Z = Ok row_o ∧
          ExperienceReplay.getitem row_o e = Ok c_o ∧ x !! b = Some c_o ∧
          ExperienceReplay.getitem int_arr
            (st + ExperienceReplay.rollout_len ReplayRun.filled + 1)%Z = Ok row_i ∧
          ExperienceReplay.getitem row_i e = Ok c_i ∧ y !! b = Some c_i.
Proof.
  assert (∃ s' rollout,
    ExperienceReplay._read ReplayRun.raw ReplayRun.accepts ReplayRun.no_repr
      ReplayRun.filled = (s', Ok rollout)) as (s' & rollout & E).
  { eexists _, _. vm_compute. reflexivity. }
  exists s', rollout. split; [exact E|].
  exact (replay_read_last_rows _ _ _ _ _ _ E).
Defined.

(** ** Devices and process groups *)

Section devices.
Context {A : Type}.
Import WorkerLearner.
Local Open Scope Z_scope.

Lemma getitem_head (g : A) (rest : list A) :
  ExperienceReplay.getitem (g :: rest) 0 = Ok g.
Proof.
  unfold ExperienceReplay.getitem, ExperienceReplay.index.
  rewrite decide_True by (simpl; lia). done.
Qed.

Lemma getitem_lookup (xs : list A) (i : Z) :
  0 ≤ i < Z.of_nat (length xs) →
  ∃ x, xs !! Z.to_nat i = Some x ∧ ExperienceReplay.getitem xs i = Ok x.
Proof.
  intros Hi. unfold ExperienceReplay.getitem, ExperienceReplay.index.
  rewrite decide_True by done.
  destruct (lookup_lt_is_Some_2 xs (Z.to_nat i)) as [x Hx]; [lia|].
  exists x. by rewrite Hx.
Qed.

(** X22: gpu_id(local_rank, []) raises IndexError for every local rank: there
    is no device to fall back on. *)
Theorem gpu_id_empty_raises (local_rank : Z) :
  gpu_id local_rank ([] : list A) = Raise IndexError.
Proof.
  unfold gpu_id. cbn [length]. change (Z.of_nat 0) with 0.
  destruct (decide (local_rank = 0)); [done|].
  destruct (decide (0 = 1)); [done|].
  unfold ExperienceReplay.getitem, ExperienceReplay.index. cbn [length].
  change (Z.of_nat 0) with 0.
  pose proof (Z.mod_neg_bound local_rank (0 - 1) ltac:(lia)).
  repeat case_decide; try lia; done.
Qed.

(** X23: gpu_id returns the first device when the local rank is 0 or when
    there is exactly one device. *)
Theorem gpu_id_first_device (local_rank : Z) (g : A) (rest : list A) :
  local_rank = 0 ∨ rest = [] → gpu_id local_rank (g :: rest) = Ok g.
Proof.
  intros Hfirst. unfold gpu_id.
  destruct (decide (local_rank = 0)); [apply getitem_head|].
  destruct Hfirst as [?| ->]; [done|].
  destruct (decide (Z.of_nat (length [g]) = 1)) as [_|Hne];
    [apply getitem_head | by destruct Hne].
Qed.

(** X24: With a non-zero local rank and at least two devices, gpu_id returns
    the device at index local_rank % (device_count - 1) + 1, which lies in [1,
    device_count - 1]: it never raises and never picks slot 0, also for
    negative ranks. *)
Theorem gpu_id_other_devices (local_rank : Z) (gpu_ids : list A) :
  local_rank ≠ 0 → (2 ≤ length gpu_ids)%nat →
  ∃ (i : nat) (g : A),
    gpu_id local_rank gpu_ids = Ok g ∧ gpu_ids !! i = Some g ∧
    (1 ≤ i < length gpu_ids)%nat ∧
    Z.of_nat i = local_rank `mod` (Z.of_nat (length gpu_ids) - 1) + 1.
Proof.
  intros Hrank Hlen. unfold gpu_id.
  rewrite decide_False by done. rewrite decide_False by lia.
  pose proof (Z.mod_pos_bound local_rank (Z.of_nat (length gpu_ids) - 1)
                ltac:(lia)) as Hmod.
  destruct (getitem_lookup gpu_ids
              (local_rank `mod` (Z.of_nat (length gpu_ids) - 1) + 1))
    as (g & Hg & Hget); [lia|].
  exists (Z.to_nat (local_rank `mod` (Z.of_nat (length gpu_ids) - 1) + 1)), g.
  repeat split; [done | done | lia | lia | lia].
Qed.

(** X25: gpu_id assigns devices in rounds of device_count - 1: two non-zero
    local ranks that differ by device_count - 1 get the same outcome (the same
    device, or the same error on an empty list). *)
Theorem gpu_id_round_robin (local_rank : Z) (gpu_ids : list A) :
  local_rank ≠ 0 → local_rank + (Z.of_nat (length gpu_ids) - 1) ≠ 0 →
  gpu_id (local_rank + (Z.of_nat (length gpu_ids) - 1)) gpu_ids =
  gpu_id local_rank gpu_ids.
Proof.
  intros Hrank Hnext. unfold gpu_id.
  rewrite !(decide_False (P := _ = 0)) by done.
  destruct (decide (Z.of_nat (length gpu_ids) = 1)) as [H1|H1]; [done|].
  rewrite <- (Z.mul_1_l (Z.of_nat (length gpu_ids) - 1)) at 1.
  rewrite Z.mod_add by lia. done.
Qed.

End devices.

Lemma gpu_id_first_device_witness :
  WorkerLearner.gpu_id 3 [7%Z] = Ok 7%Z.
Proof. apply (gpu_id_first_device 3 7%Z []). by right. Defined.

Lemma gpu_id_other_devices_witness :
  ∃ (i : nat) (g : Z),
    WorkerLearner.gpu_id 5 [10; 11; 12; 13]%Z = Ok g ∧
    [10; 11; 12; 13]%Z !! i = Some g ∧
    (1 ≤ i < length [10; 11; 12; 13]%Z)%nat ∧
    Z.of_nat i = (5 `mod` (Z.of_nat (length [10; 11; 12; 13]%Z) - 1) + 1)%Z.
Proof.
  apply (gpu_id_other_devices 5 [10; 11; 12; 13]%Z); [lia | simpl; lia].
Defined.

Lemma gpu_id_round_robin_witness :
  WorkerLearner.gpu_id (2 + (Z.of_nat (length [10; 11; 12; 13]%Z) - 1))
    [10; 11; 12; 13]%Z =
  WorkerLearner.gpu_id 2 [10; 11; 12; 13]%Z.
Proof. apply (gpu_id_round_robin 2 [10; 11; 12; 13]%Z); simpl; lia. Defined.

Section groups.
Local Open Scope Z_scope.

Lemma learner_groups_inner (rank learner_rank k : Z) (worker_ranks : list Z) :
  ∀ g0 : gmap Z Learner.group,
  fold_left (λ groups worker_rank,
     if decide (learner_rank = rank)
     then <[worker_rank := [learner_rank; worker_rank]]> groups
     else groups) worker_ranks g0 !! k =
  if decide (learner_rank = rank ∧ k ∈ worker_ranks)
  then Some [learner_rank; k] else g0 !! k.
Proof.
  induction worker_ranks as [|w ws IH]; intros g0; cbn [fold_left].
  - destruct (decide _) as [[_ Hin]|]; [by apply elem_of_nil in Hin | done].
  - rewrite IH. destruct (decide (learner_rank = rank)) as [->|Hne].
    + destruct (decide (k ∈ ws)) as [Hin|Hnin].
      * rewrite !decide_True; [done | by split; [|right] | done].
      * rewrite (decide_False (P := _ ∧ k ∈ ws)) by tauto.
        destruct (decide (k = w)) as [->|Hkw].
        -- rewrite lookup_insert_eq. rewrite decide_True; [done|].
           split; [done | left].
        -- rewrite lookup_insert_ne by done. rewrite decide_False; [done|].
           intros [_ [?|?]%elem_of_cons]; done.
    + rewrite !decide_False by tauto. done.
Qed.

Lemma learner_groups_outer (rank k : Z) (learner_ranks worker_ranks : list Z) :
  ∀ g0 : gmap Z Learner.group,
  fold_left (λ groups learner_rank,
    fold_left (λ groups worker_rank,
      let g := [learner_rank; worker_rank] in
      if decide (learner_rank = rank) then <[worker_rank := g]> groups
      else groups) worker_ranks groups) learner_ranks g0 !! k =
  if decide (rank ∈ learner_ranks ∧ k ∈ worker_ranks)
  then Some [rank; k] else g0 !! k.
Proof.
  induction learner_ranks as [|l ls IH]; intros g0.
  - cbn [fold_left].
    destruct (decide _) as [[Hin _]|]; [by apply elem_of_nil in Hin | done].
  - cbn [fold_left]. rewrite IH. cbv zeta. rewrite learner_groups_inner.
    destruct (decide (rank ∈ ls ∧ k ∈ worker_ranks)) as [[Hr Hk]|Hn].
    + rewrite decide_True; [done|]. split; [by right | done].
    + destruct (decide (l = rank ∧ k ∈ worker_ranks)) as [[-> Hk]|Hn'].
      * rewrite decide_True; [done|]. split; [left | done].
      * rewrite decide_False; [done|].
        intros [[?|?]%elem_of_cons ?]; [apply Hn' | apply Hn]; by subst.
Qed.

Lemma worker_groups_inner (rank learner_rank k : Z) (worker_ranks : list Z) :
  ∀ g0 : gmap Z Learner.group,
  fold_left (λ groups worker_rank,
     if decide (worker_rank = rank)
     then <[learner_rank := [learner_rank; worker_rank]]> groups
     else groups) worker_ranks g0 !! k =
  if decide (k = learner_rank ∧ rank ∈ worker_ranks)
  then Some [learner_rank; rank] else g0 !! k.
Proof.
  induction worker_ranks as [|w ws IH]; intros g0; cbn [fold_left].
  - destruct (decide _) as [[_ Hin]|]; [by apply elem_of_nil in Hin | done].
  - rewrite IH. destruct (decide (k = learner_rank ∧ rank ∈ ws)) as [[-> Hin]|Hn].
    + rewrite decide_True; [done|]. split; [done | by right].
    + destruct (decide (w = rank)) as [->|Hne].
      * destruct (decide (k = learner_rank)) as [->|Hk].
        -- rewrite lookup_insert_eq. rewrite decide_True; [done|].
           split; [done | left].
        -- rewrite lookup_insert_ne by done. rewrite decide_False; [done|].
           tauto.
      * rewrite decide_False; [done|].
        intros [? [?|?]%elem_of_cons]; [by subst | tauto].
Qed.

Lemma worker_groups_outer (rank k : Z) (learner_ranks worker_ranks : list Z) :
  ∀ g0 : gmap Z Learner.group,
  fold_left (λ groups learner_rank,
    fold_left (λ groups worker_rank,
      let g := [learner_rank; worker_rank] in
      if decide (worker_rank = rank) then <[learner_rank := g]> groups
      else groups) worker_ranks groups) learner_ranks g0 !! k =
  if decide (k ∈ learner_ranks ∧ rank ∈ worker_ranks)
  then Some [k; rank] else g0 !! k.
Proof.
  induction learner_ranks as [|l ls IH]; intros g0.
  - cbn [fold_left].
    destruct (decide _) as [[Hin _]|]; [by apply elem_of_nil in Hin | done].
  - cbn [fold_left]. rewrite IH. cbv zeta. rewrite worker_groups_inner.
    destruct (decide (k ∈ ls ∧ rank ∈ worker_ranks)) as [[Hr Hk]|Hn].
    + rewrite decide_True; [done|]. split; [by right | done].
    + destruct (decide (k = l ∧ rank ∈ worker_ranks)) as [[-> Hk]|Hn'].
      * rewrite decide_True; [done|]. split; [left | done].
      * rewrite decide_False; [done|].
        intros [[?|?]%elem_of_cons ?]; [apply Hn' | apply Hn]; by subst.
Qed.

(** X26: The groups a Learner keeps: for every rank w, groups[w] is the group
    [rank, w] when the learner's rank is among learner_ranks and w among
    worker_ranks, and is absent otherwise (also with repeated ranks in the
    lists). *)
Theorem learner_groups_lookup (rank w : Z) (learner_ranks worker_ranks : list Z) :
  Learner.new_groups rank learner_ranks worker_ranks !! w =
  if decide (rank ∈ learner_ranks ∧ w ∈ worker_ranks)
  then Some [rank; w] else None.
Proof. unfold Learner.new_groups. by rewrite learner_groups_outer. Qed.

(** X27: The groups a Worker keeps: for every rank l, groups[l] is the group
    [l, rank] when l is among learner_ranks and the worker's rank among
    worker_ranks, and is absent otherwise. *)
Theorem worker_groups_lookup (rank l : Z) (learner_ranks worker_ranks : list Z) :
  Worker.new_groups rank learner_ranks worker_ranks !! l =
  if decide (l ∈ learner_ranks ∧ rank ∈ worker_ranks)
  then Some [l; rank] else None.
Proof. unfold Worker.new_groups. by rewrite worker_groups_outer. Qed.

(** X28: Learner and worker agree on their pair: the entry a Learner of rank l
    keeps for worker w and the entry a Worker of rank w keeps for learner l,
    built from the same rank lists, are the same (the group of members [l, w],
    or both absent). *)
Theorem learner_worker_groups_agree (l w : Z)
    (learner_ranks worker_ranks : list Z) :
  Learner.new_groups l learner_ranks worker_ranks !! w =
  Worker.new_groups w learner_ranks worker_ranks !! l.
Proof.
  unfold Learner.new_groups, Worker.new_groups.
  by rewrite learner_groups_outer, worker_groups_outer.
Qed.

End groups.

(** ** Undeclared fields on the replay cache, and the amended claim *)

Section write_forward_more.
Context {C : Type} (uninit : C) (shape_repr : list C → string).
Local Open Scope Z_scope.
Import ExperienceReplay ReplayInv.
#[local] Existing Instance M_ret.
#[local] Existing Instance M_bind.

Implicit Types (s : t C) (k : string) (v : list C).

(** *** What [write_forward] of the replay cache can raise *)

Lemma ensure_array_raises k line s e :
  (ensure_array uninit k line s).2 = Raise e → e = ValueError.
Proof.
  unfold ensure_array, mbind, M_bind, get, print, modify, lift, mret, M_ret,
    np_empty. simpl.
  destruct (arrays s !! k); simpl; [discriminate|].
  case_decide; simpl; [|discriminate]. intros Heq. by injection Heq.
Qed.

Lemma ensure_array_present k line s s1 :
  ensure_array uninit k line s = (s1, Ok ()) → is_Some (arrays s1 !! k).
Proof.
  unfold ensure_array, mbind, M_bind, get, print, modify, lift, mret, M_ret.
  simpl. destruct (arrays s !! k) as [a|] eqn:Hk; simpl.
  - intros Heq. injection Heq as <-. eauto.
  - destruct (np_empty uninit (max_len s) (nb_env s)); [|discriminate].
    intros Heq. injection Heq as <-. simpl. rewrite lookup_insert_eq. eauto.
Qed.

Lemma broadcast_to_raises (n : nat) v e :
  broadcast_to n v = Raise e → e = ValueError.
Proof.
  unfold broadcast_to. case_decide; [discriminate|].
  destruct v as [|x [|y v]]; intros Heq; first [discriminate | by injection Heq].
Qed.

Lemma setitem_raises (a : list (list C)) (i : Z) v e :
  setitem a i v = Raise e → e = IndexError ∨ e = ValueError.
Proof.
  unfold setitem.
  destruct (index (length a) i) as [n|e1] eqn:Hi.
  - destruct (a !! n) as [row|].
    + destruct (broadcast_to (length row) v) as [row'|e2] eqn:Hb;
        [discriminate|].
      intros Heq. injection Heq as <-. right.
      by apply broadcast_to_raises in Hb.
    + intros Heq. injection Heq as <-. by left.
  - intros Heq. injection Heq as <-. left.
    unfold index in Hi. repeat case_decide; first [discriminate | by injection Hi].
Qed.

Lemma store_present_raises k v s e :
  is_Some (arrays s !! k) →
  (store k v s).2 = Raise e → e = IndexError ∨ e = ValueError.
Proof.
  intros [a Ha]. unfold store, mbind, M_bind, get, lift, modify. simpl.
  rewrite Ha. simpl.
  destruct (setitem a (_current_index s) v) as [a'|e'] eqn:Hset; simpl;
    [discriminate|].
  intros Heq. injection Heq as <-. by apply setitem_raises in Hset.
Qed.

Lemma write_forward_raises (kwargs : list (string * list C)) :
  ∀ s e, (write_forward uninit shape_repr kwargs s).2 = Raise e →
         e = IndexError ∨ e = ValueError.
Proof.
  unfold write_forward.
  induction kwargs as [|[k v] rest IH]; intros s e; simpl; [discriminate|].
  unfold mbind at 1, M_bind at 1. unfold mbind at 1, M_bind at 1.
  destruct (ensure_array uninit k (k +:+ " " +:+ shape_repr v) s)
    as [s1 [[]|e1]] eqn:Hen.
  - pose proof (ensure_array_present _ _ _ _ Hen) as Hk.
    destruct (store k v s1) as [s2 [[]|e2]] eqn:Hst.
    + apply IH.
    + simpl. intros Heq. injection Heq as <-.
      apply (store_present_raises k v s1); [done | by rewrite Hst].
  - simpl. intros Heq. injection Heq as <-. right.
    apply (ensure_array_raises k (k +:+ " " +:+ shape_repr v) s).
    by rewrite Hen.
Qed.

(** *** The arrays it creates *)

Lemma keys_kept_refl s : keys_kept s s.
Proof. by intros k. Qed.

Lemma keys_kept_trans (a b c : t C) :
  keys_kept a b → keys_kept b c → keys_kept a c.
Proof. intros H1 H2 k Hk. by apply H2, H1. Qed.

Lemma ensure_array_keys_kept k line :
  always keys_kept (ensure_array uninit k line).
Proof.
  intros s. unfold ensure_array, mbind, M_bind, get, print, modify, lift, mret,
    M_ret. simpl.
  destruct (arrays s !! k) eqn:Hk; [apply keys_kept_refl|]. simpl.
  destruct (np_empty uninit (max_len s) (nb_env s)); simpl;
    [|by intros k'].
  intros k' Hk'. simpl. destruct (decide (k = k')) as [->|Hne].
  - rewrite lookup_insert_eq. eauto.
  - by rewrite lookup_insert_ne.
Qed.

Lemma store_keys_kept k v : always keys_kept (store k v).
Proof.
  intros s. unfold store, mbind, M_bind, get, modify, lift, raise. simpl.
  destruct (arrays s !! k) as [a|] eqn:Hk; [|apply keys_kept_refl]. simpl.
  destruct (setitem a (_current_index s) v); simpl; [|apply keys_kept_refl].
  intros k' Hk'. simpl. destruct (decide (k = k')) as [->|Hne].
  - rewrite lookup_insert_eq. eauto.
  - by rewrite lookup_insert_ne.
Qed.

Lemma write_forward_keys_kept kwargs :
  always keys_kept (write_forward uninit shape_repr kwargs).
Proof.
  unfold write_forward.
  apply always_for_each; [apply keys_kept_refl | apply keys_kept_trans|].
  intros [k v]. apply always_bind; [apply keys_kept_trans|..].
  - apply ensure_array_keys_kept.
  - intros _. apply store_keys_kept.
Qed.

Lemma write_forward_key_frame kwargs k0 :
  k0 ∉ kwargs.*1 → always (key_frame k0) (write_forward uninit shape_repr kwargs).
Proof.
  unfold write_forward. induction kwargs as [|[k v] rest IH]; intros Hk0.
  { intros s. apply key_frame_refl. }
  apply not_elem_of_cons in Hk0 as [Hne Hk0]. simpl in Hne.
  cbn [for_each]. apply always_bind; [apply key_frame_trans|..].
  - apply always_bind; [apply key_frame_trans|..].
    + by apply ensure_array_key_frame.
    + intros _. by apply store_key_frame.
  - intros _. by apply IH.
Qed.

(** Every name of a call that returns is a field afterwards. *)
Lemma write_forward_creates_all (kwargs : list (string * list C)) :
  ∀ s s', write_forward uninit shape_repr kwargs s = (s', Ok ()) →
  ∀ k, k ∈ kwargs.*1 → is_Some (arrays s' !! k).
Proof.
  unfold write_forward.
  induction kwargs as [|[k0 v0] rest IH]; intros s s' Hw k Hk.
  { by apply elem_of_nil in Hk. }
  cbn [for_each] in Hw.
  apply bind_Ok_inv in Hw as (s2 & [] & Hbody & Hrest).
  apply bind_Ok_inv in Hbody as (s1 & [] & Hen & Hst). simpl in Hen, Hst.
  apply elem_of_cons in Hk as [->|Hk]; [|by apply (IH s2)].
  pose proof (ensure_array_present _ _ _ _ Hen) as Hk0.
  pose proof (store_keys_kept k0 v0 s1) as Hkept. rewrite Hst in Hkept.
  pose proof (write_forward_keys_kept rest s2) as Hkept'.
  unfold write_forward in Hkept'. rewrite Hrest in Hkept'.
  simpl in *. by apply Hkept', Hkept.
Qed.

(** One name that is not a field yet, on a buffer with room. *)
Lemma write_forward_step_creates k v s :
  capacity_ok s → per_env s v → arrays s !! k = None →
  ∃ s1,
    (ensure_array uninit k (k +:+ " " +:+ shape_repr v);; store k v) s
      = (s1, Ok ()) ∧
    arrays s1 !! k =
      Some (<[Z.to_nat (_current_index s) := v]>
              (replicate (Z.to_nat (max_len s))
                 (replicate (Z.to_nat (nb_env s)) uninit))).
Proof.
  intros (Hml & Hnb & Hcur & _) Hv Hk. unfold per_env in Hv.
  unfold ensure_array, print, modify, get, lift, mbind, M_bind, mret, M_ret,
    np_empty. simpl.
  rewrite Hk. rewrite decide_False by lia. simpl.
  unfold store, mbind, M_bind, get, lift, modify. simpl.
  rewrite lookup_insert_eq.
  rewrite setitem_row.
  - simpl. eexists. split; [reflexivity|]. simpl. by rewrite lookup_insert_eq.
  - rewrite length_replicate. lia.
  - apply Forall_replicate. rewrite length_replicate. by rewrite Hv.
Qed.

Lemma write_forward_content (kwargs : list (string * list C)) :
  ∀ s, capacity_ok s → NoDup kwargs.*1 →
  Forall (λ kv, per_env s kv.2) kwargs →
  ∃ s', write_forward uninit shape_repr kwargs s = (s', Ok ()) ∧
        counters s' = counters s ∧
        ∀ k v, (k, v) ∈ kwargs → arrays s !! k = None →
          arrays s' !! k =
            Some (<[Z.to_nat (_current_index s) := v]>
                    (replicate (Z.to_nat (max_len s))
                       (replicate (Z.to_nat (nb_env s)) uninit))).
Proof.
  induction kwargs as [|[k0 v0] rest IH]; intros s Hok Hnd Hrows.
  { exists s. split; [done|]. split; [done|]. intros k v Hin.
    by apply elem_of_nil in Hin. }
  apply NoDup_cons in Hnd as [Hk0 Hnd]. apply Forall_cons in Hrows as [Hv0 Hrows].
  simpl in Hv0.
  destruct (ensure_then_store_keeps uninit (nb_env s) k0
              (k0 +:+ " " +:+ shape_repr v0) v0 Hv0 s Hok eq_refl)
    as (s1 & E1 & Hok1 & Hc1 & _).
  pose proof Hc1 as Hc1'. unfold counters in Hc1'.
  injection Hc1' as Hml1 Hnb1 Hcur1 Hnum1.
  destruct (IH s1 Hok1 Hnd) as (s' & E' & Hc' & Hcontent).
  { eapply Forall_impl; [exact Hrows|]. intros kv Hkv. unfold per_env in *.
    by rewrite Hnb1. }
  exists s'. split.
  { unfold write_forward in *. cbn [for_each]. unfold mbind at 1, M_bind at 1.
    simpl. rewrite E1. exact E'. }
  split; [congruence|].
  intros k v Hin Hnone. apply elem_of_cons in Hin as [Heq|Hin].
  - injection Heq as -> ->.
    destruct (write_forward_step_creates k0 v0 s Hok Hv0 Hnone)
      as (s1' & E1' & Hk1).
    rewrite E1 in E1'. injection E1' as <-.
    pose proof (write_forward_key_frame rest k0 Hk0 s1) as Hframe.
    rewrite E' in Hframe. unfold key_frame in Hframe. simpl in Hframe.
    by rewrite Hframe.
  - assert (k ≠ k0) as Hne.
    { intros ->. apply Hk0. apply list_elem_of_fmap. by exists (k0, v). }
    assert (arrays s1 !! k = None) as Hnone1.
    { rewrite <- Hnone.
      assert (always (key_frame k)
                (ensure_array uninit k0 (k0 +:+ " " +:+ shape_repr v0);;
                 store k0 v0)) as Hf.
      { apply always_bind; [apply key_frame_trans|..].
        - by apply ensure_array_key_frame.
        - intros _. by apply store_key_frame. }
      specialize (Hf s). rewrite E1 in Hf. exact Hf. }
    rewrite (Hcontent k v Hin Hnone1). by rewrite Hml1, Hnb1, Hcur1.
Qed.

End write_forward_more.

(** C8, amended: a [write_forward] with a field name that was not declared
    raises [KeyError] with the text [Incompatible rollout key] on the
    rollout cache and creates no field there.  The replay cache makes no
    such check: a call with keyword arguments that include the undeclared
    name [k] never raises [KeyError]; whenever it returns, [k] is a field
    afterwards; and on a buffer with room, with values of one entry per
    environment, it returns and the array of [k] is a new array with the
    value of [k] at the cursor. *)
Theorem write_forward_undeclared_field {V C : Type} (uninit : C)
    (shape_repr : list C → string)
    (rollout : ACRollout.t V) (actions : V) (experience : list (string * V))
    (replay : ExperienceReplay.t C) (kwargs : list (string * list C))
    (k : string) (v : list C) :
  (∃ kv, kv ∈ experience ∧ ACRollout.fields rollout !! kv.1 = None) →
  (k, v) ∈ kwargs → NoDup kwargs.*1 →
  ExperienceReplay.arrays replay !! k = None →
  (∃ k0, k0 ∈ experience.*1 ∧ ACRollout.fields rollout !! k0 = None ∧
     (ACRollout.write_forward actions experience rollout).2 =
       Raise (KeyError ("Incompatible rollout key: " +:+ k0)) ∧
     dom (ACRollout.fields (ACRollout.write_forward actions experience rollout).1)
       = dom (ACRollout.fields rollout)) ∧
  let out := ExperienceReplay.write_forward uninit shape_repr kwargs replay in
  (∀ msg, out.2 ≠ Raise (KeyError msg)) ∧
  (out.2 = Ok () → is_Some (ExperienceReplay.arrays out.1 !! k)) ∧
  (ExperienceReplay.capacity_ok replay →
   Forall (λ kv, ExperienceReplay.per_env replay kv.2) kwargs →
   out.2 = Ok () ∧
   ExperienceReplay.arrays out.1 !! k =
     Some (<[Z.to_nat (ExperienceReplay._current_index replay) := v]>
             (replicate (Z.to_nat (ExperienceReplay.max_len replay))
                (replicate (Z.to_nat (ExperienceReplay.nb_env replay)) uninit)))).
Proof.
  intros Hmissing Hin Hnd Hnone. split.
  { destruct (rollout_write_forward_undeclared actions experience rollout Hmissing)
      as (k0 & Hk0 & Hn0 & Hraise).
    exists k0. repeat split; try done. apply write_forward_dom. }
  cbv zeta. split.
  { intros msg Hraise.
    by destruct (write_forward_raises uninit shape_repr kwargs replay _ Hraise). }
  split.
  { destruct (ExperienceReplay.write_forward uninit shape_repr kwargs replay)
      as [s' [[]|e]] eqn:Hw; simpl; [|discriminate].
    intros _. apply (write_forward_creates_all uninit shape_repr kwargs replay);
      [done|].
    apply list_elem_of_fmap. by exists (k, v). }
  intros Hok Hrows.
  destruct (write_forward_content uninit shape_repr kwargs replay Hok Hnd Hrows)
    as (s' & E & _ & Hcontent).
  rewrite E. simpl. split; [done|]. by apply Hcontent.
Qed.

Lemma write_forward_undeclared_field_witness :
  (∃ k0, k0 ∈ [("values", 1%nat); ("foo", 2%nat)].*1 ∧
     ACRollout.fields (ACRollout.__init__ 5 (λ x : nat, x)) !! k0 = None ∧
     (ACRollout.write_forward 0%nat [("values", 1%nat); ("foo", 2%nat)]
        (ACRollout.__init__ 5 (λ x : nat, x))).2 =
       Raise (KeyError ("Incompatible rollout key: " +:+ k0)) ∧
     dom (ACRollout.fields
            (ACRollout.write_forward 0%nat [("values", 1%nat); ("foo", 2%nat)]
               (ACRollout.__init__ 5 (λ x : nat, x))).1)
       = dom (ACRollout.fields (ACRollout.__init__ 5 (λ x : nat, x)))) ∧
  let out :=
    ExperienceReplay.write_forward 0%Z ReplayRun.no_repr
      [("foo", [7; 8]%Z); ("rewards", [1; 2]%Z)] ReplayRun.fresh in
  (∀ msg, out.2 ≠ Raise (KeyError msg)) ∧
  (out.2 = Ok () → is_Some (ExperienceReplay.arrays out.1 !! "foo")) ∧
  (ExperienceReplay.capacity_ok ReplayRun.fresh →
   Forall (λ kv, ExperienceReplay.per_env ReplayRun.fresh kv.2)
          [("foo", [7; 8]%Z); ("rewards", [1; 2]%Z)] →
   out.2 = Ok () ∧
   ExperienceReplay.arrays out.1 !! "foo" =
     Some (<[Z.to_nat (ExperienceReplay._current_index ReplayRun.fresh) := [7; 8]%Z]>
             (replicate (Z.to_nat (ExperienceReplay.max_len ReplayRun.fresh))
                (replicate (Z.to_nat (ExperienceReplay.nb_env ReplayRun.fresh))
                           0%Z)))).
Proof.
  apply (write_forward_undeclared_field 0%Z ReplayRun.no_repr
           (ACRollout.__init__ 5 (λ x : nat, x)) 0%nat
           [("values", 1%nat); ("foo", 2%nat)] ReplayRun.fresh
           [("foo", [7; 8]%Z); ("rewards", [1; 2]%Z)] "foo" [7; 8]%Z).
  - exists ("foo", 2%nat). split; [|reflexivity].
    apply list_elem_of_In. simpl. tauto.
  - apply list_elem_of_In. simpl. tauto.
  - simpl. repeat constructor; rewrite ?list_elem_of_In; simpl; intuition congruence.
  - reflexivity.
Defined.
